(** * LFU cache: the frequency-bucket structure of [internal/lfu/lfu.go]

    The Go program keeps a hash index [mp] from keys to [nodeValue]
    objects, and a doubly linked chain of [nodeList] objects (one per
    frequency in use) hanging off a sentinel.  Every operation is pointer
    surgery on these objects, so the embedding keeps the pointers: the
    two kinds of objects live in two arenas addressed by indices, a nil
    pointer is [None], and dereferencing nil panics as it does in Go. *)

From Stdlib Require Import ZArith String.
From stdpp Require Import base option list gmap sorting.

Local Open Scope Z_scope.

(** ** Go's [int] *)

Definition int_bits : Z := 64.
Definition max_int : Z := 2 ^ (int_bits - 1) - 1.
Definition min_int : Z := - 2 ^ (int_bits - 1).

(** Two's-complement wrap-around of a mathematical integer into [int]. *)
Definition wrap (z : Z) : Z :=
  (z + 2 ^ (int_bits - 1)) mod 2 ^ int_bits - 2 ^ (int_bits - 1).

Definition int_add (a b : Z) : Z := wrap (a + b).

(** ** Outcomes of running Go code *)

Inductive error := ErrKeyNotFound.

Inductive panic :=
| NilDereference              (* invalid memory address or nil pointer dereference *)
| PanicString (msg : string)  (* panic("...") *)
| PanicError (e : error).     (* panic(err) *)

Inductive outcome (A : Type) :=
| Ok (a : A)
| Panic (p : panic)
| OutOfFuel.
Arguments Ok {A} a.
Arguments Panic {A} p.
Arguments OutOfFuel {A}.

Definition DefaultCapacity : Z := 5.

Definition ptr := nat.

Section LFU.
Context {K : Type} `{Countable K} {V : Type}.
(** Go's zero value of [V], returned by [Get] next to [ErrKeyNotFound]. *)
Variable zeroVal : V.

(** ** Objects *)

(** [nodeList]: the list of nodes sharing one frequency. *)
Record nodeList := mkNodeList {
  nl_frequency : Z;
  nl_prev : option ptr;
  nl_next : option ptr;
  nl_first : option ptr;
  nl_last : option ptr
}.

(** [nodeValue]: one cached key with its links inside its frequency list. *)
Record nodeValue := mkNodeValue {
  nv_key : K;
  nv_value : V;
  nv_next : option ptr;
  nv_prev : option ptr;
  nv_frequency : option ptr
}.

(** [cacheImpl] together with the part of the Go heap it owns.
    [frequencies] is the [sentinel] pointer of the embedded [list] struct;
    [lists] and [values] are the arenas of allocated [nodeList] and
    [nodeValue] objects, a pointer being an index into its arena. *)
Record cacheImpl := mkCache {
  capacity : Z;
  frequencies : ptr;
  mp : gmap K ptr;
  lists : list nodeList;
  values : list nodeValue
}.

Definition set_lists (f : list nodeList → list nodeList) (c : cacheImpl) :=
  mkCache (capacity c) (frequencies c) (mp c) (f (lists c)) (values c).
Definition set_values (f : list nodeValue → list nodeValue) (c : cacheImpl) :=
  mkCache (capacity c) (frequencies c) (mp c) (lists c) (f (values c)).
Definition set_mp (f : gmap K ptr → gmap K ptr) (c : cacheImpl) :=
  mkCache (capacity c) (frequencies c) (f (mp c)) (lists c) (values c).

Definition with_prev (p : option ptr) (n : nodeList) :=
  mkNodeList (nl_frequency n) p (nl_next n) (nl_first n) (nl_last n).
Definition with_next (p : option ptr) (n : nodeList) :=
  mkNodeList (nl_frequency n) (nl_prev n) p (nl_first n) (nl_last n).
Definition with_first (p : option ptr) (n : nodeList) :=
  mkNodeList (nl_frequency n) (nl_prev n) (nl_next n) p (nl_last n).
Definition with_last (p : option ptr) (n : nodeList) :=
  mkNodeList (nl_frequency n) (nl_prev n) (nl_next n) (nl_first n) p.

Definition with_vvalue (x : V) (n : nodeValue) :=
  mkNodeValue (nv_key n) x (nv_next n) (nv_prev n) (nv_frequency n).
Definition with_vnext (p : option ptr) (n : nodeValue) :=
  mkNodeValue (nv_key n) (nv_value n) p (nv_prev n) (nv_frequency n).
Definition with_vprev (p : option ptr) (n : nodeValue) :=
  mkNodeValue (nv_key n) (nv_value n) (nv_next n) p (nv_frequency n).
Definition with_vfrequency (p : option ptr) (n : nodeValue) :=
  mkNodeValue (nv_key n) (nv_value n) (nv_next n) (nv_prev n) p.

(** ** The state monad of the cache's methods *)

Definition M (A : Type) := cacheImpl → outcome (A * cacheImpl).

Definition ret {A} (a : A) : M A := λ c, Ok (a, c).
Definition bind {A B} (m : M A) (k : A → M B) : M B :=
  λ c, match m c with
       | Ok (a, c') => k a c'
       | Panic p => Panic p
       | OutOfFuel => OutOfFuel
       end.
Definition throw {A} (p : panic) : M A := λ _, Panic p.

Notation "x <- m ;; k" := (bind m (λ x, k))
  (at level 100, m at next level, right associativity).
Notation "m ;;; k" := (bind m (λ _, k))
  (at level 100, right associativity).

(** [p.field] for a [*nodeList] p. *)
Definition rdL {A} (field : nodeList → A) (p : option ptr) : M A :=
  λ c, match p with
       | None => Panic NilDereference
       | Some a => match lists c !! a with
                   | Some n => Ok (field n, c)
                   | None => Panic NilDereference
                   end
       end.

(** [p.field = x] for a [*nodeList] p. *)
Definition wrL (p : option ptr) (upd : nodeList → nodeList) : M unit :=
  λ c, match p with
       | None => Panic NilDereference
       | Some a => match lists c !! a with
                   | Some n => Ok (tt, set_lists (λ l, <[a := upd n]> l) c)
                   | None => Panic NilDereference
                   end
       end.

Definition rdV {A} (field : nodeValue → A) (p : option ptr) : M A :=
  λ c, match p with
       | None => Panic NilDereference
       | Some a => match values c !! a with
                   | Some n => Ok (field n, c)
                   | None => Panic NilDereference
                   end
       end.

Definition wrV (p : option ptr) (upd : nodeValue → nodeValue) : M unit :=
  λ c, match p with
       | None => Panic NilDereference
       | Some a => match values c !! a with
                   | Some n => Ok (tt, set_values (λ l, <[a := upd n]> l) c)
                   | None => Panic NilDereference
                   end
       end.

(** [&nodeList{...}] and [&nodeValue{...}]: a fresh object at the end of
    its arena. *)
Definition allocL (n : nodeList) : M (option ptr) :=
  λ c, Ok (Some (length (lists c)), set_lists (λ l, l ++ [n]) c).
Definition allocV (n : nodeValue) : M (option ptr) :=
  λ c, Ok (Some (length (values c)), set_values (λ l, l ++ [n]) c).

Definition is_nil (p : option ptr) : bool :=
  match p with None => true | Some _ => false end.

Definition ptr_eqb (p q : option ptr) : bool := bool_decide (p = q).

Definition when (b : bool) (m : M unit) : M unit := if b then m else ret tt.

(** ** The methods, statement by statement *)

Definition newNodeList (frequency : Z) (first last prev next : option ptr)
  : M (option ptr) :=
  allocL (mkNodeList frequency prev next first last).

Definition sentinel : M (option ptr) := λ c, Ok (Some (frequencies c), c).

(** [addListFrontOrAfter]: a new frequency list holding [first] alone,
    linked after [before[0]], or after the sentinel when [before] is
    empty. *)
Definition addListFrontOrAfter (frequency : Z) (first : option ptr)
    (before : list (option ptr)) : M unit :=
  s <- sentinel ;;
  let bfr := match before with [] => s | b :: _ => b end in
  bnext <- rdL nl_next bfr ;;
  node <- newNodeList frequency first first bfr bnext ;;
  wrL bfr (with_next node) ;;;
  nnext <- rdL nl_next node ;;
  (if negb (is_nil nnext)
   then wrL nnext (with_prev node)
   else wrL s (with_prev node)) ;;;
  wrV first (with_vfrequency node) ;;;
  wrV first (with_vprev None).

(** [addFrontByFreq]: link [newFirst] in front of the list [l]. *)
Definition addFrontByFreq (l : option ptr) (newFirst : option ptr) : M unit :=
  wrV newFirst (with_vprev None) ;;;
  lfirst <- rdL nl_first l ;;
  wrV newFirst (with_vnext lfirst) ;;;
  lfirst <- rdL nl_first l ;;
  wrV lfirst (with_vprev newFirst) ;;;
  wrL l (with_first newFirst) ;;;
  wrV newFirst (with_vfrequency l).

(** [New]: [capacity] is Go's variadic argument. *)
Definition New (capacity : list Z) : outcome cacheImpl :=
  let resultCapacity := DefaultCapacity in
  match capacity with
  | [] =>
      Ok (mkCache resultCapacity 0%nat ∅ [mkNodeList 0 None None None None] [])
  | c0 :: _ =>
      if c0 <? 0 then Panic (PanicString "Capacity must be positive.")
      else Ok (mkCache c0 0%nat ∅ [mkNodeList 0 None None None None] [])
  end.

(** [untie]: unlink [value] from the list it is in. *)
Definition untie (value : option ptr) : M unit :=
  vprev <- rdV nv_prev value ;;
  when (negb (is_nil vprev))
    (vnext <- rdV nv_next value ;; wrV vprev (with_vnext vnext)) ;;;
  vnext <- rdV nv_next value ;;
  when (negb (is_nil vnext))
    (vprev <- rdV nv_prev value ;; wrV vnext (with_vprev vprev)) ;;;
  vfreq <- rdV nv_frequency value ;;
  ffirst <- rdL nl_first vfreq ;;
  when (ptr_eqb ffirst value)
    (vnext <- rdV nv_next value ;; wrL vfreq (with_first vnext)) ;;;
  vfreq <- rdV nv_frequency value ;;
  flast <- rdL nl_last vfreq ;;
  when (ptr_eqb flast value)
    (vprev <- rdV nv_prev value ;; wrL vfreq (with_last vprev)) ;;;
  wrV value (with_vprev None) ;;;
  wrV value (with_vnext None).

Definition Get (key : K) : M (V * option error) :=
  λ c,
  match mp c !! key with
  | None => Ok ((zeroVal, Some ErrKeyNotFound), c)
  | Some v =>
      let value := Some v in
      (untie value ;;;
       currentNode <- rdV nv_frequency value ;;
       next <- rdL nl_next currentNode ;;
       cfreq <- rdL nl_frequency currentNode ;;
       fresh <- (if is_nil next then ret true
                 else nfreq <- rdL nl_frequency next ;;
                      ret (negb (int_add cfreq 1 =? nfreq))) ;;
       (if fresh : bool
        then addListFrontOrAfter (int_add cfreq 1) value [currentNode]
        else cnext <- rdL nl_next currentNode ;;
             addFrontByFreq cnext value) ;;;
       cfirst <- rdL nl_first currentNode ;;
       when (is_nil cfirst)
         (prevNode <- rdL nl_prev currentNode ;;
          cnext <- rdL nl_next currentNode ;;
          wrL prevNode (with_next cnext) ;;;
          cnext <- rdL nl_next currentNode ;;
          when (negb (is_nil cnext)) (wrL cnext (with_prev prevNode))) ;;;
       result <- rdV nv_value value ;;
       ret (result, None)) c
  end.

Definition Size (c : cacheImpl) : Z := Z.of_nat (size (mp c)).

Definition Capacity (c : cacheImpl) : Z := capacity c.

Definition GetKeyFrequency (key : K) (c : cacheImpl) : outcome (Z * option error) :=
  match mp c !! key with
  | None => Ok (0, Some ErrKeyNotFound)
  | Some val =>
      match (vfreq <- rdV nv_frequency (Some val) ;; rdL nl_frequency vfreq) c with
      | Ok (f, _) => Ok (f, None)
      | Panic p => Panic p
      | OutOfFuel => OutOfFuel
      end
  end.

(** [delLast]: drop the last node of the first frequency list. *)
Definition delLast : M unit :=
  s <- sentinel ;;
  lastFreqNode <- rdL nl_next s ;;
  if is_nil lastFreqNode then ret tt
  else
    llast <- rdL nl_last lastFreqNode ;;
    lkey <- rdV nv_key llast ;;
    (λ c, Ok (tt, set_mp (delete lkey) c)) ;;;
    lfirst <- rdL nl_first lastFreqNode ;;
    single <- (if is_nil lfirst then ret true
               else fnext <- rdV nv_next lfirst ;; ret (is_nil fnext)) ;;
    if single : bool
    then
      lnext <- rdL nl_next lastFreqNode ;;
      when (negb (is_nil lnext)) (wrL lnext (with_prev s)) ;;;
      snext <- rdL nl_next s ;;
      snn <- rdL nl_next snext ;;
      wrL s (with_next snn)
    else
      llast <- rdL nl_last lastFreqNode ;;
      lprev <- rdV nv_prev llast ;;
      wrV lprev (with_vnext None) ;;;
      snext <- rdL nl_next s ;;
      llast <- rdL nl_last lastFreqNode ;;
      lprev <- rdV nv_prev llast ;;
      wrL snext (with_last lprev).

Definition Put (key : K) (value : V) : M unit :=
  λ c,
  match mp c !! key with
  | Some node =>
      (wrV (Some node) (with_vvalue value) ;;;
       r <- Get key ;;
       match snd r with
       | Some err => throw (PanicError err)
       | None => ret tt
       end) c
  | None =>
      (when (capacity c <=? Size c) delLast ;;;
       s <- sentinel ;;
       snext <- rdL nl_next s ;;
       node <- allocV (mkNodeValue key value None None snext) ;;
       firstFreqNode <- rdL nl_next s ;;
       fresh <- (if is_nil firstFreqNode then ret true
                 else ffreq <- rdL nl_frequency firstFreqNode ;;
                      ret (negb (ffreq =? 1))) ;;
       (if fresh : bool
        then addListFrontOrAfter 1 node []
        else addFrontByFreq firstFreqNode node) ;;;
       (λ c', match node with
              | Some n => Ok (tt, set_mp (<[key := n]>) c')
              | None => Panic NilDereference
              end)) c
  end.

(** ** [All]

    The iterator calls [yield] on each pair and stops as soon as [yield]
    answers false.  The consumer is a state-passing function; the two
    loops follow [next] and [prev] pointers and take a step budget. *)
Section Iterator.
Context {S : Type}.
Variable yield : S → K → V → S * bool.

Fixpoint all_values (fuel : nat) (c : cacheImpl) (valNode : option ptr) (s : S)
  : outcome (S * bool) :=
  match valNode with
  | None => Ok (s, true)
  | Some a =>
      match fuel with
      | O => OutOfFuel
      | Datatypes.S fuel' =>
          match values c !! a with
          | None => Panic NilDereference
          | Some n =>
              let '(s', continue) := yield s (nv_key n) (nv_value n) in
              if continue : bool then all_values fuel' c (nv_next n) s'
              else Ok (s', false)
          end
      end
  end.

Fixpoint all_lists (fuel : nat) (c : cacheImpl) (freqNode : option ptr) (s : S)
  : outcome S :=
  match freqNode with
  | None => Ok s
  | Some a =>
      if bool_decide (a = frequencies c) then Ok s
      else
        match fuel with
        | O => OutOfFuel
        | Datatypes.S fuel' =>
            match lists c !! a with
            | None => Panic NilDereference
            | Some n =>
                match all_values fuel c (nl_first n) s with
                | Ok (s', true) => all_lists fuel' c (nl_prev n) s'
                | Ok (s', false) => Ok s'
                | Panic p => Panic p
                | OutOfFuel => OutOfFuel
                end
            end
        end
  end.

Definition All (fuel : nat) (c : cacheImpl) (s : S) : outcome S :=
  match lists c !! frequencies c with
  | None => Panic NilDereference
  | Some sn => all_lists fuel c (nl_prev sn) s
  end.

End Iterator.

(** The consumer of [for k, v := range cache.All()] that keeps every pair. *)
Definition collect_yield (acc : list (K * V)) (k : K) (v : V) : list (K * V) * bool :=
  (acc ++ [(k, v)], true).

(** ** Runs of the public interface *)

Inductive op :=
| OpGet (key : K)
| OpPut (key : K) (value : V)
| OpAll (yield : K → V → bool)
| OpSize
| OpCapacity
| OpGetKeyFrequency (key : K).

(** One call; what it returns is dropped, the cache it leaves is kept.
    [All] is driven with a budget that covers every allocated object. *)
Definition step (o : op) (c : cacheImpl) : outcome cacheImpl :=
  match o with
  | OpGet key =>
      match Get key c with
      | Ok (_, c') => Ok c' | Panic p => Panic p | OutOfFuel => OutOfFuel
      end
  | OpPut key value =>
      match Put key value c with
      | Ok (_, c') => Ok c' | Panic p => Panic p | OutOfFuel => OutOfFuel
      end
  | OpAll yield =>
      match All (λ (_ : unit) k v, (tt, yield k v))
                (length (lists c) + length (values c)) c tt with
      | Ok _ => Ok c | Panic p => Panic p | OutOfFuel => OutOfFuel
      end
  | OpSize => let _ := Size c in Ok c
  | OpCapacity => let _ := Capacity c in Ok c
  | OpGetKeyFrequency key =>
      match GetKeyFrequency key c with
      | Ok _ => Ok c | Panic p => Panic p | OutOfFuel => OutOfFuel
      end
  end.

Fixpoint run (ops : list op) (c : cacheImpl) : outcome cacheImpl :=
  match ops with
  | [] => Ok c
  | o :: ops' =>
      match step o c with
      | Ok c' => run ops' c'
      | Panic p => Panic p
      | OutOfFuel => OutOfFuel
      end
  end.

(** The cache after [New(capacity...)] followed by the calls [ops]. *)
Definition session (capacity : list Z) (ops : list op) : outcome cacheImpl :=
  match New capacity with
  | Ok c => run ops c
  | Panic p => Panic p
  | OutOfFuel => OutOfFuel
  end.

(** A call touches a key when it is a [Get] or a [Put] of that key. *)
Definition touches (o : op) (k : K) : bool :=
  match o with
  | OpGet key => bool_decide (key = k)
  | OpPut key _ => bool_decide (key = k)
  | _ => false
  end.

(** The time of the last call of [ops] that touches [k], counting the
    calls from [n + 1]; [0] when no call does. *)
Fixpoint last_touch_from (n : nat) (ops : list op) (k : K) : nat :=
  match ops with
  | [] => 0
  | o :: ops' =>
      match last_touch_from (Datatypes.S n) ops' k with
      | O => if touches o k then Datatypes.S n else O
      | t => t
      end
  end.

Definition last_touch (ops : list op) (k : K) : nat := last_touch_from 0 ops k.

(** What a consumer ends with after being offered [xs] in order, and
    whether it still wants more. *)
Fixpoint feed {S : Type} (yield : S → K → V → S * bool) (xs : list (K * V)) (s : S)
  : S * bool :=
  match xs with
  | [] => (s, true)
  | (k, v) :: xs' =>
      let '(s', continue) := yield s k v in
      if continue : bool then feed yield xs' s' else (s', false)
  end.

(** ** The chain of frequency lists, read off the heap

    A bucket is a [nodeList] with the [nodeValue]s linked below it, each
    with the address it lives at. *)

Record ent := mkEnt { e_ptr : ptr; e_key : K; e_val : V }.
Record bkt := mkBkt { b_ptr : ptr; b_freq : Z; b_ents : list ent }.

Definition eptrs (es : list ent) : list ptr := e_ptr <$> es.
Definition bptrs (bs : list bkt) : list ptr := b_ptr <$> bs.
Definition all_ents (bs : list bkt) : list ent := bs ≫= b_ents.

Definition first_or (ps : list ptr) (d : option ptr) : option ptr :=
  match ps with [] => d | p :: _ => Some p end.
Definition last_or (ps : list ptr) (d : option ptr) : option ptr :=
  match last ps with Some p => Some p | None => d end.

(** The entries [es] are linked in this order by [next] and [prev] in
    [hv], between [prev] and [nxt], all pointing back to [owner]. *)
Fixpoint vseg (hv : list nodeValue) (owner : ptr) (prev : option ptr)
    (es : list ent) (nxt : option ptr) : Prop :=
  match es with
  | [] => True
  | e :: es' =>
      hv !! e_ptr e =
        Some (mkNodeValue (e_key e) (e_val e) (first_or (eptrs es') nxt) prev (Some owner))
      ∧ vseg hv owner (Some (e_ptr e)) es' nxt
  end.

(** The buckets [bs] are linked in this order in [hl], between [prev] and
    [nxt], each with its entries linked below it. *)
Fixpoint bseg (hl : list nodeList) (hv : list nodeValue) (prev : option ptr)
    (bs : list bkt) (nxt : option ptr) : Prop :=
  match bs with
  | [] => True
  | b :: bs' =>
      hl !! b_ptr b =
        Some (mkNodeList (b_freq b) prev (first_or (bptrs bs') nxt)
                (first_or (eptrs (b_ents b)) None) (last_or (eptrs (b_ents b)) None))
      ∧ vseg hv (b_ptr b) None (b_ents b) None
      ∧ bseg hl hv (Some (b_ptr b)) bs' nxt
  end.

(** The sentinel heads the chain as a bucket without entries. *)
Definition sentinel_bkt (s : ptr) : bkt := mkBkt s 0 [].

(** [linked tl hl hv C]: the list objects [C] form a chain from its head,
    whose [prev] is [tl], to nil, and no object is linked twice.
    [chain tl s hl hv L]: the sentinel [s] followed by the buckets [L],
    with [sentinel.prev = tl]. *)
Definition linked (tl : option ptr) (hl : list nodeList) (hv : list nodeValue)
    (C : list bkt) : Prop :=
  bseg hl hv tl C None
  ∧ NoDup (bptrs C)
  ∧ NoDup (eptrs (all_ents C)).

Definition chain (tl : option ptr) (s : ptr) (hl : list nodeList)
    (hv : list nodeValue) (L : list bkt) : Prop :=
  linked tl hl hv (sentinel_bkt s :: L).

(** [rep L c]: the cache [c] holds exactly the buckets [L], lowest
    frequency first, and its index [mp] holds exactly their entries. *)
Definition rep (L : list bkt) (c : cacheImpl) : Prop :=
  chain (last_or (bptrs L) None) (frequencies c) (lists c) (values c) L
  ∧ Forall (λ b, b_ents b ≠ []) L
  ∧ NoDup (e_key <$> all_ents L)
  ∧ (∀ k q, mp c !! k = Some q ↔ ∃ e, e ∈ all_ents L ∧ e_key e = k ∧ e_ptr e = q).

(** The chain after the operations, as the code rearranges it. *)
Definition keep_nonempty (b : bkt) (es : list ent) : list bkt :=
  match es with [] => [] | _ => [mkBkt (b_ptr b) (b_freq b) es] end.

(** Where an entry leaving a bucket of frequency [f] lands: in the next
    bucket when that one has frequency [f + 1], else in a new bucket at
    [pn]. *)
Definition bump_target (pn : ptr) (f : Z) (e : ent) (bs2 : list bkt) : list bkt :=
  match bs2 with
  | b2 :: bs2' =>
      if int_add f 1 =? b_freq b2
      then mkBkt (b_ptr b2) (b_freq b2) (e :: b_ents b2) :: bs2'
      else mkBkt pn (int_add f 1) [e] :: bs2
  | [] => [mkBkt pn (int_add f 1) [e]]
  end.

Definition bumped (pn : ptr) (bs1 : list bkt) (b : bkt) (es1 : list ent) (e : ent)
    (es2 : list ent) (bs2 : list bkt) : list bkt :=
  bs1 ++ keep_nonempty b (es1 ++ es2) ++ bump_target pn (b_freq b) e bs2.

Definition evicted (L : list bkt) : list bkt :=
  match L with
  | [] => []
  | b :: bs => keep_nonempty b (removelast (b_ents b)) ++ bs
  end.

Definition victim (L : list bkt) : option ent :=
  match L with
  | [] => None
  | b :: _ => last (b_ents b)
  end.

Definition inserted (pn : ptr) (e : ent) (L : list bkt) : list bkt :=
  match L with
  | b :: bs =>
      if b_freq b =? 1 then mkBkt (b_ptr b) (b_freq b) (e :: b_ents b) :: bs
      else mkBkt pn 1 [e] :: L
  | [] => [mkBkt pn 1 [e]]
  end.

(** The pairs of the chain in the order [All] visits them. *)
Definition pairs_of (L : list bkt) : list (K * V) :=
  (λ e, (e_key e, e_val e)) <$> all_ents (reverse L).

End LFU.

Arguments nodeList : clear implicits.
Arguments nodeValue : clear implicits.
Arguments cacheImpl K {_ _} V.

Notation "x <- m ;; k" := (bind m (λ x, k))
  (at level 100, m at next level, right associativity).
Notation "m ;;; k" := (bind m (λ _, k))
  (at level 100, right associativity).

Arguments with_prev p !n /.
Arguments with_next p !n /.
Arguments with_first p !n /.
Arguments with_last p !n /.
Arguments with_vvalue {K V} x !n /.
Arguments with_vnext {K V} p !n /.
Arguments with_vprev {K V} p !n /.
Arguments with_vfrequency {K V} p !n /.

Arguments op K V : clear implicits.
Arguments ent K V : clear implicits.
Arguments bkt K V : clear implicits.

(** ** Notions of the proofs

    Disjointness of pointer lists, phases of [Get] and [Put], the
    orders a session keeps, and what a client observes. *)

Definition disj (l r : list ptr) : Prop := ∀ x, x ∈ l → x ∉ r.

Definition kept (P : Prop) : Prop := P.

Section Derived.
Context {K : Type} `{Countable K} {V : Type}.
Implicit Types (es : list (ent K V)) (bs L : list (bkt K V)).
Implicit Types (e : ent K V) (b : bkt K V).
Implicit Types (c : cacheImpl K V) (o : op K V) (ops : list (op K V)).
Implicit Types (k : K) (v : V) (f : Z).

(** The end of [Get]: an emptied list is taken out of the chain. *)
Definition unlink_if_empty (currentNode : option ptr) : M (K:=K) (V:=V) unit :=
  cfirst <- rdL nl_first currentNode ;;
  when (is_nil cfirst)
    (prevNode <- rdL nl_prev currentNode ;;
     cnext <- rdL nl_next currentNode ;;
     wrL prevNode (with_next cnext) ;;;
     cnext <- rdL nl_next currentNode ;;
     when (negb (is_nil cnext)) (wrL cnext (with_prev prevNode))).

(** The middle of [Get]: the entry moves one frequency up. *)
Definition bump_entry (value currentNode : option ptr) : M (K:=K) (V:=V) unit :=
  next <- rdL nl_next currentNode ;;
  cfreq <- rdL nl_frequency currentNode ;;
  fresh <- (if is_nil next then ret true
            else nfreq <- rdL nl_frequency next ;;
                 ret (negb (int_add cfreq 1 =? nfreq))) ;;
  if fresh : bool
  then addListFrontOrAfter (int_add cfreq 1) value [currentNode]
  else cnext <- rdL nl_next currentNode ;;
       addFrontByFreq cnext value.

(** The end of [Put] for a new key: the node is made and linked in. *)
Definition insert_new (key : K) (value : V) : M (K:=K) (V:=V) unit :=
  s <- sentinel ;;
  snext <- rdL nl_next s ;;
  node <- allocV (mkNodeValue key value None None snext) ;;
  firstFreqNode <- rdL nl_next s ;;
  fresh <- (if is_nil firstFreqNode then ret true
            else ffreq <- rdL nl_frequency firstFreqNode ;;
                 ret (negb (ffreq =? 1))) ;;
  (if fresh : bool
   then addListFrontOrAfter 1 node []
   else addFrontByFreq firstFreqNode node) ;;;
  (λ c', match node with
         | Some n => Ok (tt, set_mp (<[key := n]>) c')
         | None => Panic NilDereference
         end).

(** The state between the eviction and the insertion of [Put]: when the
    chain is empty, [sentinel.prev] may still point to the list that has
    just left it. *)
Definition rep_loose (L : list (bkt K V)) (c : cacheImpl K V) : Prop :=
  ∃ tl,
    chain tl (frequencies c) (lists c) (values c) L
    ∧ (L ≠ [] → tl = last_or (bptrs L) None)
    ∧ Forall (λ b, b_ents b ≠ []) L
    ∧ NoDup (e_key <$> all_ents L)
    ∧ (∀ k q, mp c !! k = Some q ↔ ∃ e, e ∈ all_ents L ∧ e_key e = k ∧ e_ptr e = q).

Definition pairs (es : list (ent K V)) : list (K * V) :=
  (λ e, (e_key e, e_val e)) <$> es.

(** [newer ops e1 e2]: [e1]'s key was touched after [e2]'s. *)
Definition newer ops e1 e2 : Prop :=
  (last_touch ops (e_key e2) < last_touch ops (e_key e1))%nat.

(** In every bucket the entries are in the order of their last touch,
    the most recent first. *)
Definition recency ops L : Prop :=
  Forall (λ b, StronglySorted (newer ops) (b_ents b)) L.

(** The buckets are in strictly ascending order of frequency, between 1
    and [n]. *)
Definition freq_inv (n : Z) L : Prop :=
  StronglySorted Z.lt (b_freq <$> L) ∧ Forall (λ b, 1 ≤ b_freq b ≤ n) L.

(** What holds of the cache after the calls [ops]: the heap is the chain
    [L], the capacity is not negative, the chain holds at most
    [max capacity 1] entries, each bucket is in the order of the last
    touches, and, as long as the counters cannot have wrapped, the buckets
    ascend in frequency. *)
Definition inv ops L c : Prop :=
  rep L c
  ∧ 0 ≤ capacity c
  ∧ Z.of_nat (length (all_ents L)) ≤ Z.max (capacity c) 1
  ∧ recency ops L
  ∧ (Z.of_nat (length ops) ≤ max_int → freq_inv (Z.of_nat (length ops)) L).

(** The value held for [k]: [l.mp[k].value]. *)
Definition stored k c : option V :=
  match mp c !! k with
  | Some node => nv_value <$> values c !! node
  | None => None
  end.

(** The key [delLast] deletes: [l.frequencies.sentinel.next.last.key]. *)
Definition delLast_key c : option K :=
  s ← lists c !! frequencies c;
  lastFreqNode ← nl_next s;
  n ← lists c !! lastFreqNode;
  llast ← nl_last n;
  nv_key <$> values c !! llast.

(** Key, value and frequency of the entries of a bucket, and of a chain
    in the order [All] visits it. *)
Definition tag b es : list (K * V * Z) := (λ e, (e_key e, e_val e, b_freq b)) <$> es.

Definition view L : list (K * V * Z) := reverse L ≫= (λ b, tag b (b_ents b)).

(** [before ops x y]: [x] has the higher frequency, or the same and the
    later last touch. *)
Definition before ops (x y : K * V * Z) : Prop :=
  y.2 < x.2 ∨ (x.2 = y.2 ∧ (last_touch ops y.1.1 < last_touch ops x.1.1)%nat).

(** The consumer that records what it is offered and goes on as long as
    [cont] says so, and what it records of a sequence [ps]. *)
Definition log_yield (cont : K → V → bool) (acc : list (K * V)) k v
  : list (K * V) * bool := (acc ++ [(k, v)], cont k v).

Fixpoint offered (cont : K → V → bool) (ps : list (K * V)) : list (K * V) :=
  match ps with
  | [] => []
  | (k, v) :: ps' => (k, v) :: if cont k v then offered cont ps' else []
  end.

End Derived.

(** The calls of [TestIterator]: capacity 4, then [Put(i, 10 i)] for
    [i = 1 .. 5]. *)
Definition scenarioE : list (op Z Z) :=
  [OpPut 1 10; OpPut 2 20; OpPut 3 30; OpPut 4 40; OpPut 5 50].

(** The consumer of [TestIterator]: it stops at the pair [(2, 20)] without
    keeping it, and keeps every pair before. *)
Definition TestIterator_yield (acc : list (Z * Z)) (k v : Z) : list (Z * Z) * bool :=
  if (k =? 2) && (v =? 20) then (acc, false) else (acc ++ [(k, v)], true).

(** ** The earlier revision of [Put]

    An earlier revision of this file keeps the number of entries in a
    field [size] of [cacheImpl]: [Size] returns the field, [New] leaves it
    0, and [Put] of an absent key counts first and evicts when the count
    exceeds the capacity.  All other functions are the ones above, so the
    cache of that revision is the cache above together with the field. *)
Module part_000.
Section Revision.
Context {K : Type} `{Countable K} {V : Type}.
Variable zeroVal : V.

(** The functions the two revisions share. *)
Local Abbreviation later_cacheImpl := (cacheImpl K V).
Local Abbreviation later_New := (New (K:=K) (V:=V)).

Record cacheImpl := mkCache0 { cache : later_cacheImpl; size : Z }.

Definition New (capacity : list Z) : outcome cacheImpl :=
  match later_New capacity with
  | Ok c => Ok (mkCache0 c 0)
  | Panic p => Panic p
  | OutOfFuel => OutOfFuel
  end.

Definition Size (l : cacheImpl) : Z := size l.

Definition Capacity (l : cacheImpl) : Z := capacity (cache l).

(** [l.size++; if l.Size() > l.capacity { l.delLast(); l.size-- }] *)
Definition count_and_evict (l : cacheImpl) : outcome cacheImpl :=
  let l1 := mkCache0 (cache l) (int_add (size l) 1) in
  if capacity (cache l1) <? Size l1 then
    match delLast (cache l1) with
    | Ok (_, c') => Ok (mkCache0 c' (int_add (size l1) (-1)))
    | Panic p => Panic p
    | OutOfFuel => OutOfFuel
    end
  else Ok l1.

Definition Put (key : K) (value : V) (l : cacheImpl) : outcome (unit * cacheImpl) :=
  match mp (cache l) !! key with
  | Some node =>
      match (wrV (Some node) (with_vvalue value) ;;;
             r <- Get zeroVal key ;;
             match snd r with
             | Some err => throw (PanicError err)
             | None => ret tt
             end) (cache l) with
      | Ok (_, c') => Ok (tt, mkCache0 c' (size l))
      | Panic p => Panic p
      | OutOfFuel => OutOfFuel
      end
  | None =>
      match count_and_evict l with
      | Ok l2 =>
          match insert_new key value (cache l2) with
          | Ok (_, c') => Ok (tt, mkCache0 c' (size l2))
          | Panic p => Panic p
          | OutOfFuel => OutOfFuel
          end
      | Panic p => Panic p
      | OutOfFuel => OutOfFuel
      end
  end.

End Revision.
End part_000.

(** * The list package [internal/linkedlist]

    A circular doubly linked list around a sentinel.  Nodes live in an
    arena as above; a [List] is its pointer to the sentinel. *)
Module linkedlist.
Section LinkedList.
Context {K V : Type}.
Variables (zeroKey : K) (zeroValue : V).

Record Node := mkNode {
  Key : K;
  Value : V;
  next : option ptr;
  prev : option ptr;
}.

Record List := mkList { sentinel : option ptr }.

(** [&Node[K, V]{}] *)
Definition zeroNode : Node := mkNode zeroKey zeroValue None None.

Definition set_next (p : option ptr) (n : Node) : Node :=
  mkNode (Key n) (Value n) p (prev n).
Definition set_prev (p : option ptr) (n : Node) : Node :=
  mkNode (Key n) (Value n) (next n) p.

(** Statements run on the arena of nodes and may panic. *)
Definition LM (A : Type) : Type := list Node → outcome (A * list Node).

#[export] Instance LM_ret : MRet LM := λ A a h, Ok (a, h).
#[export] Instance LM_bind : MBind LM := λ A B k m h,
  match m h with
  | Ok (a, h') => k a h'
  | Panic p => Panic p
  | OutOfFuel => OutOfFuel
  end.

Definition rd {A} (field : Node → A) (p : option ptr) : LM A :=
  λ h, match p with
       | None => Panic NilDereference
       | Some a => match h !! a with
                   | Some n => Ok (field n, h)
                   | None => Panic NilDereference
                   end
       end.

Definition wr (p : option ptr) (upd : Node → Node) : LM unit :=
  λ h, match p with
       | None => Panic NilDereference
       | Some a => match h !! a with
                   | Some n => Ok (tt, <[a := upd n]> h)
                   | None => Panic NilDereference
                   end
       end.

Definition alloc (n : Node) : LM (option ptr) :=
  λ h, Ok (Some (length h), h ++ [n]).

Definition NewNode (key : K) (value : V) : LM (option ptr) :=
  next ← alloc zeroNode;
  prev ← alloc zeroNode;
  alloc (mkNode key value next prev).

Definition NewList : LM List :=
  sentinel ← alloc zeroNode;
  wr sentinel (set_next sentinel);;
  wr sentinel (set_prev sentinel);;
  mret (mkList sentinel).

Definition AddFrontOrAfter (l : List) (newNode : option ptr)
    (before : list (option ptr)) : LM unit :=
  let bfr := match before with [] => sentinel l | b :: _ => b end in
  wr newNode (set_prev bfr);;
  bnext ← rd next bfr;
  wr newNode (set_next bnext);;
  wr bfr (set_next newNode);;
  nnext ← rd next newNode;
  if negb (is_nil nnext) then wr nnext (set_prev newNode)
  else wr (sentinel l) (set_prev newNode).

Definition Last (l : List) : LM (option ptr) := rd prev (sentinel l).

Definition First (l : List) : LM (option ptr) := rd next (sentinel l).

Definition IsEmpty (l : List) : LM bool :=
  if is_nil (sentinel l) then mret true
  else snext ← rd next (sentinel l); mret (ptr_eqb snext (sentinel l)).

Definition Untie (n : option ptr) : LM unit :=
  nnext ← rd next n;
  nprev ← rd prev n;
  wr nnext (set_prev nprev);;
  nprev ← rd prev n;
  nnext ← rd next n;
  wr nprev (set_next nnext);;
  wr n (set_prev None);;
  wr n (set_next None).

Definition Next (n : option ptr) : LM (option ptr) := rd next n.

Definition Prev (n : option ptr) : LM (option ptr) := rd prev n.

(** The nodes [ps] are linked in this order, between [prv] and [nxt]. *)
Fixpoint dseg (h : list Node) (prv : ptr) (ps : list ptr) (nxt : ptr) : Prop :=
  match ps with
  | [] => True
  | p :: ps' =>
      (∃ k v, h !! p = Some (mkNode k v (Some (default nxt (head ps'))) (Some prv)))
      ∧ dseg h p ps' nxt
  end.

(** [ring h s xs]: the sentinel [s] and the nodes [xs] form a cycle in
    this order, and no node occurs twice. *)
Definition ring (h : list Node) (s : ptr) (xs : list ptr) : Prop :=
  dseg h (default s (last xs)) (s :: xs) s ∧ NoDup (s :: xs).

End LinkedList.

Arguments Node : clear implicits.
Arguments LM : clear implicits.
Arguments set_next {K V} p !n /.
Arguments set_prev {K V} p !n /.

End linkedlist.

(** ** Small heaps of the list package, on integer keys and values *)

(** A sentinel alone, linked to itself, and a node that is in no list. *)
Definition lone_sentinel : list (linkedlist.Node Z Z) :=
  [linkedlist.mkNode 0 0 (Some 0%nat) (Some 0%nat);
   linkedlist.mkNode 7 70 None None].

(** A sentinel with one node, and a node that is in no list. *)
Definition one_node : list (linkedlist.Node Z Z) :=
  [linkedlist.mkNode 0 0 (Some 1%nat) (Some 1%nat);
   linkedlist.mkNode 7 70 (Some 0%nat) (Some 0%nat);
   linkedlist.mkNode 8 80 None None].

(** * Proofs *)

(** ** Arithmetic of [int] *)

Lemma wrap_small z : min_int ≤ z ≤ max_int → wrap z = z.
Proof.
  unfold wrap, min_int, max_int, int_bits. intros Hz.
  rewrite Z.mod_small; lia.
Qed.

Lemma int_add_small a b : min_int ≤ a + b ≤ max_int → int_add a b = a + b.
Proof. apply wrap_small. Qed.

(** ** Endpoints of pointer lists *)

Lemma first_or_app ps qs d : first_or (ps ++ qs) d = first_or ps (first_or qs d).
Proof. by destruct ps. Qed.

Lemma last_or_nil d : last_or [] d = d.
Proof. done. Qed.

Lemma last_or_snoc ps p d : last_or (ps ++ [p]) d = Some p.
Proof. unfold last_or. by rewrite last_snoc. Qed.

Lemma last_or_app ps qs d : last_or (ps ++ qs) d = last_or qs (last_or ps d).
Proof.
  destruct qs as [|q qs _] using rev_ind.
  - by rewrite app_nil_r.
  - by rewrite app_assoc, !last_or_snoc.
Qed.

Lemma last_or_cons p ps d : last_or (p :: ps) d = last_or ps (Some p).
Proof. apply (last_or_app [p] ps d). Qed.

Lemma last_or_is_Some ps d : ps ≠ [] → ∃ p, last_or ps d = Some p ∧ p ∈ ps.
Proof.
  destruct ps as [|p ps _] using rev_ind; [done|]. intros _.
  exists p. rewrite last_or_snoc. split; [done|]. set_solver.
Qed.

Section Shape.
Context {K : Type} `{Countable K} {V : Type}.
Implicit Types (hl : list nodeList) (hv : list (nodeValue K V)).
Implicit Types (es : list (ent K V)) (bs L : list (bkt K V)).
Implicit Types (e : ent K V) (b : bkt K V).
Implicit Types (c : cacheImpl K V).

Lemma eptrs_app es1 es2 : eptrs (es1 ++ es2) = eptrs es1 ++ eptrs es2.
Proof. apply fmap_app. Qed.

Lemma bptrs_app bs1 bs2 : bptrs (bs1 ++ bs2) = bptrs bs1 ++ bptrs bs2.
Proof. apply fmap_app. Qed.

Lemma all_ents_app bs1 bs2 : all_ents (bs1 ++ bs2) = all_ents bs1 ++ all_ents bs2.
Proof. apply bind_app. Qed.

Lemma all_ents_cons b bs : all_ents (b :: bs) = b_ents b ++ all_ents bs.
Proof. done. Qed.

Lemma elem_of_all_ents e bs : e ∈ all_ents bs ↔ ∃ b, b ∈ bs ∧ e ∈ b_ents b.
Proof.
  unfold all_ents. rewrite list_elem_of_bind. naive_solver.
Qed.

(** *** Segments of entries *)

Lemma vseg_app hv o prev es1 es2 nxt :
  vseg hv o prev (es1 ++ es2) nxt ↔
  vseg hv o prev es1 (first_or (eptrs es2) nxt)
  ∧ vseg hv o (last_or (eptrs es1) prev) es2 nxt.
Proof.
  revert prev. induction es1 as [|e es1 IH]; intros prev; simpl.
  - rewrite last_or_nil. tauto.
  - rewrite IH, eptrs_app, first_or_app, last_or_cons. tauto.
Qed.

Lemma vseg_ext hv hv' o prev es nxt :
  (∀ p, p ∈ eptrs es → hv' !! p = hv !! p) →
  vseg hv o prev es nxt → vseg hv' o prev es nxt.
Proof.
  revert prev. induction es as [|e es IH]; intros prev Hagree; simpl; [done|].
  intros [He Hes]. split.
  - rewrite Hagree; [done|]. unfold eptrs. set_solver.
  - apply IH; [|done]. intros p Hp. apply Hagree. unfold eptrs in *. set_solver.
Qed.

Lemma vseg_lookup hv o prev es nxt e :
  vseg hv o prev es nxt → e ∈ es →
  ∃ n p, hv !! e_ptr e = Some (mkNodeValue (e_key e) (e_val e) n p (Some o)).
Proof.
  revert prev. induction es as [|e' es IH]; intros prev; simpl.
  - intros _ He. by apply elem_of_nil in He.
  - intros [He' Hes] [->|He]%elem_of_cons; eauto.
Qed.

(** *** Segments of buckets *)

Lemma bseg_app hl hv prev bs1 bs2 nxt :
  bseg hl hv prev (bs1 ++ bs2) nxt ↔
  bseg hl hv prev bs1 (first_or (bptrs bs2) nxt)
  ∧ bseg hl hv (last_or (bptrs bs1) prev) bs2 nxt.
Proof.
  revert prev. induction bs1 as [|b bs1 IH]; intros prev; simpl.
  - rewrite last_or_nil. tauto.
  - rewrite IH, bptrs_app, first_or_app, last_or_cons. tauto.
Qed.

Lemma bseg_ext hl hv hl' hv' prev bs nxt :
  (∀ p, p ∈ bptrs bs → hl' !! p = hl !! p) →
  (∀ p, p ∈ eptrs (all_ents bs) → hv' !! p = hv !! p) →
  bseg hl hv prev bs nxt → bseg hl' hv' prev bs nxt.
Proof.
  revert prev. induction bs as [|b bs IH]; intros prev Hl Hv; simpl; [done|].
  intros (Hb & Hes & Hbs). split_and!.
  - rewrite Hl; [done|]. unfold bptrs. set_solver.
  - eapply vseg_ext; [|done]. intros p Hp. apply Hv.
    rewrite all_ents_cons, eptrs_app. set_solver.
  - apply IH; [| |done].
    + intros p Hp. apply Hl. unfold bptrs in *. set_solver.
    + intros p Hp. apply Hv. rewrite all_ents_cons, eptrs_app. set_solver.
Qed.

Lemma bseg_lookup hl hv prev bs nxt b :
  bseg hl hv prev bs nxt → b ∈ bs →
  ∃ p n, hl !! b_ptr b =
    Some (mkNodeList (b_freq b) p n (first_or (eptrs (b_ents b)) None)
            (last_or (eptrs (b_ents b)) None))
  ∧ vseg hv (b_ptr b) None (b_ents b) None.
Proof.
  revert prev. induction bs as [|b' bs IH]; intros prev; simpl.
  - intros _ Hb. by apply elem_of_nil in Hb.
  - intros (Hb' & Hes & Hbs) [->|Hb]%elem_of_cons; eauto.
Qed.

End Shape.

(** ** Running the statements on a known heap *)

Section Exec.
Context {K : Type} `{Countable K} {V : Type}.
Implicit Types (hl : list nodeList) (hv : list (nodeValue K V)).
Implicit Types (mm : gmap K ptr).

Lemma lookup_upd_eq {A} (l : list A) i x y :
  l !! i = Some y → <[i:=x]> l !! i = Some x.
Proof. intros Hy. apply list_lookup_insert_eq. by eapply lookup_lt_Some. Qed.

Lemma lookup_upd_ne {A} (l : list A) i j x r :
  i ≠ j → l !! j = r → <[i:=x]> l !! j = r.
Proof. intros. by rewrite list_lookup_insert_ne. Qed.

Lemma lookup_snoc_new {A} (l : list A) x : (l ++ [x]) !! length l = Some x.
Proof. by rewrite lookup_app_r, Nat.sub_diag. Qed.

Lemma lookup_snoc_old {A} (l : list A) x i r :
  l !! i = Some r → (l ++ [x]) !! i = Some r.
Proof. apply lookup_app_l_Some. Qed.

Lemma bind_ok {A B} (m : M A) (k : A → M B) (c c' : cacheImpl K V) a :
  m c = Ok (a, c') → bind m k c = k a c'.
Proof. unfold bind. by intros ->. Qed.

Lemma rdL_ok {A} (f : nodeList → A) a n cap s mm hl hv :
  hl !! a = Some n →
  rdL f (Some a) (mkCache cap s mm hl hv) = Ok (f n, mkCache cap s mm hl hv).
Proof. unfold rdL. simpl. by intros ->. Qed.

Lemma wrL_ok u a n cap s mm hl hv :
  hl !! a = Some n →
  wrL (Some a) u (mkCache cap s mm hl hv)
  = Ok (tt, mkCache cap s mm (<[a := u n]> hl) hv).
Proof. unfold wrL. simpl. by intros ->. Qed.

Lemma rdV_ok {A} (f : nodeValue K V → A) a n cap s mm hl hv :
  hv !! a = Some n →
  rdV f (Some a) (mkCache cap s mm hl hv) = Ok (f n, mkCache cap s mm hl hv).
Proof. unfold rdV. simpl. by intros ->. Qed.

Lemma wrV_ok u a n cap s mm hl hv :
  hv !! a = Some n →
  wrV (Some a) u (mkCache cap s mm hl hv)
  = Ok (tt, mkCache cap s mm hl (<[a := u n]> hv)).
Proof. unfold wrV. simpl. by intros ->. Qed.

Lemma rdL_bind {A B} (f : nodeList → A) (k : A → M B) a n cap s mm hl hv :
  hl !! a = Some n →
  bind (rdL f (Some a)) k (mkCache cap s mm hl hv) = k (f n) (mkCache cap s mm hl hv).
Proof. intros. by erewrite bind_ok by by apply rdL_ok. Qed.

Lemma wrL_bind {B} u (k : unit → M B) a n cap s mm hl hv :
  hl !! a = Some n →
  bind (wrL (Some a) u) k (mkCache cap s mm hl hv)
  = k tt (mkCache cap s mm (<[a := u n]> hl) hv).
Proof. intros. by erewrite bind_ok by by apply wrL_ok. Qed.

Lemma rdV_bind {A B} (f : nodeValue K V → A) (k : A → M B) a n cap s mm hl hv :
  hv !! a = Some n →
  bind (rdV f (Some a)) k (mkCache cap s mm hl hv) = k (f n) (mkCache cap s mm hl hv).
Proof. intros. by erewrite bind_ok by by apply rdV_ok. Qed.

Lemma wrV_bind {B} u (k : unit → M B) a n cap s mm hl hv :
  hv !! a = Some n →
  bind (wrV (Some a) u) k (mkCache cap s mm hl hv)
  = k tt (mkCache cap s mm hl (<[a := u n]> hv)).
Proof. intros. by erewrite bind_ok by by apply wrV_ok. Qed.

Lemma allocL_bind {B} n (k : option ptr → M B) cap s mm hl hv :
  bind (allocL n) k (mkCache cap s mm hl hv)
  = k (Some (length hl)) (mkCache cap s mm (hl ++ [n]) hv).
Proof. done. Qed.

Lemma allocV_bind {B} n (k : option ptr → M B) cap s mm hl hv :
  bind (allocV n) k (mkCache cap s mm hl hv)
  = k (Some (length hv)) (mkCache cap s mm hl (hv ++ [n])).
Proof. done. Qed.

Lemma sentinel_bind {B} (k : option ptr → M B) cap s mm hl hv :
  bind sentinel k (mkCache cap s mm hl hv) = k (Some s) (mkCache cap s mm hl hv).
Proof. done. Qed.

Lemma set_mp_bind {B} (f : gmap K ptr → gmap K ptr) (k : unit → M B) cap s mm hl hv :
  bind (λ c, Ok (tt, set_mp f c)) k (mkCache cap s mm hl hv)
  = k tt (mkCache cap s (f mm) hl hv).
Proof. done. Qed.

Lemma ret_bind {A B} (a : A) (k : A → M B) (c : cacheImpl K V) :
  bind (ret a) k c = k a c.
Proof. done. Qed.

Lemma bind_bind {A B C} (m : M A) (k1 : A → M B) (k2 : B → M C) (c : cacheImpl K V) :
  bind (bind m k1) k2 c = bind m (λ a, bind (k1 a) k2) c.
Proof. unfold bind. destruct (m c) as [[a c']| |]; done. Qed.

Lemma bind_ret_r {A} (m : M A) (c : cacheImpl K V) r :
  bind m (λ a, ret a) c = r → m c = r.
Proof. unfold bind, ret. by destruct (m c) as [[a c']| |]. Qed.

End Exec.

Lemma ptr_eqb_refl p : ptr_eqb p p = true.
Proof. unfold ptr_eqb. by rewrite bool_decide_eq_true_2. Qed.

Lemma ptr_eqb_ne a b : a ≠ b → ptr_eqb (Some a) (Some b) = false.
Proof. intros. unfold ptr_eqb. rewrite bool_decide_eq_false_2; congruence. Qed.

Lemma ptr_eqb_nil b : ptr_eqb None (Some b) = false.
Proof. done. Qed.

(** Lookups in a heap written as a stack of updates over known cells. *)
Ltac heap_ne :=
  first [ assumption | apply not_eq_sym; assumption | lia | congruence ].

Ltac heap_lookup :=
  lazymatch goal with
  | |- (<[?i := _]> _) !! ?j = _ =>
      first [ constr_eq i j; eapply lookup_upd_eq; heap_lookup
            | apply lookup_upd_ne; [heap_ne | heap_lookup] ]
  | |- (?l ++ [_]) !! ?j = _ =>
      first [ constr_eq j (length l); apply lookup_snoc_new
            | apply lookup_snoc_old; heap_lookup ]
  | |- _ => eassumption
  end.

Ltac exec_simpl :=
  cbv beta;
  cbn [with_prev with_next with_first with_last
       with_vvalue with_vnext with_vprev with_vfrequency
       nl_frequency nl_prev nl_next nl_first nl_last
       nv_key nv_value nv_next nv_prev nv_frequency
       is_nil negb when].

Ltac exec1 :=
  first
    [ progress exec_simpl
    | erewrite rdL_bind by heap_lookup
    | erewrite rdV_bind by heap_lookup
    | erewrite wrL_bind by heap_lookup
    | erewrite wrV_bind by heap_lookup
    | rewrite allocL_bind
    | rewrite allocV_bind
    | rewrite sentinel_bind
    | rewrite set_mp_bind
    | rewrite ret_bind
    | rewrite bind_bind
    | rewrite ptr_eqb_refl
    | rewrite ptr_eqb_ne by heap_ne
    | rewrite ptr_eqb_nil ].

Ltac exec := repeat exec1.

(** ** Separation of the linked objects *)

Lemma NoDup_app_disj (l r : list ptr) : NoDup (l ++ r) ↔ NoDup l ∧ disj l r ∧ NoDup r.
Proof. apply NoDup_app. Qed.

Lemma disj_nil_l r : disj [] r.
Proof. intros x Hx. by apply elem_of_nil in Hx. Qed.

Lemma disj_nil_r l : disj l [].
Proof. intros x _. apply not_elem_of_nil. Qed.

Lemma disj_cons_l a l r : disj (a :: l) r ↔ ((a ∉ r) ∧ disj l r).
Proof. unfold disj. set_solver. Qed.

Lemma disj_app_l l1 l2 r : disj (l1 ++ l2) r ↔ disj l1 r ∧ disj l2 r.
Proof. unfold disj. set_solver. Qed.

Lemma disj_cons_r a l r : disj l (a :: r) ↔ ((a ∉ l) ∧ disj l r).
Proof. unfold disj. set_solver. Qed.

Lemma disj_app_r l r1 r2 : disj l (r1 ++ r2) ↔ disj l r1 ∧ disj l r2.
Proof. unfold disj. set_solver. Qed.

Lemma disj_sym l r : disj l r → disj r l.
Proof. unfold disj. set_solver. Qed.

Lemma app_snoc_cons {A} (xs : list A) b ys : xs ++ b :: ys = (xs ++ [b]) ++ ys.
Proof. by rewrite <- app_assoc. Qed.

Ltac save H :=
  let H' := fresh "Kept" in
  pose proof H as H';
  change (kept ltac:(let t := type of H in exact t)) in H'.

(** Break every [NoDup] hypothesis into facts about single pointers and
    whole lists. *)
Ltac split_nodup :=
  repeat match goal with
  | H : NoDup (_ :: _) |- _ => apply NoDup_cons in H as [? ?]
  | H : NoDup (_ ++ _) |- _ => apply NoDup_app_disj in H as (? & ? & ?)
  | H : NoDup [] |- _ => clear H
  | H : _ ∉ _ :: _ |- _ => apply not_elem_of_cons in H as [? ?]
  | H : _ ∉ _ ++ _ |- _ => apply not_elem_of_app in H as [? ?]
  | H : _ ∉ [] |- _ => clear H
  | H : disj (_ ++ _) _ |- _ => apply disj_app_l in H as [? ?]
  | H : disj (_ :: _) _ |- _ => apply disj_cons_l in H as [? ?]
  | H : disj [] _ |- _ => clear H
  | H : disj _ (_ ++ _) |- _ => apply disj_app_r in H as [? ?]
  | H : disj _ (_ :: _) |- _ => apply disj_cons_r in H as [? ?]
  | H : disj _ [] |- _ => clear H
  end.

Section Norm.
Context {K : Type} `{Countable K} {V : Type}.
Implicit Types (hl : list nodeList) (hv : list (nodeValue K V)).
Implicit Types (es : list (ent K V)) (bs L xs ys : list (bkt K V)).

Lemma bptrs_cons (b : bkt K V) bs : bptrs (b :: bs) = b_ptr b :: bptrs bs.
Proof. done. Qed.
Lemma bptrs_nil : bptrs (@nil (bkt K V)) = [].
Proof. done. Qed.
Lemma eptrs_cons (e : ent K V) es : eptrs (e :: es) = e_ptr e :: eptrs es.
Proof. done. Qed.
Lemma eptrs_nil : eptrs (@nil (ent K V)) = [].
Proof. done. Qed.
Lemma all_ents_nil : all_ents (@nil (bkt K V)) = [].
Proof. done. Qed.

Lemma vseg_bound hv o prev es nxt p :
  vseg hv o prev es nxt → p ∈ eptrs es → (p < length hv)%nat.
Proof.
  revert prev. induction es as [|e es IH]; intros prev; simpl.
  - intros _ Hp. by apply elem_of_nil in Hp.
  - intros [He Hes] [->|Hp]%elem_of_cons; [by eapply lookup_lt_Some|eauto].
Qed.

Lemma bseg_bound_l hl hv prev bs nxt p :
  bseg hl hv prev bs nxt → p ∈ bptrs bs → (p < length hl)%nat.
Proof.
  revert prev. induction bs as [|b bs IH]; intros prev; simpl.
  - intros _ Hp. by apply elem_of_nil in Hp.
  - intros (Hb & _ & Hbs) [->|Hp]%elem_of_cons; [by eapply lookup_lt_Some|eauto].
Qed.

Lemma bseg_bound_v hl hv prev bs nxt p :
  bseg hl hv prev bs nxt → p ∈ eptrs (all_ents bs) → (p < length hv)%nat.
Proof.
  revert prev. induction bs as [|b bs IH]; intros prev; cbn [bseg].
  - intros _ Hp. by apply elem_of_nil in Hp.
  - intros (_ & Hes & Hbs). rewrite all_ents_cons, eptrs_app.
    intros [Hp|Hp]%elem_of_app; [by eapply vseg_bound|eauto].
Qed.

Lemma keep_nonempty_snoc (b : bkt K V) es e :
  keep_nonempty b (es ++ [e]) = [mkBkt (b_ptr b) (b_freq b) (es ++ [e])].
Proof. by destruct es. Qed.

Lemma vseg_head_next hv o prev es pn d :
  es ≠ [] → vseg hv o prev es (Some pn) →
  ∃ pf k v q, first_or (eptrs es) d = Some pf ∧ pf ∈ eptrs es
    ∧ hv !! pf = Some (mkNodeValue k v (Some q) prev (Some o)).
Proof.
  destruct es as [|[pf k v] es]; [done|]. intros _ [He _]. cbn in He.
  exists pf, k, v. destruct es as [|e' es]; cbn in He; eexists;
    (split; [done|split; [apply list_elem_of_here|exact He]]).
Qed.

Lemma first_or_Some_elem ps p : ∃ z, first_or ps (Some p) = Some z ∧ (z = p ∨ z ∈ ps).
Proof.
  destruct ps as [|q ps].
  - exists p. by split; [|left].
  - exists q. split; [done|right; apply list_elem_of_here].
Qed.

Lemma last_or_Some_elem ps p : ∃ z, last_or ps (Some p) = Some z ∧ (z = p ∨ z ∈ ps).
Proof.
  destruct ps as [|q ps _] using rev_ind.
  - exists p. by split; [|left].
  - exists q. rewrite last_or_snoc. split; [done|right].
    apply elem_of_app. right. apply list_elem_of_here.
Qed.

End Norm.

Ltac norm_ptrs :=
  repeat first
    [ progress rewrite ?bptrs_app, ?eptrs_app, ?all_ents_app, ?all_ents_cons,
        ?bptrs_cons, ?eptrs_cons, ?bptrs_nil, ?eptrs_nil, ?all_ents_nil,
        ?last_or_nil, ?last_or_cons, ?last_or_snoc, ?app_nil_r,
        ?first_or_app, ?last_or_app in *
    | progress cbn [b_ptr b_freq b_ents e_ptr e_key e_val first_or app keep_nonempty] in * ].

Ltac norm_in H :=
  repeat first
    [ progress rewrite ?bptrs_app, ?eptrs_app, ?all_ents_app, ?all_ents_cons,
        ?bptrs_cons, ?eptrs_cons, ?bptrs_nil, ?eptrs_nil, ?all_ents_nil,
        ?last_or_nil, ?last_or_cons, ?last_or_snoc, ?app_nil_r,
        ?first_or_app, ?last_or_app in H
    | progress cbn [b_ptr b_freq b_ents e_ptr e_key e_val first_or app keep_nonempty] in H ].

Ltac open_segs := repeat (progress (cbn [bseg vseg]; norm_ptrs)).

(** A pointer cannot be in two separated places, nor beyond its arena. *)
Ltac mem_contra :=
  match goal with
  | H : ?q ∉ ?A, Hp : ?q ∈ ?A |- _ => exact (False_rect _ (H Hp))
  | H : disj ?A ?B, H1 : ?q ∈ ?A, H2 : ?q ∈ ?B |- _ => exact (False_rect _ (H q H1 H2))
  | Hs : bseg ?hl _ _ ?bs _, Hp : length ?hl ∈ bptrs ?bs |- _ =>
      pose proof (bseg_bound_l _ _ _ _ _ _ Hs Hp); lia
  | Hs : bseg _ ?hv _ ?bs _, Hp : length ?hv ∈ eptrs (all_ents ?bs) |- _ =>
      pose proof (bseg_bound_v _ _ _ _ _ _ Hs Hp); lia
  | Hs : vseg ?hv _ _ ?es _, Hp : length ?hv ∈ eptrs ?es |- _ =>
      pose proof (vseg_bound _ _ _ _ _ _ Hs Hp); lia
  end.

Ltac ptr_ne :=
  first
    [ assumption
    | apply not_eq_sym; assumption
    | lia
    | let E := fresh in intros E; subst; first [mem_contra | lia] ].

Ltac in_bound :=
  rewrite ?length_insert;
  match goal with
  | Hs : bseg ?hl _ _ ?bs _, Hp : ?p ∈ bptrs ?bs |- (?p < length ?hl)%nat =>
      exact (bseg_bound_l _ _ _ _ _ _ Hs Hp)
  | Hs : bseg _ ?hv _ ?bs _, Hp : ?p ∈ eptrs (all_ents ?bs) |- (?p < length ?hv)%nat =>
      exact (bseg_bound_v _ _ _ _ _ _ Hs Hp)
  | Hs : vseg ?hv _ _ ?es _, Hp : ?p ∈ eptrs ?es |- (?p < length ?hv)%nat =>
      exact (vseg_bound _ _ _ _ _ _ Hs Hp)
  end.

(** Cells untouched by a stack of updates and allocations. *)
Ltac solve_frame :=
  let p := fresh "p" in let Hp := fresh "Hp" in
  intros p Hp;
  repeat first
    [ rewrite list_lookup_insert_ne by ptr_ne
    | rewrite lookup_app_l by in_bound ];
  reflexivity.

Ltac solve_nodup1 :=
  lazymatch goal with
  | |- NoDup [] => apply NoDup_nil_2
  | |- NoDup (_ :: _) => apply NoDup_cons; split
  | |- NoDup (_ ++ _) => apply NoDup_app_disj; split_and!
  | |- NoDup _ => assumption
  | |- disj [] _ => apply disj_nil_l
  | |- disj _ [] => apply disj_nil_r
  | |- disj (_ :: _) _ => apply disj_cons_l; split
  | |- disj (_ ++ _) _ => apply disj_app_l; split
  | |- disj _ (_ :: _) => apply disj_cons_r; split
  | |- disj _ (_ ++ _) => apply disj_app_r; split
  | |- disj _ _ => first [assumption | apply disj_sym; assumption]
  | |- _ ∉ [] => apply not_elem_of_nil
  | |- _ ∉ _ :: _ => apply not_elem_of_cons; split
  | |- _ ∉ _ ++ _ => apply not_elem_of_app; split
  | |- _ ∉ _ => first [assumption | let Hp := fresh in intros Hp; mem_contra]
  | |- _ ≠ _ => ptr_ne
  end.

Ltac solve_nodup := norm_ptrs; repeat solve_nodup1.

Section Phases.
Context {K : Type} `{Countable K} {V : Type}.
Implicit Types (hl : list nodeList) (hv : list (nodeValue K V)).
Implicit Types (es : list (ent K V)) (bs L xs ys : list (bkt K V)).
Implicit Types (e : ent K V) (b x y : bkt K V).
Implicit Types (mm : gmap K ptr).

Lemma unlink_if_empty_empty cap s mm hl hv tl xs x pb fb y ys :
  linked tl hl hv (xs ++ x :: mkBkt pb fb [] :: y :: ys) →
  ∃ hl',
    unlink_if_empty (Some pb) (mkCache cap s mm hl hv) = Ok (tt, mkCache cap s mm hl' hv)
    ∧ linked tl hl' hv (xs ++ x :: y :: ys)
    ∧ length hl' = length hl.
Proof.
  destruct x as [px fx ex], y as [py fy ey].
  intros (Hseg & Hnd & Hnde).
  apply bseg_app in Hseg as (Hxs & Hx & Hvx & Hb & _ & Hy & Hvy & Hys).
  norm_ptrs. split_nodup.
  eexists. split; [|split].
  - apply bind_ret_r. unfold unlink_if_empty. exec. reflexivity.
  - split_and!; [|solve_nodup..].
    apply bseg_app. open_segs. split_and!; try done.
    + eapply bseg_ext; [| |exact Hxs]; solve_frame.
    + heap_lookup.
    + heap_lookup.
    + eapply bseg_ext; [| |exact Hys]; solve_frame.
  - by rewrite ?length_insert.
Qed.

Lemma linked_mid_lookup tl hl hv xs b ys :
  linked tl hl hv (xs ++ b :: ys) →
  hl !! b_ptr b =
    Some (mkNodeList (b_freq b) (last_or (bptrs xs) tl) (first_or (bptrs ys) None)
            (first_or (eptrs (b_ents b)) None) (last_or (eptrs (b_ents b)) None))
  ∧ vseg hv (b_ptr b) None (b_ents b) None.
Proof.
  intros (Hseg & _ & _). apply bseg_app in Hseg as (_ & Hb & Hvb & _). done.
Qed.

Lemma unlink_if_empty_nonempty cap s mm hl hv pb n p :
  hl !! pb = Some n → nl_first n = Some p →
  unlink_if_empty (Some pb) (mkCache cap s mm hl hv) = Ok (tt, mkCache cap s mm hl hv).
Proof.
  intros Hn Hp. apply bind_ret_r. unfold unlink_if_empty. exec.
  rewrite Hp. exec. reflexivity.
Qed.

End Phases.

Section Untie.
Context {K : Type} `{Countable K} {V : Type}.
Implicit Types (hl : list nodeList) (hv : list (nodeValue K V)).
Implicit Types (es : list (ent K V)) (bs L xs ys : list (bkt K V)).
Implicit Types (e : ent K V) (b x y : bkt K V).
Implicit Types (mm : gmap K ptr).

Lemma untie_spec cap s mm hl hv tl xs pb fb es1 e es2 ys :
  linked tl hl hv (xs ++ mkBkt pb fb (es1 ++ e :: es2) :: ys) →
  ∃ hl' hv',
    untie (Some (e_ptr e)) (mkCache cap s mm hl hv) = Ok (tt, mkCache cap s mm hl' hv')
    ∧ linked tl hl' hv' (xs ++ mkBkt pb fb (es1 ++ es2) :: ys)
    ∧ hv' !! e_ptr e = Some (mkNodeValue (e_key e) (e_val e) None None (Some pb))
    ∧ length hl' = length hl ∧ length hv' = length hv.
Proof.
  destruct e as [pe ke ve].
  intros (Hseg & Hnd & Hnde).
  apply bseg_app in Hseg as (Hxs & Hb & Hvb & Hys).
  apply vseg_app in Hvb as (Hes1 & He & Hes2).
  norm_ptrs. save Hnd. save Hnde. 
  destruct es1 as [|el es1 _] using rev_ind; destruct es2 as [|eh es2].
  - norm_ptrs. split_nodup. 
    do 2 eexists. split; [|split_and!].
    + apply bind_ret_r. unfold untie. exec. reflexivity.
    + split_and!; [|solve_nodup..].
      apply bseg_app. open_segs. split_and!; try exact I.
      * eapply bseg_ext; [| |exact Hxs]; solve_frame.
      * heap_lookup.
      * eapply bseg_ext; [| |exact Hys]; solve_frame.
    + heap_lookup.
    + by rewrite ?length_insert.
    + by rewrite ?length_insert.
  - norm_ptrs. split_nodup. destruct eh as [ph kh vh]. cbn [vseg] in Hes2. destruct Hes2 as [Hh Hes2].
    norm_ptrs.
    destruct (last_or_Some_elem (eptrs es2) ph) as (pz & Hz & Hzin).
    rewrite Hz in *. assert (pz ≠ pe) by (destruct Hzin as [->|Hzin]; ptr_ne).
    do 2 eexists. split; [|split_and!].
    + apply bind_ret_r. unfold untie. exec. reflexivity.
    + split_and!; [|solve_nodup..].
      apply bseg_app. open_segs. split_and!; try exact I.
      * eapply bseg_ext; [| |exact Hxs]; solve_frame.
      * rewrite Hz. heap_lookup.
      * heap_lookup.
      * eapply vseg_ext; [|exact Hes2]; solve_frame.
      * eapply bseg_ext; [| |exact Hys]; solve_frame.
    + heap_lookup.
    + by rewrite ?length_insert.
    + by rewrite ?length_insert.
  - destruct el as [pl kl vl]. apply vseg_app in Hes1 as (Hes1 & Hl & _).
    norm_ptrs. split_nodup.
    destruct (first_or_Some_elem (eptrs es1) pl) as (pf & Hf & Hfin).
    rewrite Hf in *. assert (pf ≠ pe) by (destruct Hfin as [->|Hfin]; ptr_ne).
    do 2 eexists. split; [|split_and!].
    + apply bind_ret_r. unfold untie. exec. reflexivity.
    + split_and!; [|solve_nodup..].
      apply bseg_app. open_segs. split_and!; try exact I.
      * eapply bseg_ext; [| |exact Hxs]; solve_frame.
      * rewrite Hf. heap_lookup.
      * rewrite !vseg_app. open_segs. split_and!; try exact I.
        -- eapply vseg_ext; [|exact Hes1]; solve_frame.
        -- heap_lookup.
      * eapply bseg_ext; [| |exact Hys]; solve_frame.
    + heap_lookup.
    + by rewrite ?length_insert.
    + by rewrite ?length_insert.
  - destruct el as [pl kl vl]. apply vseg_app in Hes1 as (Hes1 & Hl & _).
    destruct eh as [ph kh vh]. cbn [vseg] in Hes2. destruct Hes2 as [Hh Hes2].
    norm_ptrs. split_nodup.
    destruct (first_or_Some_elem (eptrs es1) pl) as (pf & Hf & Hfin).
    destruct (last_or_Some_elem (eptrs es2) ph) as (pz & Hz & Hzin).
    rewrite Hf, Hz in *.
    assert (pf ≠ pe) by (destruct Hfin as [->|Hfin]; ptr_ne).
    assert (pz ≠ pe) by (destruct Hzin as [->|Hzin]; ptr_ne).
    do 2 eexists. split; [|split_and!].
    + apply bind_ret_r. unfold untie. exec. reflexivity.
    + split_and!; [|solve_nodup..].
      apply bseg_app. open_segs. split_and!; try exact I.
      * eapply bseg_ext; [| |exact Hxs]; solve_frame.
      * rewrite Hf, Hz. heap_lookup.
      * rewrite !vseg_app. open_segs. split_and!; try exact I.
        -- eapply vseg_ext; [|exact Hes1]; solve_frame.
        -- heap_lookup.
        -- heap_lookup.
        -- eapply vseg_ext; [|exact Hes2]; solve_frame.
      * eapply bseg_ext; [| |exact Hys]; solve_frame.
    + heap_lookup.
    + by rewrite ?length_insert.
    + by rewrite ?length_insert.
Qed.
End Untie.

Section AddList.
Context {K : Type} `{Countable K} {V : Type}.
Implicit Types (hl : list nodeList) (hv : list (nodeValue K V)).
Implicit Types (es : list (ent K V)) (bs L xs ys : list (bkt K V)).
Implicit Types (e : ent K V) (b x y : bkt K V).
Implicit Types (mm : gmap K ptr).

Lemma addListFrontOrAfter_spec cap s mm hl hv tl xs x ys f pe r before :
  linked tl hl hv (xs ++ x :: ys) →
  first_or (bptrs xs) (Some (b_ptr x)) = Some s →
  match before with [] => b_ptr x = s | bf :: _ => bf = Some (b_ptr x) end →
  hv !! pe = Some r → nv_next r = None →
  pe ∉ eptrs (all_ents (xs ++ x :: ys)) →
  ∃ hl' hv',
    addListFrontOrAfter f (Some pe) before (mkCache cap s mm hl hv)
    = Ok (tt, mkCache cap s mm hl' hv')
    ∧ linked (match ys with [] => Some (length hl) | _ => tl end) hl' hv'
        (xs ++ x :: mkBkt (length hl) f [mkEnt pe (nv_key r) (nv_value r)] :: ys)
    ∧ length hl' = S (length hl) ∧ length hv' = length hv.
Proof.
  destruct x as [px fx ex], r as [k v rn rp rf].
  intros (Hseg & Hnd & Hnde) Hhd Hbefore Hr Hrn Hpe. simpl in Hrn. subst rn.
  assert (Hbfr : (match before with [] => Some s | b :: _ => b end) = Some px).
  { destruct before; simpl in *; congruence. }
  clear Hbefore.
  apply bseg_app in Hseg as (Hxs & Hx & Hvx & Hys).
  pose proof (lookup_lt_Some _ _ _ Hx) as Hpxlt.
  norm_ptrs. split_nodup.
  destruct ys as [|[py fy ey] ys].
  - (* the new list becomes the tail: [sentinel.prev] is redirected *)
    destruct xs as [|[ps fs es] xs]; norm_ptrs.
    + simplify_eq. norm_ptrs.
      do 2 eexists. split; [|split_and!].
      * apply bind_ret_r. unfold addListFrontOrAfter, newNodeList. exec.
        rewrite Hbfr. exec. reflexivity.
      * split_and!; [|solve_nodup..]. open_segs. split_and!; try exact I.
        -- heap_lookup.
        -- eapply vseg_ext; [|exact Hvx]; solve_frame.
        -- heap_lookup.
        -- heap_lookup.
      * rewrite ?length_insert, length_app; simpl; lia.
      * by rewrite ?length_insert.
    + simplify_eq. cbn [bseg] in Hxs. destruct Hxs as (Hs & Hvs & Hxs). norm_ptrs.
      split_nodup.
      pose proof (lookup_lt_Some _ _ _ Hs) as Hpslt.
      do 2 eexists. split; [|split_and!].
      * apply bind_ret_r. unfold addListFrontOrAfter, newNodeList. exec.
        rewrite Hbfr. exec. reflexivity.
      * split_and!; [|solve_nodup..]. open_segs. split_and!; try exact I.
        -- heap_lookup.
        -- eapply vseg_ext; [|exact Hvs]; solve_frame.
        -- apply bseg_app. open_segs. split_and!; try exact I.
           ++ eapply bseg_ext; [| |exact Hxs]; solve_frame.
           ++ heap_lookup.
           ++ eapply vseg_ext; [|exact Hvx]; solve_frame.
           ++ heap_lookup.
           ++ heap_lookup.
      * rewrite ?length_insert, length_app; simpl; lia.
      * by rewrite ?length_insert.
  - cbn [bseg] in Hys. destruct Hys as (Hy & Hvy & Hys). norm_ptrs. split_nodup.
    pose proof (lookup_lt_Some _ _ _ Hy) as Hpylt.
    do 2 eexists. split; [|split_and!].
    + apply bind_ret_r. unfold addListFrontOrAfter, newNodeList. exec.
      rewrite Hbfr. exec. reflexivity.
    + split_and!; [|solve_nodup..].
      apply bseg_app. open_segs. split_and!; try exact I.
      * eapply bseg_ext; [| |exact Hxs]; solve_frame.
      * heap_lookup.
      * eapply vseg_ext; [|exact Hvx]; solve_frame.
      * heap_lookup.
      * heap_lookup.
      * heap_lookup.
      * eapply vseg_ext; [|exact Hvy]; solve_frame.
      * eapply bseg_ext; [| |exact Hys]; solve_frame.
    + rewrite ?length_insert, length_app; simpl; lia.
    + by rewrite ?length_insert.
Qed.

End AddList.

Section AddFront.
Context {K : Type} `{Countable K} {V : Type}.
Implicit Types (hl : list nodeList) (hv : list (nodeValue K V)).
Implicit Types (es : list (ent K V)) (bs L xs ys : list (bkt K V)).
Implicit Types (e : ent K V) (b x y : bkt K V).
Implicit Types (mm : gmap K ptr).

Lemma addFrontByFreq_spec cap s mm hl hv tl xs py fy eh ey ys pe r :
  linked tl hl hv (xs ++ mkBkt py fy (eh :: ey) :: ys) →
  hv !! pe = Some r →
  pe ∉ eptrs (all_ents (xs ++ mkBkt py fy (eh :: ey) :: ys)) →
  ∃ hv',
    addFrontByFreq (Some py) (Some pe) (mkCache cap s mm hl hv)
    = Ok (tt, mkCache cap s mm (<[py := mkNodeList fy (last_or (bptrs xs) tl)
                                     (first_or (bptrs ys) None) (Some pe)
                                     (last_or (eptrs ey) (Some (e_ptr eh)))]> hl) hv')
    ∧ linked tl (<[py := mkNodeList fy (last_or (bptrs xs) tl)
                     (first_or (bptrs ys) None) (Some pe)
                     (last_or (eptrs ey) (Some (e_ptr eh)))]> hl) hv'
        (xs ++ mkBkt py fy (mkEnt pe (nv_key r) (nv_value r) :: eh :: ey) :: ys)
    ∧ length hv' = length hv.
Proof.
  destruct eh as [ph kh vh], r as [k v rn rp rf].
  intros (Hseg & Hnd & Hnde) Hr Hpe.
  apply bseg_app in Hseg as (Hxs & Hy & Hvy & Hys).
  cbn [vseg] in Hvy. destruct Hvy as (Hh & Hvy).
  norm_ptrs. split_nodup.
  eexists. split; [|split_and!].
  - apply bind_ret_r. unfold addFrontByFreq. exec. reflexivity.
  - split_and!; [|solve_nodup..].
    apply bseg_app. open_segs. split_and!; try exact I.
    + eapply bseg_ext; [| |exact Hxs]; solve_frame.
    + heap_lookup.
    + heap_lookup.
    + heap_lookup.
    + eapply vseg_ext; [|exact Hvy]; solve_frame.
    + eapply bseg_ext; [| |exact Hys]; solve_frame.
  - by rewrite ?length_insert.
Qed.

End AddFront.

Section DelLast.
Context {K : Type} `{Countable K} {V : Type}.
Implicit Types (hl : list nodeList) (hv : list (nodeValue K V)).
Implicit Types (es : list (ent K V)) (bs L xs ys : list (bkt K V)).
Implicit Types (e : ent K V) (b x y : bkt K V).
Implicit Types (mm : gmap K ptr).

Lemma delLast_nil cap s mm hl hv tl :
  chain tl s hl hv [] →
  delLast (mkCache cap s mm hl hv) = Ok (tt, mkCache cap s mm hl hv).
Proof.
  unfold chain, sentinel_bkt. intros ((Hs & _) & _). norm_ptrs.
  apply bind_ret_r. unfold delLast. exec. reflexivity.
Qed.

Lemma delLast_spec cap s mm hl hv tl pb fb es el ys :
  chain tl s hl hv (mkBkt pb fb (es ++ [el]) :: ys) →
  ∃ hl' hv',
    delLast (mkCache cap s mm hl hv)
    = Ok (tt, mkCache cap s (delete (e_key el) mm) hl' hv')
    ∧ chain tl s hl' hv' (keep_nonempty (mkBkt pb fb (es ++ [el])) es ++ ys)
    ∧ length hl' = length hl ∧ length hv' = length hv.
Proof.
  destruct el as [pl kl vl].
  unfold chain, sentinel_bkt.
  intros ((Hs & _ & Hb & Hvb & Hys) & Hnd & Hnde).
  apply vseg_app in Hvb as (Hes & Hl & _).
  norm_ptrs. split_nodup.
  destruct es as [|ep es _] using rev_ind.
  - (* the last entry of its list: the list leaves the chain *)
    norm_ptrs. destruct ys as [|[py fy ey] ys].
    + norm_ptrs. do 2 eexists. split; [|split_and!].
      * apply bind_ret_r. unfold delLast. exec. reflexivity.
      * split_and!; [|solve_nodup..]. open_segs. split_and!; try exact I.
        heap_lookup.
      * by rewrite ?length_insert.
      * done.
    + cbn [bseg] in Hys. destruct Hys as (Hy & Hvy & Hys). norm_ptrs. split_nodup.
      do 2 eexists. split; [|split_and!].
      * apply bind_ret_r. unfold delLast. exec. reflexivity.
      * split_and!; [|solve_nodup..]. open_segs. split_and!; try exact I.
        -- heap_lookup.
        -- heap_lookup.
        -- eapply vseg_ext; [|exact Hvy]; solve_frame.
        -- eapply bseg_ext; [| |exact Hys]; solve_frame.
      * by rewrite ?length_insert.
      * done.
  - (* the list keeps its other entries *)
    destruct ep as [pp kp vp].
    assert (Hne : es ++ [mkEnt pp kp vp] ≠ [])
      by (intros [_ E]%app_eq_nil; discriminate).
    destruct (vseg_head_next _ _ _ _ _ None Hne Hes)
      as (pf & kf & vf & qf & Hf & Hfin & Hrf).
    apply vseg_app in Hes as (Hes & Hp & _).
    norm_ptrs. split_nodup.
    rewrite Hf in *.
    rewrite keep_nonempty_snoc.
    assert (pf ≠ pl) by (apply elem_of_app in Hfin as [Hfin|Hfin%list_elem_of_singleton]; ptr_ne).
    do 2 eexists. split; [|split_and!].
    + apply bind_ret_r. unfold delLast. exec. reflexivity.
    + split_and!; [|solve_nodup..]. open_segs. split_and!; try exact I.
      * heap_lookup.
      * rewrite Hf. heap_lookup.
      * rewrite !vseg_app. open_segs. split_and!; try exact I.
        -- eapply vseg_ext; [|exact Hes]; solve_frame.
        -- heap_lookup.
      * eapply bseg_ext; [| |exact Hys]; solve_frame.
    + by rewrite ?length_insert.
    + by rewrite ?length_insert.
Qed.
End DelLast.

Section Bump.
Context {K : Type} `{Countable K} {V : Type}.
Implicit Types (hl : list nodeList) (hv : list (nodeValue K V)).
Implicit Types (es : list (ent K V)) (bs L xs ys : list (bkt K V)).
Implicit Types (e : ent K V) (b x y : bkt K V).
Implicit Types (mm : gmap K ptr).

Lemma bump_entry_spec cap s mm hl hv tl xs pb fb esb ys pe r :
  linked tl hl hv (xs ++ mkBkt pb fb esb :: ys) →
  first_or (bptrs xs) (Some pb) = Some s →
  Forall (λ b, b_ents b ≠ []) ys →
  hv !! pe = Some r → nv_next r = None →
  pe ∉ eptrs (all_ents (xs ++ mkBkt pb fb esb :: ys)) →
  ∃ hl' hv',
    bump_entry (Some pe) (Some pb) (mkCache cap s mm hl hv)
    = Ok (tt, mkCache cap s mm hl' hv')
    ∧ linked (match ys with [] => Some (length hl) | _ => tl end) hl' hv'
        (xs ++ mkBkt pb fb esb
            :: bump_target (length hl) fb (mkEnt pe (nv_key r) (nv_value r)) ys)
    ∧ length hv' = length hv.
Proof.
  intros Hch Hhd Hne Hr Hrn Hpe.
  pose proof (linked_mid_lookup _ _ _ _ _ _ Hch) as [Hb _].
  destruct ys as [|[py fy ey] ys]; norm_in Hb.
  - destruct (addListFrontOrAfter_spec cap s mm hl hv tl xs _ [] (int_add fb 1)
                pe r [Some pb] Hch Hhd eq_refl Hr Hrn Hpe)
      as (hl' & hv' & Hrun & Hch' & _ & Hlv).
    exists hl', hv'. split; [|by split].
    apply bind_ret_r. unfold bump_entry. exec.
    erewrite bind_ok by exact Hrun. reflexivity.
  - pose proof Hch as Hy. rewrite (app_snoc_cons xs) in Hy.
    apply linked_mid_lookup in Hy as [Hy _]. norm_in Hy.
    cbn [bump_target b_freq].
    destruct (int_add fb 1 =? fy) eqn:Hf.
    + apply Forall_cons in Hne as [Hney _]. cbn in Hney.
      destruct ey as [|eh ey]; [done|].
      rewrite (app_snoc_cons xs) in Hch, Hpe.
      destruct (addFrontByFreq_spec cap s mm hl hv tl _ py fy eh ey ys pe r Hch Hr Hpe)
        as (hv' & Hrun & Hch' & Hlv).
      eexists _, hv'. split; [|split; [|done]].
      * apply bind_ret_r. unfold bump_entry. exec. rewrite Hf. exec.
        erewrite bind_ok by exact Hrun. reflexivity.
      * rewrite <- (app_snoc_cons xs) in Hch'. exact Hch'.
    + destruct (addListFrontOrAfter_spec cap s mm hl hv tl xs _ _ (int_add fb 1)
                  pe r [Some pb] Hch Hhd eq_refl Hr Hrn Hpe)
        as (hl' & hv' & Hrun & Hch' & _ & Hlv).
      exists hl', hv'. split; [|by split].
      apply bind_ret_r. unfold bump_entry. exec. rewrite Hf. exec.
      erewrite bind_ok by exact Hrun. reflexivity.
Qed.

Lemma bump_target_cons pn f e ys : ∃ y ys', bump_target pn f e ys = y :: ys'.
Proof.
  destruct ys as [|y ys]; cbn; [eauto|]. destruct (_ =? _); eauto.
Qed.

Lemma unlink_if_empty_spec cap s mm hl hv tl xs x pb fb esb y ys :
  linked tl hl hv (xs ++ x :: mkBkt pb fb esb :: y :: ys) →
  ∃ hl',
    unlink_if_empty (Some pb) (mkCache cap s mm hl hv) = Ok (tt, mkCache cap s mm hl' hv)
    ∧ linked tl hl' hv (xs ++ x :: keep_nonempty (mkBkt pb fb esb) esb ++ y :: ys)
    ∧ length hl' = length hl.
Proof.
  intros Hch. destruct esb as [|eh esb].
  - cbn [keep_nonempty app]. eapply unlink_if_empty_empty. exact Hch.
  - exists hl. split; [|by split].
    pose proof Hch as Hb. rewrite (app_snoc_cons xs) in Hb.
    apply linked_mid_lookup in Hb as [Hb _]. norm_in Hb.
    by eapply unlink_if_empty_nonempty.
Qed.

End Bump.

Section BumpedList.
Context {K : Type} `{Countable K} {V : Type}.
Implicit Types (es : list (ent K V)) (bs L xs ys : list (bkt K V)).
Implicit Types (e : ent K V) (b x y : bkt K V).

Lemma all_ents_keep_nonempty b es : all_ents (keep_nonempty b es) = es.
Proof. destruct es; [done|]. cbn. by rewrite app_nil_r. Qed.

Lemma bptrs_keep_nonempty b es :
  bptrs (keep_nonempty b es) = match es with [] => [] | _ => [b_ptr b] end.
Proof. by destruct es. Qed.

Lemma all_ents_bump_target pn f e ys :
  all_ents (bump_target pn f e ys) = e :: all_ents ys.
Proof. destruct ys as [|y ys]; cbn; [done|]. by destruct (_ =? _). Qed.

Lemma last_or_bump_target pn f e ys d :
  last_or (bptrs (bump_target pn f e ys)) d
  = match ys with [] => Some pn | _ => last_or (bptrs ys) d end.
Proof.
  destruct ys as [|y ys]; cbn; [done|].
  destruct (_ =? _); cbn; by rewrite !last_or_cons.
Qed.

Lemma all_ents_bumped pn bs1 b es1 e es2 bs2 :
  b_ents b = es1 ++ e :: es2 →
  all_ents (bumped pn bs1 b es1 e es2 bs2) ≡ₚ all_ents (bs1 ++ b :: bs2).
Proof.
  intros Hb. unfold bumped.
  rewrite !all_ents_app, all_ents_cons, all_ents_keep_nonempty, all_ents_bump_target, Hb.
  apply Permutation_app_head. rewrite <- !app_assoc. apply Permutation_app_head.
  symmetry. apply Permutation_middle.
Qed.

Lemma last_or_bumped pn bs1 b es1 e es2 bs2 :
  last_or (bptrs (bumped pn bs1 b es1 e es2 bs2)) None
  = match bs2 with
    | [] => Some pn
    | _ => last_or (bptrs (bs1 ++ b :: bs2)) None
    end.
Proof.
  unfold bumped. rewrite !bptrs_app, !last_or_app, last_or_bump_target.
  destruct bs2 as [|y ys]; [done|]. cbn. by rewrite !last_or_cons.
Qed.

Lemma Forall_nonempty_keep b es :
  Forall (λ b, b_ents b ≠ []) (keep_nonempty b es).
Proof. destruct es; constructor; [done|constructor]. Qed.

Lemma Forall_nonempty_bump_target pn f e ys :
  Forall (λ b, b_ents b ≠ []) ys →
  Forall (λ b, b_ents b ≠ []) (bump_target pn f e ys).
Proof.
  intros Hys. destruct ys as [|y ys]; cbn.
  - by repeat constructor.
  - apply Forall_cons in Hys as [? ?]. destruct (_ =? _); by repeat constructor.
Qed.

Lemma Forall_nonempty_bumped pn bs1 b es1 e es2 bs2 :
  Forall (λ b, b_ents b ≠ []) (bs1 ++ b :: bs2) →
  Forall (λ b, b_ents b ≠ []) (bumped pn bs1 b es1 e es2 bs2).
Proof.
  intros (H1 & (_ & H2)%Forall_cons)%Forall_app. unfold bumped.
  repeat apply Forall_app_2;
    auto using Forall_nonempty_keep, Forall_nonempty_bump_target.
Qed.

End BumpedList.

Section GetRep.
Context {K : Type} `{Countable K} {V : Type}.
Variable zeroVal : V.
Implicit Types (hl : list nodeList) (hv : list (nodeValue K V)).
Implicit Types (es : list (ent K V)) (bs L xs ys : list (bkt K V)).
Implicit Types (e : ent K V) (b x y : bkt K V).
Implicit Types (c : cacheImpl K V).

Lemma bind_cong {A B} (m : M A) (k1 k2 : A → M B) c :
  (∀ a c', k1 a c' = k2 a c') → bind m k1 c = bind m k2 c.
Proof. intros Hk. unfold bind. destruct (m c) as [[a c']| |]; auto. Qed.

Lemma Get_unfold key c :
  Get zeroVal key c =
  match mp c !! key with
  | None => Ok ((zeroVal, Some ErrKeyNotFound), c)
  | Some v =>
      (untie (Some v) ;;;
       currentNode <- rdV nv_frequency (Some v) ;;
       bump_entry (Some v) currentNode ;;;
       unlink_if_empty currentNode ;;;
       result <- rdV nv_value (Some v) ;;
       ret (result, None)) c
  end.
Proof.
  unfold Get. destruct (mp c !! key); [|done].
  unfold bump_entry, unlink_if_empty.
  repeat (rewrite ?bind_bind; first [reflexivity | apply bind_cong; intros ? ?; cbv beta]).
Qed.

Lemma linked_ent_lookup tl hl hv C e :
  linked tl hl hv C → e ∈ all_ents C →
  ∃ n p o, hv !! e_ptr e = Some (mkNodeValue (e_key e) (e_val e) n p (Some o)).
Proof.
  intros (Hseg & _ & _) (b & Hb & He)%elem_of_all_ents.
  destruct (bseg_lookup _ _ _ _ _ _ Hseg Hb) as (_ & _ & _ & Hv).
  destruct (vseg_lookup _ _ _ _ _ _ Hv He) as (n & p & Hl). eauto.
Qed.

Lemma linked_ent_owner tl hl hv C b e :
  linked tl hl hv C → b ∈ C → e ∈ b_ents b →
  ∃ n p n' p', hv !! e_ptr e = Some (mkNodeValue (e_key e) (e_val e) n p (Some (b_ptr b)))
    ∧ hl !! b_ptr b = Some (mkNodeList (b_freq b) p' n' (first_or (eptrs (b_ents b)) None)
                              (last_or (eptrs (b_ents b)) None)).
Proof.
  intros (Hseg & _ & _) Hb He.
  destruct (bseg_lookup _ _ _ _ _ _ Hseg Hb) as (p' & n' & Hl & Hv).
  destruct (vseg_lookup _ _ _ _ _ _ Hv He) as (n & p & Hl'). eauto 10.
Qed.

Lemma snoc_decompose {A} (a : A) (l : list A) :
  ∃ (l0 : list A) (z : A), a :: l = l0 ++ [z].
Proof.
  destruct l as [|z l _] using rev_ind.
  - by exists [], a.
  - by exists (a :: l), z.
Qed.

Lemma rep_lookup_key L c e :
  rep L c → e ∈ all_ents L → mp c !! e_key e = Some (e_ptr e).
Proof. intros (_ & _ & _ & Hmp) He. apply Hmp. eauto. Qed.

Lemma Get_hit L c bs1 b es1 e es2 bs2 :
  rep L c → L = bs1 ++ b :: bs2 → b_ents b = es1 ++ e :: es2 →
  ∃ c',
    Get zeroVal (e_key e) c = Ok ((e_val e, None), c')
    ∧ rep (bumped (length (lists c)) bs1 b es1 e es2 bs2) c'
    ∧ capacity c' = capacity c ∧ mp c' = mp c
    ∧ frequencies c' = frequencies c.
Proof.
  intros Hrep -> Hb.
  assert (Hk : mp c !! e_key e = Some (e_ptr e)).
  { apply (rep_lookup_key _ _ _ Hrep).
    rewrite all_ents_app, all_ents_cons, Hb. set_solver. }
  destruct Hrep as (Hch & Hne & Hndk & Hmp).
  destruct c as [cap s mm hl hv], b as [pb fb esb], e as [pe ke ve].
  cbn [lists values capacity mp frequencies b_ents e_key e_ptr e_val] in *. subst esb.
  rewrite Get_unfold. cbn [mp]. rewrite Hk.
  unfold chain in Hch.
  remember (sentinel_bkt s :: bs1) as xs eqn:Hxs.
  assert (Hhd : first_or (bptrs xs) (Some pb) = Some s) by (by subst xs).
  change (sentinel_bkt s :: bs1 ++ ?t) with ((sentinel_bkt s :: bs1) ++ t) in Hch.
  rewrite <- Hxs in Hch.
  destruct (untie_spec cap s mm _ _ _ xs pb fb es1 (mkEnt pe ke ve) es2 bs2 Hch)
    as (hl1 & hv1 & Hrun1 & Hch1 & He1 & Hll1 & Hlv1).
  cbn [e_ptr e_key e_val] in *.
  assert (Hpe : pe ∉ eptrs (all_ents (xs ++ mkBkt pb fb (es1 ++ es2) :: bs2))).
  { destruct Hch as (_ & _ & Hnd). clear -Hnd. norm_in Hnd. split_nodup. solve_nodup. }
  assert (Hne2 : Forall (λ b, b_ents b ≠ []) bs2).
  { by apply Forall_app in Hne as (_ & (_ & ?)%Forall_cons). }
  destruct (bump_entry_spec cap s mm hl1 hv1 _ xs pb fb (es1 ++ es2) bs2 pe _
              Hch1 Hhd Hne2 He1 eq_refl Hpe)
    as (hl2 & hv2 & Hrun2 & Hch2 & Hlv2).
  cbn [nv_key nv_value] in Hch2.
  assert (He2 : ∃ n p o, hv2 !! pe = Some (mkNodeValue ke ve n p (Some o))).
  { apply (linked_ent_lookup _ _ _ _ (mkEnt pe ke ve) Hch2).
    rewrite all_ents_app, all_ents_cons, all_ents_bump_target. set_solver. }
  destruct He2 as (n2 & p2 & o2 & He2).
  destruct (bump_target_cons (length hl1) fb (mkEnt pe ke ve) bs2) as (y & ys' & Hbt).
  pose proof Hch2 as Hch2'. rewrite Hbt in Hch2'.
  destruct (snoc_decompose (sentinel_bkt s) bs1) as (xs0 & x & Hsn).
  rewrite Hxs, Hsn, <- app_snoc_cons in Hch2'.
  destruct (unlink_if_empty_spec cap s mm hl2 hv2 _ xs0 x pb fb _ y ys' Hch2')
    as (hl3 & Hrun3 & Hch3 & Hll3).
  eexists. split; [|split].
  - erewrite bind_ok by exact Hrun1. exec.
    erewrite bind_ok by exact Hrun2.
    erewrite bind_ok by exact Hrun3. exec. reflexivity.
  - cbn [lists values capacity mp frequencies].
    split_and!.
    + unfold chain. rewrite (app_snoc_cons xs0), <- Hsn, <- Hbt in Hch3.
      rewrite last_or_bumped. unfold bumped.
      rewrite Hll1 in Hch3. destruct bs2; exact Hch3.
    + by apply Forall_nonempty_bumped.
    + rewrite all_ents_bumped by done. done.
    + intros k q. rewrite Hmp. apply exist_proper. intros e'.
      rewrite all_ents_bumped by done. done.
  - done.
Qed.

End GetRep.

Section PutHit.
Context {K : Type} `{Countable K} {V : Type}.
Variable zeroVal : V.
Implicit Types (hl : list nodeList) (hv : list (nodeValue K V)).
Implicit Types (es : list (ent K V)) (bs L xs ys : list (bkt K V)).
Implicit Types (e : ent K V) (b x y : bkt K V).
Implicit Types (c : cacheImpl K V).

Lemma set_value_spec cap s mm hl hv tl xs pb fb es1 e es2 ys v' :
  linked tl hl hv (xs ++ mkBkt pb fb (es1 ++ e :: es2) :: ys) →
  ∃ hv',
    wrV (Some (e_ptr e)) (with_vvalue v') (mkCache cap s mm hl hv)
    = Ok (tt, mkCache cap s mm hl hv')
    ∧ linked tl hl hv'
        (xs ++ mkBkt pb fb (es1 ++ mkEnt (e_ptr e) (e_key e) v' :: es2) :: ys)
    ∧ length hv' = length hv.
Proof.
  destruct e as [pe ke ve].
  intros (Hseg & Hnd & Hnde).
  apply bseg_app in Hseg as (Hxs & Hb & Hvb & Hys).
  apply vseg_app in Hvb as (Hes1 & He & Hes2).
  norm_ptrs. save Hnd. save Hnde. split_nodup.
  eexists. split; [|split].
  - apply bind_ret_r. exec. reflexivity.
  - split_and!; [|unfold kept in *; norm_ptrs; assumption..].
    apply bseg_app. open_segs. split_and!; try exact I.
    + eapply bseg_ext; [| |exact Hxs]; solve_frame.
    + exact Hb.
    + rewrite !vseg_app. open_segs. split_and!; try exact I.
      * eapply vseg_ext; [|exact Hes1]; solve_frame.
      * heap_lookup.
      * eapply vseg_ext; [|exact Hes2]; solve_frame.
    + eapply bseg_ext; [| |exact Hys]; solve_frame.
  - by rewrite ?length_insert.
Qed.

Lemma Put_hit L c bs1 b es1 e es2 bs2 v' :
  rep L c → L = bs1 ++ b :: bs2 → b_ents b = es1 ++ e :: es2 →
  ∃ c',
    Put zeroVal (e_key e) v' c = Ok (tt, c')
    ∧ rep (bumped (length (lists c)) bs1 b es1 (mkEnt (e_ptr e) (e_key e) v') es2 bs2) c'
    ∧ capacity c' = capacity c ∧ mp c' = mp c
    ∧ frequencies c' = frequencies c.
Proof.
  intros Hrep -> Hb.
  assert (Hk : mp c !! e_key e = Some (e_ptr e)).
  { apply (rep_lookup_key _ _ _ Hrep).
    rewrite all_ents_app, all_ents_cons, Hb. set_solver. }
  destruct Hrep as (Hch & Hne & Hndk & Hmp).
  destruct c as [cap s mm hl hv], b as [pb fb esb].
  cbn [lists values capacity mp frequencies b_ents] in *. subst esb.
  unfold chain in Hch.
  change (sentinel_bkt s :: bs1 ++ ?t) with ((sentinel_bkt s :: bs1) ++ t) in Hch.
  destruct (set_value_spec cap s mm _ _ _ _ pb fb es1 e es2 bs2 v' Hch)
    as (hv1 & Hrun1 & Hch1 & Hlv1).
  set (e' := mkEnt (e_ptr e) (e_key e) v') in *.
  set (b1 := mkBkt pb fb (es1 ++ e' :: es2)).
  assert (Hents : (e_key <$> all_ents (bs1 ++ b1 :: bs2))
                  = (e_key <$> all_ents (bs1 ++ mkBkt pb fb (es1 ++ e :: es2) :: bs2))).
  { unfold b1, e'. rewrite !all_ents_app, !all_ents_cons. cbn [b_ents].
    by rewrite !fmap_app, !fmap_cons. }
  assert (Hrep1 : rep (bs1 ++ b1 :: bs2) (mkCache cap s mm hl hv1)).
  { split_and!.
    - unfold chain, b1, e'. cbn [lists values frequencies].
      rewrite bptrs_app, bptrs_cons in Hch1 |- *. exact Hch1.
    - apply Forall_app in Hne as (Hn1 & (_ & Hn2)%Forall_cons).
      apply Forall_app. split; [done|]. constructor; [|done].
      cbn. by destruct es1.
    - by rewrite Hents.
    - intros k q. cbn [mp]. rewrite Hmp. unfold b1.
      rewrite !all_ents_app, !all_ents_cons. cbn [b_ents]. split.
      + intros (e0 & He0 & <- & <-).
        rewrite !elem_of_app, elem_of_cons in He0.
        destruct He0 as [?|[[?|[->|?]]|?]].
        * exists e0. rewrite !elem_of_app. tauto.
        * exists e0. rewrite !elem_of_app. tauto.
        * exists e'. rewrite !elem_of_app, elem_of_cons. tauto.
        * exists e0. rewrite !elem_of_app, elem_of_cons. tauto.
        * exists e0. rewrite !elem_of_app. tauto.
      + intros (e0 & He0 & <- & <-).
        rewrite !elem_of_app, elem_of_cons in He0.
        destruct He0 as [?|[[?|[->|?]]|?]].
        * exists e0. rewrite !elem_of_app. tauto.
        * exists e0. rewrite !elem_of_app. tauto.
        * exists e. rewrite !elem_of_app, elem_of_cons. tauto.
        * exists e0. rewrite !elem_of_app, elem_of_cons. tauto.
        * exists e0. rewrite !elem_of_app. tauto. }
  destruct (Get_hit zeroVal _ _ bs1 b1 es1 e' es2 bs2 Hrep1 eq_refl eq_refl)
    as (c' & Hget & Hrep' & Hcap & Hmp' & Hfr).
  exists c'. split; [|split; [exact Hrep'|done]].
  unfold Put. cbn [mp]. rewrite Hk.
  erewrite bind_ok by exact Hrun1.
  erewrite bind_ok by exact Hget. done.
Qed.

End PutHit.

Section PutNew.
Context {K : Type} `{Countable K} {V : Type}.
Variable zeroVal : V.
Implicit Types (hl : list nodeList) (hv : list (nodeValue K V)).
Implicit Types (es : list (ent K V)) (bs L xs ys : list (bkt K V)).
Implicit Types (e : ent K V) (b x y : bkt K V).
Implicit Types (c : cacheImpl K V).

Lemma Put_unfold key value c :
  Put zeroVal key value c =
  match mp c !! key with
  | Some node =>
      (wrV (Some node) (with_vvalue value) ;;;
       r <- Get zeroVal key ;;
       match snd r with
       | Some err => throw (PanicError err)
       | None => ret tt
       end) c
  | None => (when (capacity c <=? Size c) delLast ;;; insert_new key value) c
  end.
Proof. unfold Put. by destruct (mp c !! key). Qed.

Lemma rep_rep_loose L c : rep L c → rep_loose L c.
Proof. intros (Hch & Hne & Hnd & Hmp). by eexists. Qed.

Lemma all_ents_inserted pn e L : all_ents (inserted pn e L) = e :: all_ents L.
Proof. destruct L as [|b bs]; cbn; [done|]. by destruct (_ =? _). Qed.

Lemma last_or_inserted pn e L :
  last_or (bptrs (inserted pn e L)) None
  = match L with [] => Some pn | _ => last_or (bptrs L) None end.
Proof.
  destruct L as [|b bs]; cbn; [done|].
  destruct (_ =? _); cbn; by rewrite !last_or_cons.
Qed.

Lemma Forall_nonempty_inserted pn e L :
  Forall (λ b, b_ents b ≠ []) L → Forall (λ b, b_ents b ≠ []) (inserted pn e L).
Proof.
  intros HL. destruct L as [|b bs]; cbn.
  - by repeat constructor.
  - apply Forall_cons in HL as [? ?]. destruct (_ =? _); by repeat constructor.
Qed.

Lemma linked_alloc_value tl hl hv C r :
  linked tl hl hv C → linked tl hl (hv ++ [r]) C.
Proof.
  intros (Hseg & Hnd & Hnde). split; [|done].
  eapply bseg_ext; [| |exact Hseg]; [done|].
  intros p Hp. apply lookup_app_l. by eapply bseg_bound_v.
Qed.

Lemma linked_fresh_value tl hl hv C :
  linked tl hl hv C → length hv ∉ eptrs (all_ents C).
Proof.
  intros (Hseg & _ & _) Hin. eapply bseg_bound_v in Hin; [|exact Hseg]. lia.
Qed.

Lemma insert_new_spec L c key value :
  rep_loose L c → mp c !! key = None →
  ∃ c',
    insert_new key value c = Ok (tt, c')
    ∧ rep (inserted (length (lists c)) (mkEnt (length (values c)) key value) L) c'
    ∧ capacity c' = capacity c
    ∧ frequencies c' = frequencies c
    ∧ mp c' = <[key := length (values c)]> (mp c).
Proof.
  intros (tl & Hch & Htl & Hne & Hndk & Hmp) Hk.
  destruct c as [cap s mm hl hv].
  cbn [lists values capacity mp frequencies] in *.
  set (r := mkNodeValue key value None None (first_or (bptrs L) None)).
  pose proof (linked_fresh_value _ _ _ _ Hch) as Hpe.
  pose proof (linked_alloc_value _ _ _ _ r Hch) as Hch1.
  assert (Hr : (hv ++ [r]) !! length hv = Some r) by apply lookup_snoc_new.
  pose proof Hch as ((Hs & _) & _). unfold sentinel_bkt in Hs. norm_in Hs.
  assert (Hkey : key ∉ e_key <$> all_ents L).
  { intros (e & -> & He)%list_elem_of_fmap.
    assert (mm !! e_key e = Some (e_ptr e)) by (apply Hmp; eauto). congruence. }
  assert (Hrep : ∀ hl' hv' tl',
    linked tl' hl' hv'
      (sentinel_bkt s :: inserted (length hl) (mkEnt (length hv) key value) L) →
    tl' = match L with [] => Some (length hl) | _ => tl end →
    rep (inserted (length hl) (mkEnt (length hv) key value) L)
      (mkCache cap s (<[key := length hv]> mm) hl' hv')).
  { intros hl' hv' tl' Hch' ->. split_and!.
    - unfold chain. cbn [lists values frequencies]. rewrite last_or_inserted.
      destruct L; [done|]. by rewrite <- Htl.
    - by apply Forall_nonempty_inserted.
    - rewrite all_ents_inserted, fmap_cons. by apply NoDup_cons.
    - intros k q. cbn [mp]. rewrite all_ents_inserted.
      destruct (decide (k = key)) as [->|Hkk].
      + rewrite lookup_insert_eq. split.
        * intros [= <-]. eexists. split; [apply list_elem_of_here|done].
        * intros (e & [->|He]%elem_of_cons & Hek & Hep); [by subst|].
          exfalso. apply Hkey. apply list_elem_of_fmap. eauto.
      + rewrite lookup_insert_ne by done. rewrite Hmp. split.
        * intros (e & He & ? & ?). exists e. split; [by apply list_elem_of_further|done].
        * intros (e & [->|He]%elem_of_cons & Hek & Hep); [by cbn in Hek; subst|eauto]. }
  destruct L as [|[pb fb esb] bs].
  - destruct (addListFrontOrAfter_spec cap s mm hl (hv ++ [r]) tl [] (sentinel_bkt s) []
                1 (length hv) r [] Hch1 eq_refl eq_refl Hr eq_refl Hpe)
      as (hl' & hv' & Hrun & Hch' & _ & _).
    norm_in Hs.
    eexists. split.
    { unfold insert_new. exec. erewrite bind_ok by exact Hrun. reflexivity. }
    split; [by eapply Hrep|done].
  - cbn [inserted b_freq] in *. norm_in Hs.
    pose proof (linked_mid_lookup _ _ _ [sentinel_bkt s] _ _ Hch) as [Hb _].
    norm_in Hb.
    destruct (fb =? 1) eqn:Hf.
    + apply Forall_cons in Hne as [Hneb _]. cbn in Hneb.
      destruct esb as [|eh esb]; [done|].
      destruct (addFrontByFreq_spec cap s mm hl (hv ++ [r]) tl [sentinel_bkt s]
                  pb fb eh esb bs (length hv) r Hch1 Hr Hpe)
        as (hv' & Hrun & Hch' & _).
      eexists. split.
      { unfold insert_new. exec. rewrite Hf. exec.
        erewrite bind_ok by exact Hrun. reflexivity. }
      split; [by eapply Hrep|done].
    + destruct (addListFrontOrAfter_spec cap s mm hl (hv ++ [r]) tl [] (sentinel_bkt s)
                  (mkBkt pb fb esb :: bs)
                  1 (length hv) r [] Hch1 eq_refl eq_refl Hr eq_refl Hpe)
        as (hl' & hv' & Hrun & Hch' & _ & _).
      eexists. split.
      { unfold insert_new. exec. rewrite Hf. exec.
        erewrite bind_ok by exact Hrun. reflexivity. }
      split; [by eapply Hrep|done].
Qed.

End PutNew.

Section PutNewRep.
Context {K : Type} `{Countable K} {V : Type}.
Variable zeroVal : V.
Implicit Types (hl : list nodeList) (hv : list (nodeValue K V)).
Implicit Types (es : list (ent K V)) (bs L xs ys : list (bkt K V)).
Implicit Types (e : ent K V) (b x y : bkt K V).
Implicit Types (c : cacheImpl K V).

Lemma rep_loose_mp_list L c :
  rep_loose L c →
  mp c = list_to_map ((λ e, (e_key e, e_ptr e)) <$> all_ents L).
Proof.
  intros (tl & _ & _ & _ & Hnd & Hmp).
  assert (Hfst : ((λ e : ent K V, (e_key e, e_ptr e)) <$> all_ents L).*1
                 = e_key <$> all_ents L).
  { rewrite <- list_fmap_compose. done. }
  apply map_eq. intros k. apply option_eq. intros q.
  rewrite Hmp, <- elem_of_list_to_map by (by rewrite Hfst).
  rewrite list_elem_of_fmap. split.
  - intros (e & He & <- & <-). eauto.
  - intros (e & [= -> ->] & He). eauto.
Qed.

Lemma rep_loose_size L c : rep_loose L c → size (mp c) = length (all_ents L).
Proof.
  intros Hrep. rewrite (rep_loose_mp_list _ _ Hrep).
  destruct Hrep as (tl & _ & _ & _ & Hnd & _).
  rewrite map_size_list_to_map, length_fmap; [done|].
  by rewrite <- list_fmap_compose.
Qed.

Lemma rep_size L c : rep L c → Size c = Z.of_nat (length (all_ents L)).
Proof.
  intros Hrep%rep_rep_loose. unfold Size. by rewrite (rep_loose_size _ _ Hrep).
Qed.

Lemma evicted_snoc b es el ys :
  b_ents b = es ++ [el] → evicted (b :: ys) = keep_nonempty b es ++ ys.
Proof. intros Hb. cbn. by rewrite Hb, removelast_last. Qed.

Lemma victim_snoc b es el ys : b_ents b = es ++ [el] → victim (b :: ys) = Some el.
Proof. intros Hb. cbn. by rewrite Hb, last_snoc. Qed.

Lemma delLast_rep L c :
  rep L c →
  ∃ c',
    delLast c = Ok (tt, c')
    ∧ rep_loose (evicted L) c'
    ∧ capacity c' = capacity c
    ∧ frequencies c' = frequencies c
    ∧ mp c' = match victim L with
              | Some el => delete (e_key el) (mp c)
              | None => mp c
              end
    ∧ length (lists c') = length (lists c)
    ∧ length (values c') = length (values c).
Proof.
  intros Hrep. pose proof Hrep as (Hch & Hne & Hndk & Hmp).
  destruct c as [cap s mm hl hv].
  cbn [lists values capacity mp frequencies] in *.
  destruct L as [|[pb fb esb] ys].
  - exists (mkCache cap s mm hl hv). split; [by eapply delLast_nil|].
    split; [by apply rep_rep_loose|done].
  - apply Forall_cons in Hne as [Hneb Hney]. cbn in Hneb.
    destruct esb as [|el es _] using rev_ind; [done|]. clear Hneb.
    destruct (delLast_spec cap s mm hl hv _ pb fb es el ys Hch)
      as (hl' & hv' & Hrun & Hch' & Hll & Hlv).
    eexists. split; [exact Hrun|].
    rewrite (evicted_snoc _ es el) by done.
    rewrite (victim_snoc _ es el) by done.
    cbn [lists values capacity mp frequencies].
    split; [|done].
    rewrite all_ents_cons in Hndk, Hmp. cbn [b_ents] in Hndk, Hmp.
    rewrite !fmap_app in Hndk. cbn in Hndk.
    apply NoDup_app in Hndk as (Hnd1 & Hdisj & Hnd2).
    apply NoDup_app in Hnd1 as (Hnd1 & Hdisj1 & _).
    exists (last_or (bptrs (mkBkt pb fb (es ++ [el]) :: ys)) None).
    cbn [lists values capacity mp frequencies]. split_and!.
    + exact Hch'.
    + intros Hnil. rewrite !bptrs_app, bptrs_cons, bptrs_keep_nonempty.
      rewrite last_or_cons, last_or_app.
      destruct ys as [|y ys]; [|by rewrite !bptrs_cons, !last_or_cons].
      destruct es; [by cbn in Hnil|done].
    + apply Forall_app. split; [apply Forall_nonempty_keep|done].
    + rewrite all_ents_app, all_ents_keep_nonempty, fmap_app.
      apply NoDup_app. split_and!; [done| |done].
      intros k Hk. apply Hdisj. apply elem_of_app. by left.
    + intros k q. rewrite all_ents_app, all_ents_keep_nonempty.
      rewrite lookup_delete_Some, Hmp. split.
      * intros (Hkk & e & He & Hek & Hep). exists e. split; [|done].
        rewrite !elem_of_app, list_elem_of_singleton in He.
        rewrite elem_of_app. destruct He as [[?| ->]|?]; [tauto|congruence|tauto].
      * intros (e & He & Hek & Hep). apply elem_of_app in He. split.
        -- intros <-. destruct He as [He|He].
           ++ apply (Hdisj1 (e_key e)); [by apply list_elem_of_fmap_2|].
              rewrite Hek. apply list_elem_of_here.
           ++ apply (Hdisj (e_key el)).
              ** apply elem_of_app. right. apply list_elem_of_here.
              ** rewrite <- Hek. by apply list_elem_of_fmap_2.
        -- exists e. split; [|done]. rewrite !elem_of_app. tauto.
Qed.

Lemma Put_new L c key value :
  rep L c → mp c !! key = None →
  ∃ c',
    Put zeroVal key value c = Ok (tt, c')
    ∧ rep (inserted (length (lists c)) (mkEnt (length (values c)) key value)
             (if capacity c <=? Size c then evicted L else L)) c'
    ∧ capacity c' = capacity c
    ∧ frequencies c' = frequencies c.
Proof.
  intros Hrep Hk. rewrite Put_unfold, Hk.
  destruct (capacity c <=? Size c) eqn:Hfull; cbn [when].
  - destruct (delLast_rep _ _ Hrep) as (c1 & Hrun1 & Hrep1 & Hcap1 & Hfr1 & Hmp1 & Hll & Hlv).
    assert (Hk1 : mp c1 !! key = None).
    { rewrite Hmp1. destruct (victim L); [|done].
      apply lookup_delete_None. by right. }
    destruct (insert_new_spec _ _ key value Hrep1 Hk1)
      as (c' & Hrun2 & Hrep' & Hcap' & Hfr' & Hmp').
    exists c'. split; [|split; [|split; congruence]].
    + erewrite bind_ok by exact Hrun1. exact Hrun2.
    + by rewrite <- Hll, <- Hlv.
  - destruct (insert_new_spec _ _ key value (rep_rep_loose _ _ Hrep) Hk)
      as (c' & Hrun2 & Hrep' & Hcap' & Hfr' & Hmp').
    exists c'. split; [|done].
    rewrite ret_bind. exact Hrun2.
Qed.

End PutNewRep.

Section Observe.
Context {K : Type} `{Countable K} {V : Type}.
Variable zeroVal : V.
Implicit Types (hl : list nodeList) (hv : list (nodeValue K V)).
Implicit Types (es : list (ent K V)) (bs L xs ys : list (bkt K V)).
Implicit Types (e : ent K V) (b x y : bkt K V).
Implicit Types (c : cacheImpl K V).

Lemma New_rep (capacity : list Z) :
  match capacity with [] => True | c0 :: _ => 0 ≤ c0 end →
  ∃ c, New capacity = Ok c ∧ rep [] c
    ∧ Capacity c = match capacity with [] => DefaultCapacity | c0 :: _ => c0 end.
Proof.
  intros Hcap.
  assert (Hrep : ∀ cap,
    rep [] (mkCache (K:=K) (V:=V) cap 0%nat ∅ [mkNodeList 0 None None None None] [])).
  { intros cap. split_and!.
    - split_and!; cbn; [done|repeat constructor; set_solver|constructor].
    - constructor.
    - constructor.
    - intros k q. cbn. rewrite lookup_empty. split; [done|].
      intros (e & He & _). by apply elem_of_nil in He. }
  destruct capacity as [|c0 rest]; cbn.
  - eexists. split; [done|]. split; [apply Hrep|done].
  - destruct (c0 <? 0) eqn:Hlt; [lia|].
    eexists. split; [done|]. split; [apply Hrep|done].
Qed.

Lemma rep_key_present L c k :
  rep L c → is_Some (mp c !! k) ↔ k ∈ e_key <$> all_ents L.
Proof.
  intros (_ & _ & _ & Hmp). rewrite list_elem_of_fmap. split.
  - intros [q (e & He & <- & _)%Hmp]. eauto.
  - intros (e & -> & He). exists (e_ptr e). apply Hmp. eauto.
Qed.

Lemma GetKeyFrequency_hit L c b e :
  rep L c → b ∈ L → e ∈ b_ents b →
  GetKeyFrequency (e_key e) c = Ok (b_freq b, None).
Proof.
  intros Hrep Hb He.
  assert (Hk : mp c !! e_key e = Some (e_ptr e)).
  { apply (rep_lookup_key _ _ _ Hrep). apply elem_of_all_ents. eauto. }
  destruct Hrep as (Hch & _).
  destruct (linked_ent_owner _ _ _ _ b e Hch) as (n & p & n' & p' & Hv & Hl);
    [by apply list_elem_of_further|done|].
  unfold GetKeyFrequency. rewrite Hk.
  unfold bind, rdV, rdL. rewrite Hv. cbn. by rewrite Hl.
Qed.

Lemma GetKeyFrequency_miss c k :
  mp c !! k = None → GetKeyFrequency k c = Ok (0, Some ErrKeyNotFound).
Proof. intros Hk. unfold GetKeyFrequency. by rewrite Hk. Qed.

Lemma Get_miss c k :
  mp c !! k = None → Get zeroVal k c = Ok ((zeroVal, Some ErrKeyNotFound), c).
Proof. intros Hk. unfold Get. by rewrite Hk. Qed.

(** *** The iterator *)

Section Iter.
Context {S : Type} (yield : S → K → V → S * bool).

Lemma feed_app (ps1 ps2 : list (K * V)) (s : S) :
  feed yield (ps1 ++ ps2) s
  = let '(s', continue) := feed yield ps1 s in
    if continue : bool then feed yield ps2 s' else (s', false).
Proof.
  revert s. induction ps1 as [|[k v] ps1 IH]; intros s; cbn; [done|].
  destruct (yield s k v) as [s' [|]]; [apply IH|done].
Qed.

Lemma all_values_spec fuel c o prev es (s : S) :
  vseg (values c) o prev es None → (length es ≤ fuel)%nat →
  all_values yield fuel c (first_or (eptrs es) None) s = Ok (feed yield (pairs es) s).
Proof.
  revert fuel prev s. induction es as [|[pe ke ve] es IH]; intros fuel prev s; cbn.
  - intros _ _. by destruct fuel.
  - intros [He Hes] Hfuel. destruct fuel as [|fuel]; [lia|]. cbn.
    rewrite He. cbn. destruct (yield s ke ve) as [s' [|]]; [|done].
    apply (IH fuel (Some pe)); [done|lia].
Qed.

Lemma all_lists_spec fuel c L nxt (s : S) :
  bseg (lists c) (values c) (Some (frequencies c)) L nxt →
  frequencies c ∉ bptrs L →
  (length L + length (all_ents L) ≤ fuel)%nat →
  all_lists yield fuel c (last_or (bptrs L) (Some (frequencies c))) s
  = Ok (feed yield (pairs (all_ents (reverse L))) s).1.
Proof.
  revert fuel nxt s. induction L as [|[pb fb esb] L IH] using rev_ind;
    intros fuel nxt s Hseg Hs Hfuel.
  - destruct fuel; cbn; by rewrite bool_decide_eq_true_2.
  - rewrite bptrs_app, bptrs_cons, bptrs_nil, last_or_snoc. cbn [b_ptr].
    apply bseg_app in Hseg as (HL & Hb & Hvb & _). cbn [b_ptr b_freq b_ents] in *.
    rewrite bptrs_app, bptrs_cons in Hs. apply not_elem_of_app in Hs as [HsL Hsb].
    apply not_elem_of_cons in Hsb as [Hsb _].
    rewrite length_app, all_ents_app, length_app, all_ents_cons in Hfuel.
    cbn [b_ents length all_ents mbind list_bind app] in Hfuel.
    rewrite app_nil_r in Hfuel.
    destruct fuel as [|fuel]; [lia|].
    cbn [all_lists]. rewrite bool_decide_eq_false_2 by done.
    rewrite Hb. cbn [nl_first nl_prev].
    rewrite (all_values_spec _ _ pb None) by (done || lia).
    rewrite reverse_snoc, all_ents_cons. cbn [b_ents].
    unfold pairs at 2. rewrite fmap_app. fold (pairs esb). fold (pairs (all_ents (reverse L))).
    rewrite feed_app.
    destruct (feed yield (pairs esb) s) as [s' [|]]; [|done].
    apply (IH fuel _ s' HL HsL). lia.
Qed.

Lemma All_rep fuel L c (s : S) :
  rep L c → (length L + length (all_ents L) ≤ fuel)%nat →
  All yield fuel c s = Ok (feed yield (pairs_of L) s).1.
Proof.
  intros (((Hs & _ & Hseg) & Hnd & _) & _) Hfuel.
  unfold All. cbn [b_ptr sentinel_bkt] in Hs. rewrite Hs. cbn [nl_prev].
  cbn [bptrs fmap list_fmap sentinel_bkt b_ptr] in Hnd.
  apply NoDup_cons in Hnd as [Hs' _].
  cbn [sentinel_bkt b_ptr] in Hseg.
  destruct L as [|b0 L0] eqn:HL.
  - cbn. by destruct fuel.
  - rewrite <- HL in *.
    replace (last_or (bptrs L) None) with (last_or (bptrs L) (Some (frequencies c))).
    + by eapply all_lists_spec.
    + subst L. by rewrite !bptrs_cons, !last_or_cons.
Qed.

End Iter.

End Observe.

(** ** The history of a session *)

Section History.
Context {K : Type} `{Countable K} {V : Type}.
Variable zeroVal : V.
Implicit Types (es : list (ent K V)) (bs L : list (bkt K V)).
Implicit Types (e : ent K V) (b : bkt K V).
Implicit Types (c : cacheImpl K V) (o : op K V) (ops : list (op K V)).

Lemma run_snoc ops o c :
  run zeroVal (ops ++ [o]) c =
  match run zeroVal ops c with
  | Ok c' => step zeroVal o c'
  | Panic p => Panic p
  | OutOfFuel => OutOfFuel
  end.
Proof.
  revert c. induction ops as [|o' ops IH]; intros c; cbn.
  - by destruct (step zeroVal o c).
  - destruct (step zeroVal o' c); [apply IH|done..].
Qed.

Lemma last_touch_from_snoc n ops o k :
  last_touch_from n (ops ++ [o]) k
  = if touches o k then Datatypes.S (n + length ops) else last_touch_from n ops k.
Proof.
  revert n. induction ops as [|o' ops IH]; intros n; cbn.
  - rewrite Nat.add_0_r. by destruct (touches o k).
  - rewrite IH. destruct (touches o k); [|done].
    by rewrite Nat.add_succ_r.
Qed.

Lemma last_touch_from_le n ops k : (last_touch_from n ops k ≤ n + length ops)%nat.
Proof.
  revert n. induction ops as [|o ops IH]; intros n; cbn; [lia|].
  specialize (IH (Datatypes.S n)).
  destruct (last_touch_from (Datatypes.S n) ops k); [|lia].
  destruct (touches o k); lia.
Qed.

Lemma last_touch_snoc ops o k :
  last_touch (ops ++ [o]) k
  = if touches o k then Datatypes.S (length ops) else last_touch ops k.
Proof. apply last_touch_from_snoc. Qed.

Lemma last_touch_le ops k : (last_touch ops k ≤ length ops)%nat.
Proof. apply (last_touch_from_le 0). Qed.

Lemma newer_snoc_other ops o e1 e2 :
  touches o (e_key e1) = false → touches o (e_key e2) = false →
  newer ops e1 e2 → newer (ops ++ [o]) e1 e2.
Proof. unfold newer. rewrite !last_touch_snoc. by intros -> ->. Qed.

Lemma newer_snoc_touched ops o e1 e2 :
  touches o (e_key e1) = true → touches o (e_key e2) = false →
  newer (ops ++ [o]) e1 e2.
Proof.
  unfold newer. rewrite !last_touch_snoc. intros -> ->.
  pose proof (last_touch_le ops (e_key e2)). lia.
Qed.

Lemma sorted_untouched ops o es :
  Forall (λ e, touches o (e_key e) = false) es →
  StronglySorted (newer ops) es → StronglySorted (newer (ops ++ [o])) es.
Proof.
  intros Hun Hs. induction Hs as [|e es Hs IH Hall]; [constructor|].
  apply Forall_cons in Hun as [He Hun]. constructor; [by apply IH|].
  rewrite Forall_forall in Hall, Hun |- *. intros e' He'.
  apply newer_snoc_other; auto.
Qed.

Lemma sorted_front ops o e es :
  touches o (e_key e) = true →
  Forall (λ e, touches o (e_key e) = false) es →
  StronglySorted (newer ops) es →
  StronglySorted (newer (ops ++ [o])) (e :: es).
Proof.
  intros He Hun Hs. constructor; [by apply sorted_untouched|].
  rewrite Forall_forall in Hun |- *. intros e' He'.
  apply newer_snoc_touched; auto.
Qed.

Lemma recency_untouched ops o L :
  Forall (λ e, touches o (e_key e) = false) (all_ents L) →
  recency ops L → recency (ops ++ [o]) L.
Proof.
  unfold recency. rewrite !Forall_forall. intros Hun Hr b Hb.
  apply sorted_untouched; [|by apply Hr].
  apply Forall_forall. intros e He. apply Hun. apply elem_of_all_ents. eauto.
Qed.

Lemma recency_evicted ops L : recency ops L → recency ops (evicted L).
Proof.
  intros Hr. destruct L as [|b bs]; [done|]. cbn.
  apply Forall_cons in Hr as [Hb Hbs]. apply Forall_app. split; [|done].
  destruct (b_ents b) as [|e es _] using rev_ind; [constructor|].
  rewrite removelast_last. apply StronglySorted_app_1_l in Hb.
  destruct es as [|e0 es]; [constructor|].
  constructor; [exact Hb|constructor].
Qed.

Lemma recency_inserted ops o pn e L :
  touches o (e_key e) = true →
  Forall (λ e, touches o (e_key e) = false) (all_ents L) →
  recency ops L → recency (ops ++ [o]) (inserted pn e L).
Proof.
  intros He Hun Hr.
  pose proof (recency_untouched _ _ _ Hun Hr) as Hr'.
  destruct L as [|b bs]; cbn.
  - constructor; [cbn; repeat constructor|constructor].
  - destruct (_ =? _); [|constructor; [cbn; repeat constructor|done]].
    apply Forall_cons in Hr as [Hb Hbs]. apply Forall_cons in Hr' as [_ Hbs'].
    constructor; [|done]. cbn.
    rewrite all_ents_cons in Hun. apply Forall_app in Hun as [Hunb _].
    by apply sorted_front.
Qed.

Lemma recency_bumped ops o pn bs1 b es1 e e' es2 bs2 :
  b_ents b = es1 ++ e :: es2 →
  touches o (e_key e') = true →
  Forall (λ e, touches o (e_key e) = false) (all_ents bs1 ++ es1 ++ es2 ++ all_ents bs2) →
  recency ops (bs1 ++ b :: bs2) →
  recency (ops ++ [o]) (bumped pn bs1 b es1 e' es2 bs2).
Proof.
  intros Hb He' Hun Hr.
  apply Forall_app in Hun as (Hun1 & (Hune1 & (Hune2 & Hun2)%Forall_app)%Forall_app).
  apply Forall_app in Hr as (Hr1 & (Hrb & Hr2)%Forall_cons).
  rewrite Hb in Hrb.
  unfold bumped. repeat apply Forall_app_2.
  - by apply recency_untouched.
  - assert (Hsort : StronglySorted (newer (ops ++ [o])) (es1 ++ es2)).
    { apply sorted_untouched; [by apply Forall_app|].
      apply StronglySorted_app in Hrb as (Hx & Hs1 & Hs2).
      apply StronglySorted_cons in Hs2 as (_ & Hs2).
      apply StronglySorted_app_2; [|done..].
      intros x1 x2 Hx1 Hx2. apply Hx; [done|]. by apply list_elem_of_further. }
    destruct (es1 ++ es2); [constructor|].
    constructor; [exact Hsort|constructor].
  - destruct bs2 as [|b2 bs2]; cbn;
      [constructor; [cbn; repeat constructor|constructor]|].
    apply Forall_cons in Hr2 as [Hb2 Hbs2].
    rewrite all_ents_cons in Hun2. apply Forall_app in Hun2 as [Hunb2 Hunbs2].
    destruct (_ =? _).
    + constructor; [|by apply recency_untouched]. cbn. by apply sorted_front.
    + constructor; [cbn; repeat constructor|].
      constructor; [by apply sorted_untouched|by apply recency_untouched].
Qed.

(** *** The order of frequencies *)

Lemma freq_inv_mono n m L : n ≤ m → freq_inv n L → freq_inv m L.
Proof.
  intros Hnm [Hs Hb]. split; [done|].
  eapply Forall_impl; [exact Hb|]. intros b ?. cbn in *. lia.
Qed.

Lemma freq_inv_evicted n L : freq_inv n L → freq_inv n (evicted L).
Proof.
  intros [Hs Hb]. destruct L as [|b bs]; [done|]. cbn.
  apply Forall_cons in Hb as [Hb Hbs]. cbn in Hs.
  destruct (removelast (b_ents b)); cbn.
  - apply StronglySorted_cons in Hs as [_ Hs]. done.
  - split; [done|]. by constructor.
Qed.

Lemma freq_inv_inserted n pn e L :
  0 ≤ n → freq_inv n L → freq_inv (n + 1) (inserted pn e L).
Proof.
  intros Hn [Hs Hb]. destruct L as [|b bs]; cbn.
  - split; repeat constructor; cbn; lia.
  - destruct (b_freq b =? 1) eqn:Hf.
    + split; [done|]. apply Forall_cons in Hb as [Hb1 Hbs].
      constructor; [cbn in *; lia|]. eapply Forall_impl; [exact Hbs|].
      intros ? ?; cbn in *; lia.
    + split.
      * cbn. constructor; [done|]. cbn in Hs.
        apply StronglySorted_cons in Hs as [Hall _].
        apply Forall_cons in Hb as [Hb1 Hbs].
        assert (1 < b_freq b) by lia.
        constructor; [done|]. eapply Forall_impl; [exact Hall|].
        intros ? ?; cbn in *; lia.
      * constructor; [cbn; lia|]. eapply Forall_impl; [exact Hb|].
        intros ? ?; cbn in *; lia.
Qed.

Lemma freq_inv_bumped n pn bs1 b es1 e es2 bs2 :
  n < max_int → freq_inv n (bs1 ++ b :: bs2) →
  freq_inv (n + 1) (bumped pn bs1 b es1 e es2 bs2).
Proof.
  intros Hn [Hs Hb].
  apply Forall_app in Hb as (Hb1 & (Hbb & Hb2)%Forall_cons).
  rewrite fmap_app, fmap_cons in Hs.
  apply StronglySorted_app in Hs as (Hx & Hs1 & Hs2).
  apply StronglySorted_cons in Hs2 as (Hbf & Hs2).
  assert (Hadd : int_add (b_freq b) 1 = b_freq b + 1).
  { apply int_add_small. unfold min_int, max_int, int_bits in *. lia. }
  assert (Hbound : ∀ l : list (bkt K V), Forall (λ b, 1 ≤ b_freq b ≤ n) l →
                   Forall (λ b, 1 ≤ b_freq b ≤ n + 1) l).
  { intros l Hl. eapply Forall_impl; [exact Hl|]. intros ? ?; cbn in *; lia. }
  assert (Hkeep : ∀ es, b_freq <$> keep_nonempty b es
                        = match es with [] => [] | _ => [b_freq b] end).
  { by intros []. }
  unfold bumped. split.
  - rewrite !fmap_app. apply StronglySorted_app_2; [|done|].
    + intros f1 f2 Hf1 Hf2. apply elem_of_app in Hf2 as [Hf2|Hf2].
      * rewrite Hkeep in Hf2. apply Hx; [done|].
        destruct (es1 ++ es2); [by apply elem_of_nil in Hf2|].
        apply list_elem_of_singleton in Hf2 as ->. apply list_elem_of_here.
      * assert (b_freq b < f2); [|etrans; [apply Hx; [done|apply list_elem_of_here]|done]].
        destruct bs2 as [|b2 bs2]; cbn in Hf2.
        -- apply list_elem_of_singleton in Hf2 as ->. lia.
        -- rewrite Forall_forall in Hbf.
           destruct (_ =? _); cbn in Hf2.
           ++ apply Hbf. exact Hf2.
           ++ apply elem_of_cons in Hf2 as [->|Hf2]; [lia|]. by apply Hbf.
    + assert (Htgt : StronglySorted Z.lt (b_freq <$> bump_target pn (b_freq b) e bs2)
                     ∧ Forall (Z.lt (b_freq b)) (b_freq <$> bump_target pn (b_freq b) e bs2)).
      { destruct bs2 as [|b2 bs2]; cbn.
        - split; repeat constructor. lia.
        - destruct (int_add (b_freq b) 1 =? b_freq b2) eqn:Hf; cbn.
          + done.
          + cbn in Hs2, Hbf. apply Forall_cons in Hbf as [Hbf1 Hbf2].
            pose proof Hs2 as [Hall _]%StronglySorted_cons.
            split.
            * constructor; [done|]. constructor; [lia|].
              eapply Forall_impl; [exact Hall|]. intros ? ?; cbn in *; lia.
            * repeat constructor; [lia|done..]. }
      destruct Htgt as [Ht1 Ht2].
      rewrite Hkeep. destruct (es1 ++ es2); [done|].
      cbn. by constructor.
  - repeat apply Forall_app_2.
    + by apply Hbound.
    + destruct (es1 ++ es2); constructor; [cbn in *; lia|constructor].
    + destruct bs2 as [|b2 bs2]; cbn.
      * repeat constructor; cbn in *; lia.
      * apply Forall_cons in Hb2 as [Hb21 Hb22].
        destruct (_ =? _); constructor; cbn in *; try lia; auto.
Qed.

(** *** The number of entries *)

Lemma length_all_ents_bumped pn bs1 b es1 e es2 bs2 e' :
  b_ents b = es1 ++ e :: es2 →
  length (all_ents (bumped pn bs1 b es1 e' es2 bs2))
  = length (all_ents (bs1 ++ b :: bs2)).
Proof.
  intros Hb. unfold bumped.
  rewrite !all_ents_app, all_ents_cons, all_ents_keep_nonempty, all_ents_bump_target, Hb.
  repeat (rewrite ?length_app; cbn [length]). lia.
Qed.

Lemma length_all_ents_evicted L :
  Forall (λ b, b_ents b ≠ []) L →
  length (all_ents (evicted L)) = pred (length (all_ents L)).
Proof.
  intros Hne. destruct L as [|[pb fb esb] bs]; [done|].
  apply Forall_cons in Hne as [Hb _]. cbn in Hb.
  destruct esb as [|e es _] using rev_ind; [done|].
  rewrite (evicted_snoc _ es e) by done.
  rewrite all_ents_app, all_ents_keep_nonempty, all_ents_cons. cbn [b_ents].
  repeat (rewrite ?length_app; cbn [length]). lia.
Qed.

Lemma length_all_ents_inserted pn e L :
  length (all_ents (inserted pn e L)) = Datatypes.S (length (all_ents L)).
Proof. by rewrite all_ents_inserted. Qed.

End History.

(** ** The invariant of a session *)

Section Session.
Context {K : Type} `{Countable K} {V : Type}.
Variable zeroVal : V.
Implicit Types (es : list (ent K V)) (bs L : list (bkt K V)).
Implicit Types (e : ent K V) (b : bkt K V).
Implicit Types (c : cacheImpl K V) (o : op K V) (ops : list (op K V)).

Lemma rep_find L c k q :
  rep L c → mp c !! k = Some q →
  ∃ bs1 b es1 e es2 bs2,
    L = bs1 ++ b :: bs2 ∧ b_ents b = es1 ++ e :: es2 ∧ e_key e = k ∧ e_ptr e = q.
Proof.
  intros (_ & _ & _ & Hmp) Hk. apply Hmp in Hk as (e & He & Hek & Heq).
  apply elem_of_all_ents in He as (b & Hb & He).
  apply list_elem_of_split in Hb as (bs1 & bs2 & ->).
  apply list_elem_of_split in He as (es1 & es2 & Hes).
  by exists bs1, b, es1, e, es2, bs2.
Qed.

Lemma other_keys bs1 b es1 e es2 bs2 :
  NoDup (e_key <$> all_ents (bs1 ++ b :: bs2)) →
  b_ents b = es1 ++ e :: es2 →
  Forall (λ e0, e_key e0 ≠ e_key e) (all_ents bs1 ++ es1 ++ es2 ++ all_ents bs2).
Proof.
  intros Hnd Hb.
  rewrite all_ents_app, all_ents_cons, Hb in Hnd.
  rewrite !fmap_app, fmap_cons in Hnd.
  apply NoDup_app in Hnd as (_ & Hx1 & Hnd).
  apply NoDup_app in Hnd as (Hnd & Hx2 & _).
  apply NoDup_app in Hnd as (_ & Hx3 & Hnd).
  apply NoDup_cons in Hnd as (Hx4 & _).
  rewrite !Forall_app, !Forall_forall. split_and!; intros e0 He0 Heq.
  - apply (Hx1 (e_key e0)); [by apply list_elem_of_fmap_2|].
    rewrite Heq. apply elem_of_app. left.
    apply elem_of_app. right. apply list_elem_of_here.
  - apply (Hx3 (e_key e0)); [by apply list_elem_of_fmap_2|].
    rewrite Heq. apply list_elem_of_here.
  - apply Hx4. rewrite <- Heq. by apply list_elem_of_fmap_2.
  - apply (Hx2 (e_key e)).
    + apply elem_of_app. right. apply list_elem_of_here.
    + rewrite <- Heq. by apply list_elem_of_fmap_2.
Qed.

Lemma untouched_get k es :
  Forall (λ e0, e_key e0 ≠ k) es →
  Forall (λ e0, touches (OpGet k : op K V) (e_key e0) = false) es.
Proof.
  intros Hf. eapply Forall_impl; [exact Hf|].
  intros e0 Hne. cbn. by apply bool_decide_eq_false_2.
Qed.

Lemma untouched_put k (v : V) es :
  Forall (λ e0, e_key e0 ≠ k) es →
  Forall (λ e0, touches (OpPut k v) (e_key e0) = false) es.
Proof.
  intros Hf. eapply Forall_impl; [exact Hf|].
  intros e0 Hne. cbn. by apply bool_decide_eq_false_2.
Qed.

Lemma absent_keys L c k :
  rep L c → mp c !! k = None → Forall (λ e0, e_key e0 ≠ k) (all_ents L).
Proof.
  intros Hrep Hk. apply Forall_forall. intros e0 He0 <-.
  by rewrite (rep_lookup_key _ _ _ Hrep He0) in Hk.
Qed.

Lemma all_ents_evicted_sub L e : e ∈ all_ents (evicted L) → e ∈ all_ents L.
Proof.
  destruct L as [|b bs]; [done|]. cbn [evicted].
  rewrite all_ents_app, all_ents_keep_nonempty, all_ents_cons, !elem_of_app.
  intros [He|He]; [left|by right].
  destruct (b_ents b) as [|el es _] using rev_ind; [done|].
  rewrite removelast_last in He. apply elem_of_app. by left.
Qed.

Lemma inv_untouched ops o L c :
  (∀ k, touches o k = false) → inv ops L c → inv (ops ++ [o]) L c.
Proof.
  intros Ho (Hrep & Hcap & Hsz & Hrec & Hfr). split_and!; try done.
  - apply recency_untouched; [|done]. apply Forall_forall. auto.
  - rewrite length_app. cbn [length]. intros Hlen.
    apply (freq_inv_mono (Z.of_nat (length ops))); [lia|]. apply Hfr. lia.
Qed.

Lemma inv_get_miss ops L c k :
  mp c !! k = None → inv ops L c → inv (ops ++ [OpGet k]) L c.
Proof.
  intros Hk (Hrep & Hcap & Hsz & Hrec & Hfr). split_and!; try done.
  - apply recency_untouched; [|done].
    apply untouched_get. by eapply absent_keys.
  - rewrite length_app. cbn [length]. intros Hlen.
    apply (freq_inv_mono (Z.of_nat (length ops))); [lia|]. apply Hfr. lia.
Qed.

Lemma inv_bumped ops o L c c' bs1 b es1 e e' es2 bs2 pn :
  inv ops L c → L = bs1 ++ b :: bs2 → b_ents b = es1 ++ e :: es2 →
  e_key e' = e_key e → touches o (e_key e) = true →
  (∀ k, k ≠ e_key e → touches o k = false) →
  rep (bumped pn bs1 b es1 e' es2 bs2) c' → capacity c' = capacity c →
  inv (ops ++ [o]) (bumped pn bs1 b es1 e' es2 bs2) c'.
Proof.
  intros (Hrep & Hcap & Hsz & Hrec & Hfr) -> Hb Hk Ht Hnt Hrep' Hcap'.
  split_and!; try done.
  - by rewrite Hcap'.
  - rewrite Hcap', (length_all_ents_bumped _ _ _ _ e) by done. done.
  - eapply recency_bumped; [done|by rewrite Hk| |done].
    destruct Hrep as (_ & _ & Hnd & _).
    eapply Forall_impl; [by eapply other_keys|]. cbn. auto.
  - rewrite length_app. cbn [length]. intros Hlen.
    replace (Z.of_nat (length ops + 1)) with (Z.of_nat (length ops) + 1) by lia.
    apply freq_inv_bumped; [lia|]. apply Hfr. lia.
Qed.

Lemma inv_inserted ops L c c' k (v : V) pn q :
  inv ops L c → mp c !! k = None →
  rep (inserted pn (mkEnt q k v) (if capacity c <=? Size c then evicted L else L)) c' →
  capacity c' = capacity c →
  inv (ops ++ [OpPut k v])
      (inserted pn (mkEnt q k v) (if capacity c <=? Size c then evicted L else L)) c'.
Proof.
  intros (Hrep & Hcap & Hsz & Hrec & Hfr) Hk Hrep' Hcap'.
  pose proof (rep_size _ _ Hrep) as Hsize.
  pose proof (absent_keys _ _ _ Hrep Hk) as Habs.
  destruct Hrep as (_ & Hne & _ & _).
  split_and!; try done.
  - by rewrite Hcap'.
  - rewrite Hcap', length_all_ents_inserted.
    destruct (Z.leb_spec (capacity c) (Size c)).
    + rewrite length_all_ents_evicted by done. lia.
    + lia.
  - apply recency_inserted.
    + cbn. by apply bool_decide_eq_true_2.
    + apply untouched_put. destruct (_ <=? _); [|done].
      apply Forall_forall. intros e0 He0%all_ents_evicted_sub.
      by rewrite Forall_forall in Habs; apply Habs.
    + destruct (_ <=? _); [by apply recency_evicted|done].
  - rewrite length_app. cbn [length]. intros Hlen.
    replace (Z.of_nat (length ops + 1)) with (Z.of_nat (length ops) + 1) by lia.
    apply freq_inv_inserted; [lia|].
    destruct (_ <=? _); [apply freq_inv_evicted|]; apply Hfr; lia.
Qed.

(** The chain never has more objects than the heap. *)
Lemma NoDup_bounded (l : list nat) n :
  NoDup l → (∀ x, x ∈ l → (x < n)%nat) → (length l ≤ n)%nat.
Proof.
  intros Hnd Hb.
  assert (l ⊆+ seq 0 n) as Hsub%submseteq_length.
  { apply NoDup_submseteq; [done|]. intros x Hx. apply elem_of_seq.
    specialize (Hb x Hx). lia. }
  by rewrite length_seq in Hsub.
Qed.

Lemma rep_counts L c :
  rep L c →
  (length L + length (all_ents L) ≤ length (lists c) + length (values c))%nat.
Proof.
  intros ((Hseg & Hndb & Hnde) & _).
  assert (length (bptrs (sentinel_bkt (frequencies c) :: L)) ≤ length (lists c))%nat
    as Hl.
  { apply NoDup_bounded; [done|]. intros x Hx. by eapply bseg_bound_l. }
  assert (length (eptrs (all_ents (sentinel_bkt (frequencies c) :: L)))
          ≤ length (values c))%nat as Hv.
  { apply NoDup_bounded; [done|]. intros x Hx. by eapply bseg_bound_v. }
  rewrite all_ents_cons in Hv. cbn [sentinel_bkt b_ents app] in Hv.
  unfold bptrs in Hl. unfold eptrs in Hv.
  rewrite length_fmap in Hl. rewrite length_fmap in Hv. cbn [length] in Hl. lia.
Qed.

Lemma New_inv (args : list Z) c0 :
  New args = Ok c0 → inv [] [] c0.
Proof.
  intros HN.
  assert (Hargs : match args with [] => True | a :: _ => 0 ≤ a end).
  { destruct args as [|a rest]; [done|]. cbn in HN.
    destruct (Z.ltb_spec a 0); [done|lia]. }
  destruct (New_rep (K:=K) (V:=V) args Hargs) as (c & HN' & Hrep & Hcap).
  rewrite HN in HN'. injection HN' as <-.
  split_and!; try done.
  - unfold Capacity in Hcap. rewrite Hcap.
    destruct args; [by unfold DefaultCapacity|done].
  - cbn. lia.
  - constructor.
  - intros _. split; constructor.
Qed.

(** Every call on a cache that satisfies the invariant returns, and the
    cache it leaves satisfies the invariant of the longer history. *)
Lemma step_inv ops L c o :
  inv ops L c →
  ∃ c' L', step zeroVal o c = Ok c' ∧ inv (ops ++ [o]) L' c'
    ∧ capacity c' = capacity c.
Proof.
  intros Hinv. pose proof Hinv as (Hrep & _).
  destruct o as [k|k v|y| | |k]; cbn [step].
  - destruct (mp c !! k) as [q|] eqn:Hk.
    + destruct (rep_find _ _ _ _ Hrep Hk)
        as (bs1 & b & es1 & e & es2 & bs2 & HL & Hb & <- & _).
      destruct (Get_hit zeroVal _ _ _ _ _ _ _ _ Hrep HL Hb)
        as (c' & HG & Hrep' & Hcap' & _).
      rewrite HG. eexists c', _. split; [done|]. split; [|done].
      apply (inv_bumped ops _ L c c' bs1 b es1 e e es2 bs2 (length (lists c)));
        try done.
      * cbn. by apply bool_decide_eq_true_2.
      * intros k Hne. cbn. by apply bool_decide_eq_false_2.
    + rewrite (Get_miss zeroVal _ _ Hk). exists c, L.
      split; [done|]. split; [by apply inv_get_miss|done].
  - destruct (mp c !! k) as [q|] eqn:Hk.
    + destruct (rep_find _ _ _ _ Hrep Hk)
        as (bs1 & b & es1 & e & es2 & bs2 & HL & Hb & <- & _).
      destruct (Put_hit zeroVal _ _ _ _ _ _ _ _ v Hrep HL Hb)
        as (c' & HP & Hrep' & Hcap' & _).
      rewrite HP. eexists c', _. split; [done|]. split; [|done].
      apply (inv_bumped ops _ L c c' bs1 b es1 e
               (mkEnt (e_ptr e) (e_key e) v) es2 bs2 (length (lists c))); try done.
      * cbn. by apply bool_decide_eq_true_2.
      * intros k Hne. cbn. by apply bool_decide_eq_false_2.
    + destruct (Put_new zeroVal _ _ k v Hrep Hk) as (c' & HP & Hrep' & Hcap' & _).
      rewrite HP. eexists c', _. split; [done|]. split; [|done].
      by apply inv_inserted.
  - rewrite (All_rep _ _ L) by (done || by apply rep_counts).
    exists c, L. split; [done|]. split; [by apply inv_untouched|done].
  - exists c, L. split; [done|]. split; [by apply inv_untouched|done].
  - exists c, L. split; [done|]. split; [by apply inv_untouched|done].
  - exists c, L. split; [|split; [by apply inv_untouched|done]].
    destruct (mp c !! k) as [q|] eqn:Hk.
    + destruct (rep_find _ _ _ _ Hrep Hk)
        as (bs1 & b & es1 & e & es2 & bs2 & HL & Hb & <- & _).
      assert (b ∈ L) as HbL.
      { subst L. apply elem_of_app. right. apply list_elem_of_here. }
      assert (e ∈ b_ents b) as Heb.
      { rewrite Hb. apply elem_of_app. right. apply list_elem_of_here. }
      by rewrite (GetKeyFrequency_hit L c b e).
    + by rewrite (GetKeyFrequency_miss _ _ Hk).
Qed.

Lemma run_inv c0 ops :
  inv [] [] c0 →
  ∃ c L, run zeroVal ops c0 = Ok c ∧ inv ops L c ∧ capacity c = capacity c0.
Proof.
  intros H0. induction ops as [|o ops IH] using rev_ind.
  - by exists c0, [].
  - destruct IH as (c & L & Hrun & Hinv & Hcap).
    destruct (step_inv ops L c o Hinv) as (c' & L' & Hstep & Hinv' & Hcap').
    exists c', L'. rewrite run_snoc, Hrun. split; [done|]. split; [done|congruence].
Qed.

(** A session that starts from an accepted construction returns, whatever
    the calls. *)
Lemma session_returns (args : list Z) ops c0 :
  New args = Ok c0 →
  ∃ c L, session zeroVal args ops = Ok c ∧ inv ops L c ∧ capacity c = capacity c0.
Proof.
  intros HN. unfold session. rewrite HN. apply run_inv. by eapply New_inv.
Qed.

Lemma session_inv (args : list Z) ops c :
  session zeroVal args ops = Ok c → ∃ L, inv ops L c.
Proof.
  unfold session. destruct (New args) as [c0| |] eqn:HN; [|done..].
  intros Hrun. destruct (run_inv c0 ops) as (c' & L & Hrun' & Hinv & _).
  { by eapply New_inv. }
  rewrite Hrun in Hrun'. injection Hrun' as <-. by exists L.
Qed.

End Session.

(** ** What a client can observe of the chain *)

Section Views.
Context {K : Type} `{Countable K} {V : Type}.
Variable zeroVal : V.
Implicit Types (es : list (ent K V)) (bs L : list (bkt K V)).
Implicit Types (e : ent K V) (b : bkt K V).
Implicit Types (c : cacheImpl K V) (o : op K V) (ops : list (op K V)).
Implicit Types (k : K) (v : V) (f : Z) (x : K * V * Z).

Lemma view_cons b bs : view (b :: bs) = view bs ++ tag b (b_ents b).
Proof. unfold view. rewrite reverse_cons, bind_app. cbn. by rewrite app_nil_r. Qed.

Lemma view_nil : view ([] : list (bkt K V)) = [].
Proof. done. Qed.

Lemma view_app (l1 l2 : list (bkt K V)) : view (l1 ++ l2) = view l2 ++ view l1.
Proof. unfold view. by rewrite reverse_app, bind_app. Qed.

Lemma tag_app b es1 es2 : tag b (es1 ++ es2) = tag b es1 ++ tag b es2.
Proof. unfold tag. by rewrite fmap_app. Qed.

Lemma view_keep_nonempty b es : view (keep_nonempty b es) = tag b es.
Proof. destruct es; [done|]. cbn [keep_nonempty]. by rewrite view_cons. Qed.

Lemma pairs_of_view L : pairs_of L = fst <$> view L.
Proof.
  unfold pairs_of, view, all_ents. generalize (reverse L). intros l.
  induction l as [|b l IH]; [done|]. cbn. rewrite !fmap_app, IH. f_equal.
  unfold tag. rewrite <- list_fmap_compose. done.
Qed.

Lemma length_view L : length (view L) = length (all_ents L).
Proof.
  induction L as [|b bs IH]; [done|].
  rewrite view_cons, all_ents_cons, !length_app, IH. unfold tag.
  rewrite length_fmap. lia.
Qed.

Lemma elem_of_tag b es x :
  x ∈ tag b es ↔ ∃ e, e ∈ es ∧ x = (e_key e, e_val e, b_freq b).
Proof. unfold tag. rewrite list_elem_of_fmap. naive_solver. Qed.

Lemma elem_of_view L x :
  x ∈ view L ↔ ∃ b e, b ∈ L ∧ e ∈ b_ents b ∧ x = (e_key e, e_val e, b_freq b).
Proof.
  unfold view. rewrite list_elem_of_bind. split.
  - intros (b & (e & He & ->)%elem_of_tag & Hb). rewrite elem_of_reverse in Hb.
    by exists b, e.
  - intros (b & e & Hb & He & ->). exists b. split; [|by apply elem_of_reverse].
    apply elem_of_tag. eauto.
Qed.

Lemma elem_of_view_inserted pn e L x :
  x ∈ view (inserted pn e L) ↔ x = (e_key e, e_val e, 1) ∨ x ∈ view L.
Proof.
  destruct L as [|b bs]; cbn [inserted].
  - rewrite view_cons, view_nil. cbn. rewrite list_elem_of_singleton. set_solver.
  - destruct (Z.eqb_spec (b_freq b) 1) as [Hf|Hf].
    + rewrite !view_cons, !elem_of_app. cbn [b_ents b_freq]. unfold tag at 1.
      cbn [fmap list_fmap b_freq]. rewrite elem_of_cons, Hf.
      unfold tag. rewrite Hf. tauto.
    + rewrite (view_cons (mkBkt _ _ _)), elem_of_app. cbn.
      rewrite list_elem_of_singleton. tauto.
Qed.

Lemma elem_of_view_bump_target pn f e bs x :
  x ∈ view (bump_target pn f e bs) ↔ x = (e_key e, e_val e, int_add f 1) ∨ x ∈ view bs.
Proof.
  destruct bs as [|b bs]; cbn [bump_target].
  - rewrite view_cons, view_nil. cbn. rewrite list_elem_of_singleton. set_solver.
  - destruct (Z.eqb_spec (int_add f 1) (b_freq b)) as [Hf|Hf].
    + rewrite !view_cons, !elem_of_app. cbn [b_ents b_freq]. unfold tag at 1.
      cbn [fmap list_fmap b_freq]. rewrite elem_of_cons, Hf.
      unfold tag. tauto.
    + rewrite (view_cons (mkBkt _ _ _)), elem_of_app. cbn.
      rewrite list_elem_of_singleton. tauto.
Qed.

Lemma elem_of_view_bumped pn bs1 b es1 e es2 bs2 x :
  x ∈ view (bumped pn bs1 b es1 e es2 bs2)
  ↔ x = (e_key e, e_val e, int_add (b_freq b) 1)
    ∨ x ∈ view bs1 ∨ x ∈ tag b (es1 ++ es2) ∨ x ∈ view bs2.
Proof.
  unfold bumped. rewrite !view_app, !elem_of_app, elem_of_view_bump_target,
    view_keep_nonempty. tauto.
Qed.

Lemma elem_of_view_split bs1 b es1 e es2 bs2 x :
  b_ents b = es1 ++ e :: es2 →
  x ∈ view (bs1 ++ b :: bs2)
  ↔ x = (e_key e, e_val e, b_freq b)
    ∨ x ∈ view bs1 ∨ x ∈ tag b (es1 ++ es2) ∨ x ∈ view bs2.
Proof.
  intros Hb. rewrite view_app, view_cons, Hb, !tag_app, !elem_of_app.
  unfold tag at 2. cbn [fmap list_fmap]. rewrite elem_of_cons. tauto.
Qed.

Lemma elem_of_view_evicted b es el bs x :
  b_ents b = es ++ [el] →
  x ∈ view (b :: bs)
  ↔ x = (e_key el, e_val el, b_freq b) ∨ x ∈ view (evicted (b :: bs)).
Proof.
  intros Hb. rewrite (evicted_snoc _ _ _ _ Hb), view_app, view_keep_nonempty.
  rewrite view_cons, Hb, tag_app, !elem_of_app. cbn.
  rewrite list_elem_of_singleton. tauto.
Qed.

(** *** What the operations' results say about the chain *)

Lemma rep_stored L c e :
  rep L c → e ∈ all_ents L → stored (e_key e) c = Some (e_val e).
Proof.
  intros Hrep He. unfold stored.
  rewrite (rep_lookup_key _ _ _ Hrep He). cbn.
  destruct Hrep as (Hch & _).
  destruct (linked_ent_lookup _ _ _ _ e Hch) as (n & p & o & Hv).
  { rewrite all_ents_cons. apply elem_of_app. by right. }
  by rewrite Hv.
Qed.

Lemma rep_observe L c k v f :
  rep L c → (k, v, f) ∈ view L →
  GetKeyFrequency k c = Ok (f, None) ∧ stored k c = Some v ∧ is_Some (mp c !! k).
Proof.
  intros Hrep (b & e & Hb & He & [= -> -> ->])%elem_of_view.
  assert (e ∈ all_ents L) as HeL by (apply elem_of_all_ents; eauto).
  split_and!.
  - by eapply GetKeyFrequency_hit.
  - by eapply rep_stored.
  - rewrite (rep_lookup_key _ _ _ Hrep HeL). eauto.
Qed.

Lemma rep_viewed L c k :
  rep L c → is_Some (mp c !! k) → ∃ v f, (k, v, f) ∈ view L.
Proof.
  intros Hrep [q Hq].
  destruct (rep_find _ _ _ _ Hrep Hq)
    as (bs1 & b & es1 & e & es2 & bs2 & -> & Hb & <- & _).
  exists (e_val e), (b_freq b). apply (elem_of_view_split _ _ _ _ _ _ _ Hb). by left.
Qed.

Lemma GetKeyFrequency_present c k f :
  GetKeyFrequency k c = Ok (f, None) → is_Some (mp c !! k).
Proof. unfold GetKeyFrequency. destruct (mp c !! k); [eauto|done]. Qed.

Lemma rep_frequency L c k f :
  rep L c → GetKeyFrequency k c = Ok (f, None) → ∃ v, (k, v, f) ∈ view L.
Proof.
  intros Hrep HG.
  destruct (rep_viewed L c k Hrep) as (v & f' & Hx).
  { by eapply GetKeyFrequency_present. }
  destruct (rep_observe _ _ _ _ _ Hrep Hx) as (HG' & _).
  rewrite HG in HG'. injection HG' as <-. eauto.
Qed.

Lemma view_functional L c k v1 f1 v2 f2 :
  rep L c → (k, v1, f1) ∈ view L → (k, v2, f2) ∈ view L → v1 = v2 ∧ f1 = f2.
Proof.
  intros Hrep (HG1 & Hs1 & _)%(rep_observe _ _ _ _ _ Hrep)
              (HG2 & Hs2 & _)%(rep_observe _ _ _ _ _ Hrep).
  split; congruence.
Qed.

Lemma rep_present_iff L c k :
  rep L c → is_Some (mp c !! k) ↔ ∃ v f, (k, v, f) ∈ view L.
Proof.
  intros Hrep. split; [by apply rep_viewed|].
  intros (v & f & Hx). by destruct (rep_observe _ _ _ _ _ Hrep Hx) as (_ & _ & ?).
Qed.

(** *** The order of the chain *)

Lemma view_sorted n ops L :
  freq_inv n L → recency ops L → StronglySorted (before ops) (view L).
Proof.
  intros [Hs _] Hr. induction L as [|b bs IH]; [constructor|].
  cbn in Hs. apply StronglySorted_cons in Hs as [Hlt Hs].
  apply Forall_cons in Hr as [Hb Hr].
  rewrite view_cons. apply StronglySorted_app_2.
  - intros x1 x2 (b1 & e1 & Hb1 & He1 & ->)%elem_of_view (e2 & He2 & ->)%elem_of_tag.
    left. cbn. rewrite Forall_forall in Hlt.
    assert (b_freq b < b_freq b1); [|lia].
    apply Hlt. by apply list_elem_of_fmap_2.
  - by apply IH.
  - unfold tag. apply (StronglySorted_fmap _ (newer ops)); [|done].
    intros e1 e2 Hn. right. cbn. split; [done|exact Hn].
Qed.

Lemma sorted_lookup {A} (R : relation A) (l : list A) i j a1 a2 :
  StronglySorted R l → (i < j)%nat → l !! i = Some a1 → l !! j = Some a2 → R a1 a2.
Proof.
  intros Hs. revert i j. induction Hs as [|a l Hs IH Hall]; intros i j Hij Hi Hj.
  - done.
  - destruct j as [|j]; [lia|]. cbn in Hj. destruct i as [|i].
    + injection Hi as <-. rewrite Forall_forall in Hall. apply Hall.
      by eapply list_elem_of_lookup_2.
    + cbn in Hi. apply (IH i j); [lia|done..].
Qed.

(** *** Consumers *)

Lemma feed_collect (ps acc : list (K * V)) :
  feed collect_yield ps acc = (acc ++ ps, true).
Proof.
  revert acc. induction ps as [|[k v] ps IH]; intros acc; cbn.
  - by rewrite app_nil_r.
  - rewrite IH. by rewrite <- app_assoc.
Qed.

Lemma feed_log cont (ps acc : list (K * V)) :
  (feed (log_yield cont) ps acc).1 = acc ++ offered cont ps.
Proof.
  revert acc. induction ps as [|[k v] ps IH]; intros acc; cbn.
  - by rewrite app_nil_r.
  - destruct (cont k v); [|done]. rewrite IH. by rewrite <- app_assoc.
Qed.

Lemma offered_prefix cont (ps : list (K * V)) : offered cont ps `prefix_of` ps.
Proof.
  induction ps as [|[k v] ps IH]; cbn; [done|].
  apply prefix_cons. destruct (cont k v); [done|apply prefix_nil].
Qed.

End Views.

(** ** The interface on reachable caches *)

Section Reachable.
Context {K : Type} `{Countable K} {V : Type}.
Variable zeroVal : V.
Implicit Types (es : list (ent K V)) (bs L : list (bkt K V)).
Implicit Types (e : ent K V) (b : bkt K V).
Implicit Types (c : cacheImpl K V) (o : op K V) (ops : list (op K V)).
Implicit Types (k : K) (v : V) (f : Z) (x : K * V * Z).

Lemma triple_inv k k' v v' f f' :
  (k, v, f) = (k', v', f') → k = k' ∧ v = v' ∧ f = f'.
Proof. by intros [= -> -> ->]. Qed.

Lemma view_key_ent L k v f :
  (k, v, f) ∈ view L → ∃ e, e ∈ all_ents L ∧ e_key e = k ∧ e_val e = v.
Proof.
  intros (b & e & Hb & He & [= -> -> ->])%elem_of_view.
  exists e. split; [|done]. apply elem_of_all_ents. eauto.
Qed.

Lemma rep_delLast_key b bs es el c :
  rep (b :: bs) c → b_ents b = es ++ [el] → delLast_key c = Some (e_key el).
Proof.
  intros Hrep Hb. pose proof Hrep as ((Hseg & _ & _) & _).
  cbn [bseg sentinel_bkt b_ptr b_ents b_freq bptrs fmap list_fmap first_or] in Hseg.
  destruct Hseg as (Hs & _ & Hbl & _).
  unfold delLast_key. rewrite Hs. cbn [mbind option_bind nl_next]. rewrite Hbl.
  cbn [mbind option_bind nl_last]. rewrite Hb.
  replace (eptrs (es ++ [el])) with (eptrs es ++ [e_ptr el])
    by (by rewrite eptrs_app).
  rewrite last_or_snoc.
  destruct Hrep as (Hch & _).
  destruct (linked_ent_lookup _ _ _ _ el Hch) as (n & p & o & Hv).
  { rewrite !all_ents_cons, Hb, !elem_of_app. right. left. right.
    apply list_elem_of_here. }
  cbn [mbind option_bind]. by rewrite Hv.
Qed.

(** A call of [Get] on a present key, on the chain. *)
Lemma Get_present L c k :
  rep L c → is_Some (mp c !! k) →
  ∃ v c' L',
    Get zeroVal k c = Ok ((v, None), c') ∧ stored k c = Some v
    ∧ rep L' c' ∧ mp c' = mp c ∧ capacity c' = capacity c.
Proof.
  intros Hrep [q Hq].
  destruct (rep_find _ _ _ _ Hrep Hq)
    as (bs1 & b & es1 & e & es2 & bs2 & HL & Hb & <- & _).
  destruct (Get_hit zeroVal _ _ _ _ _ _ _ _ Hrep HL Hb)
    as (c' & HG & Hrep' & Hcap' & Hmp' & _).
  eexists (e_val e), c', _. split_and!; try done.
  apply (rep_stored L); [done|]. subst L.
  rewrite all_ents_app, all_ents_cons, Hb, !elem_of_app. right. left. right.
  apply list_elem_of_here.
Qed.

Lemma Size_mp c c' : mp c' = mp c → Size c' = Size c.
Proof. unfold Size. by intros ->. Qed.

End Reachable.

(** ** The specification's claims *)

Section Claims.
Context {K : Type} `{Countable K} {V : Type}.
Variable zeroVal : V.
Implicit Types (es : list (ent K V)) (bs L : list (bkt K V)).
Implicit Types (e : ent K V) (b : bkt K V).
Implicit Types (c : cacheImpl K V) (o : op K V) (ops : list (op K V)).
Implicit Types (k : K) (v : V) (f : Z) (x : K * V * Z).

(** C1. On a reachable cache with positive capacity that is full, [Put] of
    an absent key [k] removes exactly one key [kv] and then inserts [k]:
    [kv] is the key at the tail of the first frequency list (the one
    [delLast] reads), no present key has a lower frequency, every other key
    of the same frequency was touched later, all other keys stay with their
    frequency, and [k] is present afterwards with frequency 1 and the value
    put.  The session is shorter than the largest [int], so that no
    frequency counter has wrapped. *)
Theorem put_full_evicts_lfu_lru (args : list Z) ops c k v :
  session zeroVal args ops = Ok c →
  Z.of_nat (length ops) ≤ max_int →
  0 < Capacity c → Size c = Capacity c → mp c !! k = None →
  ∃ c' kv fv,
    Put zeroVal k v c = Ok (tt, c')
    ∧ delLast_key c = Some kv
    ∧ GetKeyFrequency kv c = Ok (fv, None)
    ∧ (∀ k' f', GetKeyFrequency k' c = Ok (f', None) → fv ≤ f')
    ∧ (∀ k', k' ≠ kv → GetKeyFrequency k' c = Ok (fv, None) →
         (last_touch ops kv < last_touch ops k')%nat)
    ∧ (∀ k', is_Some (mp c' !! k') ↔ k' = k ∨ (k' ≠ kv ∧ is_Some (mp c !! k')))
    ∧ (∀ k' f', k' ≠ kv → GetKeyFrequency k' c = Ok (f', None) →
         GetKeyFrequency k' c' = Ok (f', None))
    ∧ Size c' = Size c
    ∧ GetKeyFrequency k c' = Ok (1, None)
    ∧ stored k c' = Some v.
Proof.
  intros Hs Hlen Hcap Hfull Hk.
  destruct (session_inv _ _ _ _ Hs) as (L & Hrep & Hc0 & Hsz & Hrec & Hfr).
  specialize (Hfr Hlen). pose proof (rep_size _ _ Hrep) as Hsize.
  unfold Capacity in *.
  destruct L as [|b bs]; [cbn in Hsize; lia|].
  pose proof Hrep as (_ & Hne & Hnd & _).
  apply Forall_cons in Hne as [Hbne Hne].
  destruct (b_ents b) as [|el es _] eqn:Hb using rev_ind; [done|]. clear Hbne.
  destruct (Put_new zeroVal _ _ k v Hrep Hk) as (c' & HP & Hrep' & Hcap' & _).
  replace (capacity c <=? Size c) with true in Hrep' by (symmetry; apply Z.leb_le; lia).
  set (pn := length (lists c)) in *. set (e := mkEnt (length (values c)) k v) in *.
  assert (Hoth : Forall (λ e0, e_key e0 ≠ e_key el) (es ++ all_ents bs))
    by exact (other_keys [] b es el [] bs Hnd Hb).
  assert (Hev : all_ents (evicted (b :: bs)) = es ++ all_ents bs).
  { by rewrite (evicted_snoc _ _ _ _ Hb), all_ents_app, all_ents_keep_nonempty. }
  assert (Hsurv : ∀ k' v' f', k' ≠ e_key el →
            (k', v', f') ∈ view (b :: bs) → (k', v', f') ∈ view (evicted (b :: bs))).
  { intros k' v' f' Hne' [[= -> -> ->]|Hx]%(elem_of_view_evicted _ _ _ _ _ Hb); done. }
  assert (Hhead : (e_key el, e_val el, b_freq b) ∈ view (b :: bs)).
  { apply (elem_of_view_evicted _ _ _ _ _ Hb). by left. }
  assert (Hnew : (k, v, 1) ∈ view (inserted pn e (evicted (b :: bs)))).
  { apply elem_of_view_inserted. by left. }
  destruct Hfr as [Hsorted _]. cbn in Hsorted.
  apply StronglySorted_cons in Hsorted as [Hlow _].
  rewrite Forall_forall in Hlow.
  apply Forall_cons in Hrec as [Hrb _]. rewrite Hb in Hrb.
  apply StronglySorted_app in Hrb as (Hnewer & _ & _).
  exists c', (e_key el), (b_freq b). split_and!.
  - done.
  - by eapply rep_delLast_key.
  - by destruct (rep_observe _ _ _ _ _ Hrep Hhead).
  - intros k' f' (v' & Hx)%(rep_frequency _ _ _ _ Hrep).
    apply elem_of_view in Hx as (b' & e' & Hb' & _ & (_ & _ & ->)%triple_inv).
    apply elem_of_cons in Hb' as [->|Hb'].
    + lia.
    + assert (b_freq b < b_freq b'); [|lia]. apply Hlow. by apply list_elem_of_fmap_2.
  - intros k' Hne' (v' & Hx)%(rep_frequency _ _ _ _ Hrep).
    apply elem_of_view in Hx as (b' & e' & Hb' & He' & (-> & _ & Hf)%triple_inv).
    apply elem_of_cons in Hb' as [->|Hb'].
    + rewrite Hb in He'. apply elem_of_app in He' as [He'|He'].
      * apply (Hnewer e' el); [done|apply list_elem_of_here].
      * apply list_elem_of_singleton in He' as ->. done.
    + assert (b_freq b < b_freq b'); [|lia]. apply Hlow. by apply list_elem_of_fmap_2.
  - intros k'. rewrite (rep_present_iff _ _ _ Hrep'), (rep_present_iff _ _ _ Hrep). split.
    + intros (v' & f' & [[= -> _ _]|Hx]%elem_of_view_inserted); [by left|right].
      split.
      * destruct (view_key_ent _ _ _ _ Hx) as (e0 & He0 & <- & _).
        rewrite Hev in He0. rewrite Forall_forall in Hoth. by apply Hoth.
      * exists v', f'. apply (elem_of_view_evicted _ _ _ _ _ Hb). by right.
    + intros [->|(Hne' & v' & f' & Hx)]; [by exists v, 1|].
      exists v', f'. apply elem_of_view_inserted. right. by apply Hsurv.
  - intros k' f' Hne' (v' & Hx)%(rep_frequency _ _ _ _ Hrep).
    apply (rep_observe _ _ _ v' _ Hrep'). apply elem_of_view_inserted. right.
    by apply Hsurv.
  - rewrite (rep_size _ _ Hrep'), Hsize, length_all_ents_inserted, Hev.
    rewrite all_ents_cons, Hb. repeat (rewrite ?length_app; cbn [length]). lia.
  - by destruct (rep_observe _ _ _ _ _ Hrep' Hnew).
  - by destruct (rep_observe _ _ _ _ _ Hrep' Hnew) as (_ & ? & _).
Qed.

(** C2. On a reachable cache, with a budget that covers the heap, [All]
    returns; it offers exactly [Size()] pairs, all of them present keys
    with their stored value; a pair offered earlier has a frequency at
    least as high as one offered later, and when the two are equal the
    earlier one was touched later; a consumer that answers false is offered
    nothing after that.  The session is shorter than the largest [int]. *)
Theorem all_descending_then_recent (args : list Z) ops c :
  session zeroVal args ops = Ok c →
  Z.of_nat (length ops) ≤ max_int →
  ∃ ps,
    (∀ fuel, (length (lists c) + length (values c) ≤ fuel)%nat →
       All collect_yield fuel c [] = Ok ps)
    ∧ Z.of_nat (length ps) = Size c
    ∧ (∀ k v, (k, v) ∈ ps →
         stored k c = Some v ∧ ∃ f, GetKeyFrequency k c = Ok (f, None))
    ∧ (∀ i j k1 v1 k2 v2 f1 f2,
         (i < j)%nat → ps !! i = Some (k1, v1) → ps !! j = Some (k2, v2) →
         GetKeyFrequency k1 c = Ok (f1, None) →
         GetKeyFrequency k2 c = Ok (f2, None) →
         f2 ≤ f1 ∧ (f1 = f2 → (last_touch ops k2 < last_touch ops k1)%nat))
    ∧ (∀ cont fuel, (length (lists c) + length (values c) ≤ fuel)%nat →
         All (log_yield cont) fuel c [] = Ok (offered cont ps)).
Proof.
  intros Hs Hlen.
  destruct (session_inv _ _ _ _ Hs) as (L & Hrep & Hc0 & Hsz & Hrec & Hfr).
  specialize (Hfr Hlen). pose proof (rep_counts _ _ Hrep) as Hcount.
  exists (pairs_of L). split_and!.
  - intros fuel Hfuel. rewrite (All_rep _ _ L) by (done || lia).
    by rewrite feed_collect.
  - by rewrite pairs_of_view, length_fmap, length_view, (rep_size _ _ Hrep).
  - intros k v. rewrite pairs_of_view.
    intros ([[k' v'] f] & [= <- <-] & Hx)%list_elem_of_fmap.
    destruct (rep_observe _ _ _ _ _ Hrep Hx) as (HG & Hst & _). eauto.
  - intros i j k1 v1 k2 v2 f1 f2 Hij Hi Hj HG1 HG2.
    rewrite pairs_of_view in Hi, Hj.
    apply list_lookup_fmap_Some in Hi as ([[k1' v1'] f1'] & Heq1 & Hi).
    apply list_lookup_fmap_Some in Hj as ([[k2' v2'] f2'] & Heq2 & Hj).
    cbn in Heq1, Heq2. injection Heq1 as -> ->. injection Heq2 as -> ->.
    destruct (rep_observe _ _ _ _ _ Hrep (list_elem_of_lookup_2 _ _ _ Hi)) as (HG1' & _).
    destruct (rep_observe _ _ _ _ _ Hrep (list_elem_of_lookup_2 _ _ _ Hj)) as (HG2' & _).
    rewrite HG1 in HG1'. rewrite HG2 in HG2'.
    injection HG1' as <-. injection HG2' as <-.
    pose proof (sorted_lookup _ _ _ _ _ _ (view_sorted _ _ _ Hfr Hrec) Hij Hi Hj)
      as [Hlt|[Heq Hlt]]; cbn in *; [lia|]. split; [lia|done].
  - intros cont fuel Hfuel. rewrite (All_rep _ _ L) by (done || lia).
    by rewrite feed_log.
Qed.

(** C3. On a reachable cache, for a key [k] with frequency [f], [Get]
    returns the stored value without an error, leaves [Size()] as it was
    and makes the frequency [f + 1]; [Put] on [k] stores the new value and
    makes the frequency [f + 1] as well.  The session is shorter than the
    largest [int], so that [f + 1] does not wrap. *)
Theorem hit_bumps_frequency (args : list Z) ops c k f :
  session zeroVal args ops = Ok c →
  Z.of_nat (length ops) < max_int →
  GetKeyFrequency k c = Ok (f, None) →
  (∃ v c',
     stored k c = Some v
     ∧ Get zeroVal k c = Ok ((v, None), c')
     ∧ Size c' = Size c
     ∧ GetKeyFrequency k c' = Ok (f + 1, None))
  ∧ (∀ v', ∃ c',
       Put zeroVal k v' c = Ok (tt, c')
       ∧ stored k c' = Some v'
       ∧ Size c' = Size c
       ∧ GetKeyFrequency k c' = Ok (f + 1, None)).
Proof.
  intros Hs Hlen HG.
  destruct (session_inv _ _ _ _ Hs) as (L & Hrep & Hc0 & Hsz & Hrec & Hfr).
  destruct Hfr as [_ Hbound]; [lia|].
  destruct (GetKeyFrequency_present _ _ _ HG) as [q Hq].
  destruct (rep_find _ _ _ _ Hrep Hq)
    as (bs1 & b & es1 & e & es2 & bs2 & HL & Hb & <- & _).
  assert (Hx : (e_key e, e_val e, b_freq b) ∈ view L).
  { subst L. apply (elem_of_view_split _ _ _ _ _ _ _ Hb). by left. }
  destruct (rep_observe _ _ _ _ _ Hrep Hx) as (HG' & Hst & _).
  rewrite HG in HG'. injection HG' as ->.
  assert (Hadd : int_add (b_freq b) 1 = b_freq b + 1).
  { rewrite Forall_forall in Hbound.
    assert (1 ≤ b_freq b ≤ Z.of_nat (length ops)) as Hf.
    { apply Hbound. subst L. apply elem_of_app. right. apply list_elem_of_here. }
    apply int_add_small. unfold min_int, max_int, int_bits in *. lia. }
  split.
  - destruct (Get_hit zeroVal _ _ _ _ _ _ _ _ Hrep HL Hb)
      as (c' & HGet & Hrep' & _ & Hmp' & _).
    exists (e_val e), c'. split_and!; [done..|by apply Size_mp|].
    rewrite <- Hadd. apply (rep_observe _ _ _ (e_val e) _ Hrep').
    apply elem_of_view_bumped. by left.
  - intros v'.
    destruct (Put_hit zeroVal _ _ _ _ _ _ _ _ v' Hrep HL Hb)
      as (c' & HPut & Hrep' & _ & Hmp' & _).
    assert (Hx' : (e_key e, v', int_add (b_freq b) 1)
                  ∈ view (bumped (length (lists c)) bs1 b es1
                            (mkEnt (e_ptr e) (e_key e) v') es2 bs2)).
    { apply elem_of_view_bumped. by left. }
    destruct (rep_observe _ _ _ _ _ Hrep' Hx') as (HG' & Hst' & _).
    exists c'. split_and!; [done..|by apply Size_mp|by rewrite <- Hadd].
Qed.

(** C5. On any cache, for a key that the index does not hold, [Get]
    returns the zero value with [ErrKeyNotFound], [GetKeyFrequency] returns
    0 with [ErrKeyNotFound], and the cache [Get] leaves is the cache it was
    given: the size, every key's value and frequency and what [All] offers
    are as before. *)
Theorem miss_changes_nothing c k :
  mp c !! k = None →
  ∃ c',
    Get zeroVal k c = Ok ((zeroVal, Some ErrKeyNotFound), c')
    ∧ GetKeyFrequency k c = Ok (0, Some ErrKeyNotFound)
    ∧ c' = c
    ∧ Size c' = Size c
    ∧ (∀ k', stored k' c' = stored k' c)
    ∧ (∀ k', GetKeyFrequency k' c' = GetKeyFrequency k' c)
    ∧ (∀ fuel, All collect_yield fuel c' [] = All collect_yield fuel c []).
Proof.
  intros Hk. exists c. split_and!; try done.
  - by apply Get_miss.
  - by apply GetKeyFrequency_miss.
Qed.

(** C6. On a reachable cache, [Put] returns for every key and value, in
    particular not with the panic of its existing-key path; [delLast]
    returns; [All] returns for every consumer once its budget covers the
    heap; [Size] and [Capacity], which only read, return and leave the
    cache as it is. *)
Theorem put_size_capacity_all_total (args : list Z) ops c :
  session zeroVal args ops = Ok c →
  (∀ k v, ∃ c', Put zeroVal k v c = Ok (tt, c'))
  ∧ (∀ k v err, Put zeroVal k v c ≠ Panic (PanicError err))
  ∧ (∃ c', delLast c = Ok (tt, c'))
  ∧ (∀ (S : Type) (yield : S → K → V → S * bool) (s : S) fuel,
       (length (lists c) + length (values c) ≤ fuel)%nat →
       ∃ s', All yield fuel c s = Ok s')
  ∧ step zeroVal OpSize c = Ok c
  ∧ step zeroVal OpCapacity c = Ok c.
Proof.
  intros Hs.
  destruct (session_inv _ _ _ _ Hs) as (L & Hrep & _).
  assert (HPut : ∀ k v, ∃ c', Put zeroVal k v c = Ok (tt, c')).
  { intros k v. destruct (mp c !! k) as [q|] eqn:Hk.
    - destruct (rep_find _ _ _ _ Hrep Hk)
        as (bs1 & b & es1 & e & es2 & bs2 & HL & Hb & <- & _).
      destruct (Put_hit zeroVal _ _ _ _ _ _ _ _ v Hrep HL Hb) as (c' & HP & _).
      eauto.
    - destruct (Put_new zeroVal _ _ k v Hrep Hk) as (c' & HP & _). eauto. }
  split_and!; try done.
  - intros k v err. destruct (HPut k v) as (c' & ->). done.
  - destruct (delLast_rep _ _ Hrep) as (c' & Hd & _). eauto.
  - intros S yield s fuel Hfuel. pose proof (rep_counts _ _ Hrep).
    rewrite (All_rep _ _ L) by (done || lia). eauto.
Qed.

(** C8. [New()] gives a cache of capacity 5; [New] with a negative first
    argument panics; [New] with a first argument that is not negative gives
    a cache of that capacity. *)
Theorem New_capacity :
  (∃ c : cacheImpl K V, New [] = Ok c ∧ Capacity c = 5)
  ∧ (∀ n rest, n < 0 →
       New (K:=K) (V:=V) (n :: rest) = Panic (PanicString "Capacity must be positive."))
  ∧ (∀ n rest, 0 ≤ n →
       ∃ c : cacheImpl K V, New (n :: rest) = Ok c ∧ Capacity c = n ∧ Size c = 0).
Proof.
  split_and!.
  - eexists. split; [reflexivity|done].
  - intros n rest Hn. cbn. by destruct (Z.ltb_spec n 0); [|lia].
  - intros n rest Hn. cbn. destruct (Z.ltb_spec n 0); [lia|].
    eexists. split; [reflexivity|done].
Qed.

(** C9. On a reachable cache, [Get] of any key, and [Put] on a key that is
    present, leave the set of present keys as it was. *)
Theorem hit_keeps_keys (args : list Z) ops c k :
  session zeroVal args ops = Ok c →
  (∃ r c', Get zeroVal k c = Ok (r, c') ∧ dom (mp c') = dom (mp c))
  ∧ (is_Some (mp c !! k) →
     ∀ v, ∃ c', Put zeroVal k v c = Ok (tt, c') ∧ dom (mp c') = dom (mp c)).
Proof.
  intros Hs.
  destruct (session_inv _ _ _ _ Hs) as (L & Hrep & _). split.
  - destruct (mp c !! k) as [q|] eqn:Hk.
    + destruct (Get_present zeroVal L c k Hrep) as (v & c' & L' & HG & _ & _ & Hmp & _);
        [by rewrite Hk|].
      exists (v, None), c'. by rewrite Hmp.
    + exists (zeroVal, Some ErrKeyNotFound), c. by rewrite (Get_miss zeroVal _ _ Hk).
  - intros [q Hk] v.
    destruct (rep_find _ _ _ _ Hrep Hk)
      as (bs1 & b & es1 & e & es2 & bs2 & HL & Hb & <- & _).
    destruct (Put_hit zeroVal _ _ _ _ _ _ _ _ v Hrep HL Hb)
      as (c' & HP & _ & _ & Hmp & _).
    exists c'. by rewrite Hmp.
Qed.

(** C10. On a reachable cache constructed with capacity 0, [Put] of an
    absent key returns; afterwards the size is 1, the key put is the only
    key present, and [Get] returns the value put. *)
Theorem zero_capacity_keeps_last_put (rest : list Z) ops c k v :
  session zeroVal (0 :: rest) ops = Ok c →
  mp c !! k = None →
  ∃ c',
    Put zeroVal k v c = Ok (tt, c')
    ∧ Capacity c' = 0
    ∧ Size c' = 1
    ∧ dom (mp c') = {[ k ]}
    ∧ ∃ c'', Get zeroVal k c' = Ok ((v, None), c'').
Proof.
  intros Hs Hk.
  destruct (session_returns zeroVal (0 :: rest) ops
              (mkCache 0 0%nat ∅ [mkNodeList 0 None None None None] []))
    as (c1 & L & Hs' & (Hrep & Hc0 & Hsz & _) & Hcap); [done|].
  rewrite Hs in Hs'. injection Hs' as <-. cbn in Hcap.
  pose proof (rep_size _ _ Hrep) as Hsize.
  destruct (Put_new zeroVal _ _ k v Hrep Hk) as (c' & HP & Hrep' & Hcap' & _).
  replace (capacity c <=? Size c) with true in Hrep' by (symmetry; apply Z.leb_le; lia).
  pose proof Hrep as (_ & Hne & _).
  assert (Hev : all_ents (evicted L) = []).
  { apply length_zero_iff_nil. rewrite length_all_ents_evicted by done. lia. }
  set (e := mkEnt (length (values c)) k v) in *.
  assert (Hall : all_ents (inserted (length (lists c)) e (evicted L)) = [e]).
  { by rewrite all_ents_inserted, Hev. }
  exists c'. split_and!.
  - done.
  - unfold Capacity. congruence.
  - by rewrite (rep_size _ _ Hrep'), Hall.
  - apply set_eq. intros k'.
    rewrite elem_of_dom, (rep_key_present _ _ _ Hrep'), Hall. cbn. set_solver.
  - destruct (Get_present zeroVal _ c' k Hrep')
      as (v' & c'' & L'' & HG & Hst & _).
    { rewrite (rep_key_present _ _ _ Hrep'), Hall. cbn. set_solver. }
    exists c''. rewrite HG.
    assert (stored k c' = Some v) as Hst'.
    { apply (rep_stored _ _ e Hrep'). rewrite Hall. apply list_elem_of_here. }
    congruence.
Qed.

End Claims.

(** ** Runs on integer keys and values *)

(** C4. [New(0)] is accepted, and after one [Put] the size is 1 while the
    capacity is 0: the size exceeds the capacity. *)
Theorem zero_capacity_size_exceeds_capacity :
  ∃ c, session 0 [0] [OpPut 1 10] = Ok c
    ∧ Capacity c = 0 ∧ Size c = 1 ∧ ¬ (Size c ≤ Capacity c).
Proof. eexists. split; [vm_compute; reflexivity|]. by vm_compute. Qed.

(** C7, as stated: [All] does not offer just the keys 5, 4, 3. *)
Lemma all_after_five_puts_is_not_three_pairs :
  ¬ (∀ c, session 0 [4] scenarioE = Ok c →
       All collect_yield (length (lists c) + length (values c)) c []
       = Ok [(5, 50); (4, 40); (3, 30)]).
Proof.
  assert (∃ c, session 0 [4] scenarioE = Ok c
            ∧ All collect_yield (length (lists c) + length (values c)) c []
              = Ok [(5, 50); (4, 40); (3, 30); (2, 20)]) as (c & Hs & HA).
  { eexists. split; vm_compute; reflexivity. }
  intros Hc. rewrite (Hc c Hs) in HA. discriminate.
Qed.

(** C7, amended. After the five calls key 1 is gone and [All] offers the
    four pairs of the keys 5, 4, 3, 2 in this order; the consumer of
    [TestIterator], which stops at key 2, keeps the first three. *)
Theorem all_after_five_puts :
  ∃ c, session 0 [4] scenarioE = Ok c
    ∧ All collect_yield (length (lists c) + length (values c)) c []
      = Ok [(5, 50); (4, 40); (3, 30); (2, 20)]
    ∧ All TestIterator_yield (length (lists c) + length (values c)) c []
      = Ok [(5, 50); (4, 40); (3, 30)]
    ∧ GetKeyFrequency 1 c = Ok (0, Some ErrKeyNotFound)
    ∧ Size c = 4.
Proof. eexists. split; [vm_compute; reflexivity|]. by vm_compute. Qed.

(** Capacity 2, keys 1 and 2 put, then key 3: key 1 goes. *)
Lemma put_full_evicts_lfu_lru_witness :
  ∃ c c',
    session 0 [2] [OpPut 1 10; OpPut 2 20] = Ok c
    ∧ 0 < Capacity c ∧ Size c = Capacity c ∧ mp c !! 3 = None
    ∧ Put 0 3 30 c = Ok (tt, c')
    ∧ delLast_key c = Some 1
    ∧ GetKeyFrequency 3 c' = Ok (1, None).
Proof.
  assert (∃ c, session 0 [2] [OpPut 1 10; OpPut 2 20] = Ok c
            ∧ 0 < Capacity c ∧ Size c = Capacity c ∧ mp c !! 3 = None
            ∧ delLast_key c = Some 1) as (c & Hs & Hcap & Hfull & Hk & Hd).
  { eexists. split; [vm_compute; reflexivity|]. by vm_compute. }
  destruct (put_full_evicts_lfu_lru 0 [2] _ c 3 30 Hs)
    as (c' & kv & fv & HP & Hd' & _ & _ & _ & _ & _ & _ & HG & _);
    [by vm_compute|done..|].
  exists c, c'. rewrite Hd in Hd'. injection Hd' as <-. done.
Defined.

(** Capacity 2, keys 1 and 2 put, key 1 read. *)
Lemma all_descending_then_recent_witness :
  ∃ c ps,
    session 0 [2] [OpPut 1 10; OpPut 2 20; OpGet 1] = Ok c
    ∧ All collect_yield (length (lists c) + length (values c)) c [] = Ok ps
    ∧ Z.of_nat (length ps) = Size c.
Proof.
  assert (∃ c, session 0 [2] [OpPut 1 10; OpPut 2 20; OpGet 1] = Ok c)
    as (c & Hs).
  { eexists. vm_compute. reflexivity. }
  destruct (all_descending_then_recent 0 [2] _ c Hs)
    as (ps & HA & Hlen & _); [by vm_compute|].
  exists c, ps. split; [done|]. split; [by apply HA|done].
Defined.

(** Key 1 put once, then read. *)
Lemma hit_bumps_frequency_witness :
  ∃ c v c',
    session 0 [2] [OpPut 1 10] = Ok c
    ∧ GetKeyFrequency 1 c = Ok (1, None)
    ∧ Get 0 1 c = Ok ((v, None), c')
    ∧ GetKeyFrequency 1 c' = Ok (1 + 1, None).
Proof.
  assert (∃ c, session 0 [2] [OpPut 1 10] = Ok c
            ∧ GetKeyFrequency 1 c = Ok (1, None)) as (c & Hs & HG).
  { eexists. split; vm_compute; reflexivity. }
  destruct (hit_bumps_frequency 0 [2] _ c 1 1 Hs)
    as ((v & c' & _ & HGet & _ & HG') & _); [by vm_compute|done|].
  by exists c, v, c'.
Defined.

(** Key 7 on the cache of [New()]. *)
Lemma miss_changes_nothing_witness :
  ∃ c c' : cacheImpl Z Z,
    New [] = Ok c ∧ mp c !! 7 = None
    ∧ Get 0 7 c = Ok ((0, Some ErrKeyNotFound), c') ∧ c' = c.
Proof.
  assert (∃ c : cacheImpl Z Z, New [] = Ok c ∧ mp c !! 7 = None) as (c & HN & Hk).
  { eexists. split; vm_compute; reflexivity. }
  destruct (miss_changes_nothing 0 c 7 Hk) as (c' & HG & _ & Heq & _).
  by exists c, c'.
Defined.

(** A second [Put] after [New(2)] and one [Put]. *)
Lemma put_size_capacity_all_total_witness :
  ∃ c c', session 0 [2] [OpPut 1 10] = Ok c ∧ Put 0 2 20 c = Ok (tt, c').
Proof.
  assert (∃ c, session 0 [2] [OpPut 1 10] = Ok c) as (c & Hs).
  { eexists. vm_compute. reflexivity. }
  destruct (put_size_capacity_all_total 0 [2] _ c Hs) as (HP & _).
  destruct (HP 2 20) as (c' & HP'). by exists c, c'.
Defined.

(** [New(-1)] and [New(0)]. *)
Lemma New_capacity_witness :
  -1 < 0 ∧ 0 ≤ 0
  ∧ New (K:=Z) (V:=Z) [-1] = Panic (PanicString "Capacity must be positive.")
  ∧ ∃ c : cacheImpl Z Z, New [0] = Ok c ∧ Capacity c = 0.
Proof.
  destruct (New_capacity (K:=Z) (V:=Z)) as (_ & Hneg & Hpos).
  assert (-1 < 0) as H1 by lia. assert (0 ≤ 0) as H0 by lia.
  split; [done|]. split; [done|]. split; [exact (Hneg (-1) [] H1)|].
  destruct (Hpos 0 [] H0) as (c & HN & Hcap & _). by exists c.
Defined.

(** [Put] on key 1 when key 1 is present. *)
Lemma hit_keeps_keys_witness :
  ∃ c c',
    session 0 [2] [OpPut 1 10] = Ok c ∧ is_Some (mp c !! 1)
    ∧ Put 0 1 11 c = Ok (tt, c') ∧ dom (mp c') = dom (mp c).
Proof.
  assert (∃ c, session 0 [2] [OpPut 1 10] = Ok c ∧ is_Some (mp c !! 1))
    as (c & Hs & Hk).
  { eexists. split; [vm_compute; reflexivity|]. vm_compute. eauto. }
  destruct (hit_keeps_keys 0 [2] _ c 1 Hs) as (_ & HP).
  destruct (HP Hk 11) as (c' & HP' & Hdom). by exists c, c'.
Defined.

(** [New(0)], key 1 put, then key 2. *)
Lemma zero_capacity_keeps_last_put_witness :
  ∃ c c',
    session 0 [0] [OpPut 1 10] = Ok c ∧ mp c !! 2 = None
    ∧ Put 0 2 20 c = Ok (tt, c') ∧ Size c' = 1 ∧ dom (mp c') = {[ 2 ]}.
Proof.
  assert (∃ c, session 0 [0] [OpPut 1 10] = Ok c ∧ mp c !! 2 = None)
    as (c & Hs & Hk).
  { eexists. split; vm_compute; reflexivity. }
  destruct (zero_capacity_keeps_last_put 0 [] _ c 2 20 Hs Hk)
    as (c' & HP & _ & Hsz & Hdom & _).
  by exists c, c'.
Defined.

(** ** More of the interface on reachable caches *)

Section More.
Context {K : Type} `{Countable K} {V : Type}.
Variable zeroVal : V.
Implicit Types (es : list (ent K V)) (bs L : list (bkt K V)).
Implicit Types (e : ent K V) (b : bkt K V).
Implicit Types (c : cacheImpl K V) (o : op K V) (ops : list (op K V)).
Implicit Types (k : K) (v : V) (f : Z) (x : K * V * Z).

(** Two caches whose chains hold the same entry for [k] answer the same
    about [k]. *)
Lemma observe_eq L c L' c' k :
  rep L c → rep L' c' →
  (∀ v f, (k, v, f) ∈ view L ↔ (k, v, f) ∈ view L') →
  GetKeyFrequency k c' = GetKeyFrequency k c ∧ stored k c' = stored k c.
Proof.
  intros Hrep Hrep' Hsame.
  destruct (mp c !! k) as [q|] eqn:Hk.
  - destruct (rep_viewed L c k Hrep) as (v & f & Hx); [by rewrite Hk|].
    destruct (rep_observe _ _ _ _ _ Hrep Hx) as (-> & -> & _).
    apply Hsame in Hx.
    by destruct (rep_observe _ _ _ _ _ Hrep' Hx) as (-> & -> & _).
  - destruct (mp c' !! k) as [q'|] eqn:Hk'.
    + destruct (rep_viewed L' c' k Hrep') as (v & f & Hx); [by rewrite Hk'|].
      apply Hsame in Hx.
      destruct (rep_observe _ _ _ _ _ Hrep Hx) as (_ & _ & [? ?]). congruence.
    + unfold GetKeyFrequency, stored. by rewrite Hk, Hk'.
Qed.

Lemma view_bumped_other pn bs1 b es1 e e' es2 bs2 k v f :
  b_ents b = es1 ++ e :: es2 → e_key e' = e_key e → k ≠ e_key e →
  (k, v, f) ∈ view (bs1 ++ b :: bs2)
  ↔ (k, v, f) ∈ view (bumped pn bs1 b es1 e' es2 bs2).
Proof.
  intros Hb Hk Hne.
  rewrite (elem_of_view_split _ _ _ _ _ _ _ Hb), elem_of_view_bumped.
  split; (intros [Heq|?]; [|by right]); apply triple_inv in Heq as (-> & _);
    congruence.
Qed.

(** X1. On a reachable cache the size is between 0 and the larger of the
    capacity and 1; so it is at most the capacity unless the capacity
    is 0. *)
Theorem size_bounded_by_capacity (args : list Z) ops c :
  session zeroVal args ops = Ok c →
  0 ≤ Size c ≤ Z.max (Capacity c) 1
  ∧ (1 ≤ Capacity c → Size c ≤ Capacity c)
  ∧ 0 ≤ Capacity c.
Proof.
  intros Hs.
  destruct (session_inv _ _ _ _ Hs) as (L & Hrep & Hc0 & Hsz & _).
  rewrite (rep_size _ _ Hrep). unfold Capacity. lia.
Qed.

(** X2. Once [New] has accepted its arguments, every sequence of calls
    returns: no call panics, [All] ends within the budget of one step per
    heap object, and the capacity stays what [New] made it. *)
Theorem calls_never_panic (args : list Z) ops c0 :
  New args = Ok c0 →
  ∃ c, session zeroVal args ops = Ok c ∧ Capacity c = Capacity c0.
Proof.
  intros HN. destruct (session_returns zeroVal args ops c0 HN) as (c & L & Hs & _ & Hcap).
  by exists c.
Qed.

(** X3. On a reachable cache every frequency is at least 1 and at most the
    number of calls so far, in a session no longer than the largest
    [int]. *)
Theorem frequency_between_one_and_calls (args : list Z) ops c k f :
  session zeroVal args ops = Ok c →
  Z.of_nat (length ops) ≤ max_int →
  GetKeyFrequency k c = Ok (f, None) →
  1 ≤ f ≤ Z.of_nat (length ops).
Proof.
  intros Hs Hlen HG.
  destruct (session_inv _ _ _ _ Hs) as (L & Hrep & _ & _ & _ & Hfr).
  destruct (Hfr Hlen) as [_ Hbound].
  destruct (rep_frequency _ _ _ _ Hrep HG) as (v & Hx).
  apply elem_of_view in Hx as (b & e & Hb & _ & (_ & _ & ->)%triple_inv).
  rewrite Forall_forall in Hbound. by apply Hbound.
Qed.

(** X4. On a reachable cache that is empty, [delLast] returns and leaves
    the cache exactly as it was. *)
Theorem delLast_on_empty_is_identity (args : list Z) ops c :
  session zeroVal args ops = Ok c →
  Size c = 0 →
  delLast c = Ok (tt, c).
Proof.
  intros Hs Hsize.
  destruct (session_inv _ _ _ _ Hs) as (L & Hrep & _).
  rewrite (rep_size _ _ Hrep) in Hsize.
  destruct Hrep as (Hch & Hne & _).
  destruct L as [|b bs].
  - destruct c as [cap s mm hl hv]. by eapply delLast_nil.
  - apply Forall_cons in Hne as [Hb _]. rewrite all_ents_cons, length_app in Hsize.
    destruct (b_ents b); [done|cbn in Hsize; lia].
Qed.

(** X5. On a reachable cache that is not empty, [delLast] returns; it
    deletes from the index exactly the key at the tail of the first
    frequency list, the size drops by one, the capacity stays, and no
    object is allocated. *)
Theorem delLast_removes_tail_key (args : list Z) ops c :
  session zeroVal args ops = Ok c →
  0 < Size c →
  ∃ c' kv,
    delLast c = Ok (tt, c')
    ∧ delLast_key c = Some kv
    ∧ is_Some (mp c !! kv)
    ∧ mp c' = delete kv (mp c)
    ∧ Size c' = Size c - 1
    ∧ Capacity c' = Capacity c
    ∧ length (lists c') = length (lists c)
    ∧ length (values c') = length (values c).
Proof.
  intros Hs Hsize.
  destruct (session_inv _ _ _ _ Hs) as (L & Hrep & _).
  pose proof (rep_size _ _ Hrep) as HS.
  destruct L as [|b bs]; [cbn in HS; lia|].
  pose proof Hrep as (_ & Hne & _).
  apply Forall_cons in Hne as [Hbne _].
  destruct (b_ents b) as [|el es _] eqn:Hb using rev_ind; [done|].
  destruct (delLast_rep _ _ Hrep) as (c' & Hd & _ & Hcap & _ & Hmp & Hl & Hv).
  rewrite (victim_snoc _ _ _ _ Hb) in Hmp.
  assert (Hpres : mp c !! e_key el = Some (e_ptr el)).
  { apply (rep_lookup_key _ _ _ Hrep). rewrite all_ents_cons, Hb, !elem_of_app.
    left. right. apply list_elem_of_here. }
  exists c', (e_key el). split_and!; [done| | |done| |done..].
  - by eapply rep_delLast_key.
  - by rewrite Hpres.
  - unfold Size. rewrite Hmp, map_size_delete, Hpres.
    assert (size (mp c) ≠ 0%nat); [|lia].
    intros Hz. apply map_size_empty_iff in Hz. by rewrite Hz in Hpres.
Qed.

(** X6. On a reachable cache [Get] of a key returns and changes nothing
    about any other key: its frequency, its value and whether it is
    present are as before. *)
Theorem get_leaves_other_keys (args : list Z) ops c k :
  session zeroVal args ops = Ok c →
  ∃ r c',
    Get zeroVal k c = Ok (r, c')
    ∧ ∀ k', k' ≠ k →
        GetKeyFrequency k' c' = GetKeyFrequency k' c
        ∧ stored k' c' = stored k' c
        ∧ mp c' !! k' = mp c !! k'.
Proof.
  intros Hs.
  destruct (session_inv _ _ _ _ Hs) as (L & Hrep & _).
  destruct (mp c !! k) as [q|] eqn:Hk.
  - destruct (rep_find _ _ _ _ Hrep Hk)
      as (bs1 & b & es1 & e & es2 & bs2 & HL & Hb & <- & _).
    destruct (Get_hit zeroVal _ _ _ _ _ _ _ _ Hrep HL Hb)
      as (c' & HG & Hrep' & _ & Hmp & _).
    exists (e_val e, None), c'. split; [done|]. intros k' Hne.
    destruct (observe_eq _ _ _ _ k' Hrep Hrep') as (? & ?); [|by rewrite Hmp].
    intros v f. subst L. by apply (view_bumped_other _ _ _ _ e).
  - exists (zeroVal, Some ErrKeyNotFound), c. by rewrite (Get_miss zeroVal _ _ Hk).
Qed.

(** X7. On a reachable cache [Put] on a present key changes nothing about
    any other key. *)
Theorem put_present_leaves_other_keys (args : list Z) ops c k v :
  session zeroVal args ops = Ok c →
  is_Some (mp c !! k) →
  ∃ c',
    Put zeroVal k v c = Ok (tt, c')
    ∧ ∀ k', k' ≠ k →
        GetKeyFrequency k' c' = GetKeyFrequency k' c
        ∧ stored k' c' = stored k' c
        ∧ mp c' !! k' = mp c !! k'.
Proof.
  intros Hs [q Hk].
  destruct (session_inv _ _ _ _ Hs) as (L & Hrep & _).
  destruct (rep_find _ _ _ _ Hrep Hk)
    as (bs1 & b & es1 & e & es2 & bs2 & HL & Hb & <- & _).
  destruct (Put_hit zeroVal _ _ _ _ _ _ _ _ v Hrep HL Hb)
    as (c' & HP & Hrep' & _ & Hmp & _).
  exists c'. split; [done|]. intros k' Hne.
  destruct (observe_eq _ _ _ _ k' Hrep Hrep') as (? & ?); [|by rewrite Hmp].
  intros v' f. subst L. by apply (view_bumped_other _ _ _ _ e).
Qed.

(** X8. On a reachable cache with room left, [Put] of an absent key evicts
    nothing: the size grows by one, the keys are the old ones and the new
    one, and the old keys keep their frequency and value. *)
Theorem put_below_capacity_evicts_nothing (args : list Z) ops c k v :
  session zeroVal args ops = Ok c →
  mp c !! k = None → Size c < Capacity c →
  ∃ c',
    Put zeroVal k v c = Ok (tt, c')
    ∧ Size c' = Size c + 1
    ∧ dom (mp c') = {[ k ]} ∪ dom (mp c)
    ∧ GetKeyFrequency k c' = Ok (1, None)
    ∧ stored k c' = Some v
    ∧ ∀ k', k' ≠ k →
        GetKeyFrequency k' c' = GetKeyFrequency k' c
        ∧ stored k' c' = stored k' c.
Proof.
  intros Hs Hk Hroom.
  destruct (session_inv _ _ _ _ Hs) as (L & Hrep & _).
  destruct (Put_new zeroVal _ _ k v Hrep Hk) as (c' & HP & Hrep' & _).
  unfold Capacity in Hroom.
  replace (capacity c <=? Size c) with false in Hrep'
    by (symmetry; apply Z.leb_gt; lia).
  set (e := mkEnt (length (values c)) k v) in *.
  assert (Hnew : (k, v, 1) ∈ view (inserted (length (lists c)) e L)).
  { apply elem_of_view_inserted. by left. }
  destruct (rep_observe _ _ _ _ _ Hrep' Hnew) as (HG & Hst & _).
  exists c'. split_and!; try done.
  - rewrite (rep_size _ _ Hrep'), (rep_size _ _ Hrep), length_all_ents_inserted. lia.
  - apply set_eq. intros k'.
    rewrite elem_of_union, elem_of_singleton, !elem_of_dom.
    rewrite (rep_key_present _ _ _ Hrep'), (rep_key_present _ _ _ Hrep).
    rewrite all_ents_inserted, fmap_cons, elem_of_cons. done.
  - intros k' Hne. apply (observe_eq _ _ _ _ k' Hrep Hrep').
    intros v' f. rewrite elem_of_view_inserted. split; [by right|].
    intros [Heq|?]; [|done]. apply triple_inv in Heq as (-> & _). done.
Qed.

(** X9. On a reachable cache [All] offers every present key exactly once,
    with its value, and nothing else. *)
Theorem all_enumerates_index (args : list Z) ops c :
  session zeroVal args ops = Ok c →
  ∃ ps,
    All collect_yield (length (lists c) + length (values c)) c [] = Ok ps
    ∧ NoDup ps.*1
    ∧ ∀ k v, (k, v) ∈ ps ↔ is_Some (mp c !! k) ∧ stored k c = Some v.
Proof.
  intros Hs.
  destruct (session_inv _ _ _ _ Hs) as (L & Hrep & _).
  pose proof (rep_counts _ _ Hrep) as Hcount.
  exists (pairs_of L). split_and!.
  - rewrite (All_rep _ _ L) by (done || lia). by rewrite feed_collect.
  - destruct Hrep as (_ & _ & Hnd & _).
    unfold pairs_of. rewrite <- list_fmap_compose.
    unfold all_ents. rewrite reverse_Permutation. exact Hnd.
  - intros k v. rewrite pairs_of_view. split.
    + intros ([[k' v'] f] & [= <- <-] & Hx)%list_elem_of_fmap.
      by destruct (rep_observe _ _ _ _ _ Hrep Hx) as (_ & ? & ?).
    + intros [Hk Hst]. destruct (rep_viewed _ _ _ Hrep Hk) as (v' & f & Hx).
      destruct (rep_observe _ _ _ _ _ Hrep Hx) as (_ & Hst' & _).
      assert (v' = v) as -> by congruence.
      apply list_elem_of_fmap. by exists (k, v, f).
Qed.

(** X10. [addFrontByFreq] on a frequency list without a first node panics
    with a nil dereference, at [l.first.prev = newFirst]. *)
Theorem addFrontByFreq_empty_panics c l n newFirst nv :
  lists c !! l = Some n → nl_first n = None →
  values c !! newFirst = Some nv →
  addFrontByFreq (Some l) (Some newFirst) c = Panic NilDereference.
Proof.
  destruct c as [cap s mm hl hv], n as [fr p nx fi la]. cbn.
  intros Hl -> Hv. unfold addFrontByFreq. exec. reflexivity.
Qed.


(** X12. On a reachable cache, [untie] of the node of a present key
    returns; the node keeps its key, its value and its frequency list and
    has no neighbours any more; the index and the number of objects are as
    before. *)
Theorem untie_clears_links (args : list Z) ops c k q :
  session zeroVal args ops = Ok c →
  mp c !! k = Some q →
  ∃ c' n,
    untie (Some q) c = Ok (tt, c')
    ∧ values c !! q = Some n
    ∧ values c' !! q
      = Some (mkNodeValue (nv_key n) (nv_value n) None None (nv_frequency n))
    ∧ nv_key n = k
    ∧ mp c' = mp c
    ∧ capacity c' = capacity c
    ∧ length (lists c') = length (lists c)
    ∧ length (values c') = length (values c).
Proof.
  intros Hs Hk.
  destruct (session_inv _ _ _ _ Hs) as (L & Hrep & _).
  destruct (rep_find _ _ _ _ Hrep Hk)
    as (bs1 & [pb fb eb] & es1 & e & es2 & bs2 & -> & Hb & <- & <-).
  cbn in Hb. subst eb.
  destruct Hrep as (Hch & _). destruct c as [cap s mm hl hv].
  unfold chain in Hch. cbn [frequencies lists values] in Hch.
  rewrite app_comm_cons in Hch.
  destruct (linked_ent_owner _ _ _ _ (mkBkt pb fb (es1 ++ e :: es2)) e Hch)
    as (n1 & p1 & _ & _ & Hv & _).
  { apply elem_of_app. right. apply list_elem_of_here. }
  { cbn. apply elem_of_app. right. apply list_elem_of_here. }
  destruct (untie_spec cap s mm _ _ _ _ _ _ _ _ _ _ Hch)
    as (hl' & hv' & Hu & _ & Hv' & Hll & Hlv).
  cbn [b_ptr] in Hv.
  eexists _, _. split_and!; [exact Hu|exact Hv|exact Hv'|done..].
Qed.

(** X13. On a reachable cache [addListFrontOrAfter] with a nil first node
    panics with a nil dereference, at [first.frequency = node]. *)
Theorem addListFrontOrAfter_nil_first_panics (args : list Z) ops c f :
  session zeroVal args ops = Ok c →
  addListFrontOrAfter f None [] c = Panic NilDereference.
Proof.
  intros Hs.
  destruct (session_inv _ _ _ _ Hs) as (L & Hrep & _).
  destruct Hrep as (((Hsn & _ & Hseg) & Hnd & _) & _).
  destruct c as [cap s mm hl hv]. cbn [frequencies lists values] in *.
  cbn [sentinel_bkt b_ptr b_freq b_ents] in Hsn.
  destruct L as [|[pb fb eb] bs].
  - norm_ptrs. pose proof (lookup_lt_Some _ _ _ Hsn).
    unfold addListFrontOrAfter, newNodeList. exec. reflexivity.
  - cbn [bseg] in Hseg. destruct Hseg as (Hb & _). norm_ptrs.
    pose proof (lookup_lt_Some _ _ _ Hb). pose proof (lookup_lt_Some _ _ _ Hsn).
    cbn [sentinel_bkt b_ptr] in Hnd. apply NoDup_cons in Hnd as [Hn _].
    assert (s ≠ pb) by (intros ->; apply Hn; apply list_elem_of_here).
    unfold addListFrontOrAfter, newNodeList. exec. reflexivity.
Qed.

End More.

(** ** Counters at the end of their range, and the earlier [Put] *)

Lemma wrap_succ a : int_add (wrap a) 1 = wrap (a + 1).
Proof.
  unfold int_add, wrap.
  replace ((a + 2 ^ (int_bits - 1)) mod 2 ^ int_bits - 2 ^ (int_bits - 1) + 1
           + 2 ^ (int_bits - 1))
    with ((a + 2 ^ (int_bits - 1)) mod 2 ^ int_bits + 1) by lia.
  rewrite Zplus_mod_idemp_l. do 2 f_equal. lia.
Qed.

Section Wrap.
Context {K : Type} `{Countable K} {V : Type}.
Variable zeroVal : V.
Implicit Types (c : cacheImpl K V) (k : K) (v : V).

(** One key, put once and read [n] times: one frequency list, whose
    frequency is [1 + n] wrapped into [int]. *)
Lemma single_key_gets k v (n : nat) :
  ∃ c p q,
    session zeroVal [] (OpPut k v :: repeat (OpGet k) n) = Ok c
    ∧ rep [mkBkt p (wrap (1 + Z.of_nat n)) [mkEnt q k v]] c.
Proof.
  induction n as [|n (c & p & q & Hs & Hrep)].
  - destruct (New_rep (K:=K) (V:=V) []) as (c0 & HN & Hrep0 & Hcap); [done|].
    assert (mp c0 !! k = None) as Hk.
    { cbn in HN. injection HN as <-. done. }
    destruct (Put_new zeroVal _ _ k v Hrep0 Hk) as (c' & HP & Hrep' & _).
    exists c', (length (lists c0)), (length (values c0)).
    split.
    + unfold session. rewrite HN. cbn. by rewrite HP.
    + destruct (capacity c0 <=? Size c0); exact Hrep'.
  - destruct (Get_hit zeroVal _ c [] (mkBkt p (wrap (1 + Z.of_nat n)) [mkEnt q k v])
                [] (mkEnt q k v) [] [] Hrep eq_refl eq_refl)
      as (c' & HG & Hrep' & _).
    exists c', (length (lists c)), q. split.
    + replace (OpPut k v :: repeat (OpGet k) (S n))
        with ((OpPut k v :: repeat (OpGet k) n) ++ [OpGet k : op K V])
        by (by rewrite <- app_comm_cons, <- repeat_cons).
      unfold session in *. destruct (New []) as [c0| |]; [|done..].
      rewrite run_snoc, Hs. cbn [step]. cbn in HG. by rewrite HG.
    + cbn in Hrep'. rewrite wrap_succ in Hrep'.
      by replace (1 + Z.of_nat (S n)) with (1 + Z.of_nat n + 1) by lia.
Qed.

(** X14. After [New()], one [Put] of a key and [2^63 - 1] calls of [Get]
    on it, the frequency of the key is the least [int]: the counter has
    wrapped. *)
Theorem frequency_wraps_after_max_int_gets k v :
  ∃ c,
    session zeroVal [] (OpPut k v :: repeat (OpGet k) (Z.to_nat max_int)) = Ok c
    ∧ GetKeyFrequency k c = Ok (min_int, None).
Proof.
  destruct (single_key_gets k v (Z.to_nat max_int)) as (c & p & q & Hs & Hrep).
  exists c. split; [done|].
  rewrite Z2Nat.id in Hrep by done.
  change (wrap (1 + max_int)) with min_int in Hrep.
  apply (GetKeyFrequency_hit _ _ (mkBkt p min_int [mkEnt q k v]) (mkEnt q k v) Hrep);
    apply list_elem_of_here.
Qed.

(** X15. On a cache the current revision can reach, with a capacity of at
    least 1 and the counter equal to the size, the earlier [Put] does to
    the cache what the current [Put] does, and leaves the counter equal to
    the size. *)
Theorem earlier_Put_agrees (args : list Z) ops c k v :
  session zeroVal args ops = Ok c →
  1 ≤ Capacity c → Capacity c < max_int →
  ∃ c',
    Put zeroVal k v c = Ok (tt, c')
    ∧ part_000.Put zeroVal k v (part_000.mkCache0 c (Size c))
      = Ok (tt, part_000.mkCache0 c' (Size c')).
Proof.
  intros Hs Hcap1 Hcapm.
  destruct (session_inv _ _ _ _ Hs) as (L & Hrep & Hc0 & Hsz & _).
  pose proof (rep_size _ _ Hrep) as Hsize. unfold Capacity in *.
  unfold part_000.Put. cbn [part_000.cache part_000.size].
  destruct (mp c !! k) as [q|] eqn:Hk.
  - destruct (rep_find _ _ _ _ Hrep Hk)
      as (bs1 & b & es1 & e & es2 & bs2 & HL & Hb & <- & _).
    destruct (Put_hit zeroVal _ _ _ _ _ _ _ _ v Hrep HL Hb)
      as (c' & HP & _ & _ & Hmp & _).
    exists c'. split; [done|].
    rewrite Put_unfold, Hk in HP. rewrite HP. by rewrite (Size_mp _ _ Hmp).
  - destruct (Put_new zeroVal _ _ k v Hrep Hk) as (c' & HP & Hrep' & _).
    exists c'. split; [done|].
    rewrite Put_unfold, Hk in HP.
    unfold part_000.count_and_evict, part_000.Size.
    cbn [part_000.cache part_000.size].
    assert (Hadd : int_add (Size c) 1 = Size c + 1).
    { apply int_add_small. unfold min_int, max_int, int_bits in *. lia. }
    rewrite Hadd.
    pose proof (rep_size _ _ Hrep') as Hsize'.
    rewrite length_all_ents_inserted in Hsize'.
    destruct (Z.leb_spec (capacity c) (Size c)) as [Hfull|Hroom].
    + replace (capacity c <? Size c + 1) with true by (symmetry; apply Z.ltb_lt; lia).
      destruct (delLast_rep _ _ Hrep) as (c1 & Hd & _).
      rewrite Hd. cbn in HP. unfold bind in HP. rewrite Hd in HP.
      cbn [part_000.cache part_000.size].
      rewrite HP.
      assert (Hsub : int_add (Size c + 1) (-1) = Size c).
      { rewrite int_add_small; unfold min_int, max_int, int_bits in *; lia. }
      rewrite Hsub. do 3 f_equal.
      destruct Hrep as (_ & Hne & _).
      rewrite length_all_ents_evicted in Hsize' by done. lia.
    + replace (capacity c <? Size c + 1) with false by (symmetry; apply Z.ltb_ge; lia).
      replace (capacity c <=? Size c) with false in HP
        by (symmetry; apply Z.leb_gt; lia).
      cbn [when] in HP. rewrite ret_bind in HP.
      cbn [part_000.cache part_000.size].
      rewrite HP. do 3 f_equal. lia.
Qed.

End Wrap.

(** X16. In the earlier revision, after [New(0)] and one [Put] the key is
    held and [Get] would find it, while [Size()] is 0. *)
Theorem earlier_zero_capacity_counts_nothing :
  ∃ l0 l1,
    part_000.New (K:=Z) (V:=Z) [0] = Ok l0
    ∧ part_000.Put 0 1 10 l0 = Ok (tt, l1)
    ∧ part_000.Size l1 = 0
    ∧ part_000.Capacity l1 = 0
    ∧ stored 1 (part_000.cache l1) = Some 10
    ∧ Size (part_000.cache l1) = 1.
Proof. do 2 eexists. split; [vm_compute; reflexivity|]. by vm_compute. Qed.

(** ** The list package: running the statements *)

Import linkedlist.

Section ListExec.
Context {K V : Type}.
Implicit Types (h : list (Node K V)) (ps xs : list ptr).

Lemma rd_bind {A B} (f : Node K V → A) (k : A → LM K V B) a n h :
  h !! a = Some n → (rd f (Some a) ≫= k) h = k (f n) h.
Proof. intros Hn. unfold mbind, LM_bind, rd. by rewrite Hn. Qed.

Lemma rd_ok {A} (f : Node K V → A) a n h :
  h !! a = Some n → rd f (Some a) h = Ok (f n, h).
Proof. intros Hn. unfold rd. by rewrite Hn. Qed.

Lemma wr_bind {B} u (k : unit → LM K V B) a n h :
  h !! a = Some n → (wr (Some a) u ≫= k) h = k tt (<[a := u n]> h).
Proof. intros Hn. unfold mbind, LM_bind, wr. by rewrite Hn. Qed.

Lemma wr_ok u a (n : Node K V) h :
  h !! a = Some n → wr (Some a) u h = Ok (tt, <[a := u n]> h).
Proof. intros Hn. unfold wr. by rewrite Hn. Qed.

Lemma alloc_bind {B} (n : Node K V) (k : option ptr → LM K V B) h :
  (alloc n ≫= k) h = k (Some (length h)) (h ++ [n]).
Proof. done. Qed.

Lemma mret_bind {A B} (a : A) (k : A → LM K V B) h : (mret a ≫= k) h = k a h.
Proof. done. Qed.

Lemma LM_bind_assoc {A B C} (m : LM K V A) (k1 : A → LM K V B) (k2 : B → LM K V C) h :
  ((m ≫= k1) ≫= k2) h = (m ≫= λ a, k1 a ≫= k2) h.
Proof. unfold mbind, LM_bind. by destruct (m h) as [[a h']| |]. Qed.

End ListExec.

Ltac lexec1 :=
  first
    [ progress (cbv beta; cbn [set_next set_prev Key Value next prev sentinel
                               is_nil negb])
    | erewrite rd_bind by heap_lookup
    | erewrite wr_bind by heap_lookup
    | erewrite wr_ok by heap_lookup
    | erewrite rd_ok by heap_lookup
    | rewrite alloc_bind
    | rewrite mret_bind
    | rewrite LM_bind_assoc ].

Ltac lexec := repeat lexec1.

Section ListFacts.
Context {K V : Type}.
Variables (zeroKey : K) (zeroValue : V).
Implicit Types (h : list (Node K V)) (ps xs : list ptr).

(** *** Segments *)

Lemma dseg_ext h h' prv ps nxt :
  (∀ p, p ∈ ps → h' !! p = h !! p) → dseg h prv ps nxt → dseg h' prv ps nxt.
Proof.
  revert prv. induction ps as [|p ps IH]; intros prv Hsame; cbn; [done|].
  intros ((k & v & Hp) & Hps). split.
  - exists k, v. rewrite Hsame; [done|apply list_elem_of_here].
  - apply IH; [|done]. intros q Hq. apply Hsame. by apply list_elem_of_further.
Qed.

Lemma dseg_app h prv ps1 ps2 nxt :
  dseg h prv (ps1 ++ ps2) nxt
  ↔ dseg h prv ps1 (default nxt (head ps2))
    ∧ dseg h (default prv (last ps1)) ps2 nxt.
Proof.
  revert prv. induction ps1 as [|p ps1 IH]; intros prv; cbn [app dseg].
  - cbn. tauto.
  - rewrite IH. rewrite last_cons.
    assert (default nxt (head (ps1 ++ ps2))
            = default (default nxt (head ps2)) (head ps1)) as ->.
    { by destruct ps1. }
    assert (default prv (match last ps1 with Some y => Some y | None => Some p end)
            = default p (last ps1)) as ->.
    { by destruct (last ps1). }
    tauto.
Qed.

Lemma dseg_bound h prv ps nxt p : dseg h prv ps nxt → p ∈ ps → (p < length h)%nat.
Proof.
  revert prv. induction ps as [|q ps IH]; intros prv; cbn.
  - intros _ Hp. by apply elem_of_nil in Hp.
  - intros ((k & v & Hq) & Hps) [->|Hp]%elem_of_cons; [by eapply lookup_lt_Some|eauto].
Qed.

Lemma dseg_lookup h prv ps nxt i p :
  dseg h prv ps nxt → ps !! i = Some p →
  ∃ k v, h !! p = Some (mkNode k v (Some (default nxt (ps !! S i)))
                          (Some (match i with O => prv | S j => default prv (ps !! j) end))).
Proof.
  revert prv i. induction ps as [|q ps IH]; intros prv i; cbn; [done|].
  intros ((k & v & Hq) & Hps) Hi. destruct i as [|i]; cbn in Hi.
  - injection Hi as <-. exists k, v. rewrite Hq. by destruct ps.
  - destruct (IH _ _ Hps Hi) as (k' & v' & Hp). exists k', v'. rewrite Hp.
    cbn. do 3 f_equal. destruct i as [|i]; [done|]. cbn.
    apply lookup_lt_Some in Hi. destruct (ps !! i) eqn:Hl; [done|].
    apply lookup_ge_None in Hl. lia.
Qed.

Lemma ring_bound h s xs p : ring h s xs → p ∈ s :: xs → (p < length h)%nat.
Proof. intros [Hseg _]. by eapply dseg_bound. Qed.

End ListFacts.

Section ListOps.
Context {K V : Type}.
Variables (zeroKey : K) (zeroValue : V).
Implicit Types (h : list (Node K V)) (ps xs : list ptr).

Lemma Key_insert h a (n n' : Node K V) :
  h !! a = Some n → Key n' = Key n → Key <$> <[a := n']> h = Key <$> h.
Proof.
  intros Hn Hk. rewrite list_fmap_insert, Hk. apply list_insert_id.
  by rewrite list_lookup_fmap, Hn.
Qed.

Lemma Value_insert h a (n n' : Node K V) :
  h !! a = Some n → Value n' = Value n → Value <$> <[a := n']> h = Value <$> h.
Proof.
  intros Hn Hk. rewrite list_fmap_insert, Hk. apply list_insert_id.
  by rewrite list_lookup_fmap, Hn.
Qed.

Ltac same_fields :=
  repeat first
    [ erewrite Key_insert; [|heap_lookup|reflexivity]
    | erewrite Value_insert; [|heap_lookup|reflexivity] ];
  reflexivity.

(** X17. [NewList] returns a list whose sentinel is a new node linked to
    itself: the ring is empty, [IsEmpty] says so, and [First] and [Last]
    are the sentinel. *)
Theorem NewList_is_empty_ring h :
  ∃ h',
    NewList zeroKey zeroValue h = Ok (mkList (Some (length h)), h')
    ∧ h' = h ++ [mkNode zeroKey zeroValue (Some (length h)) (Some (length h))]
    ∧ ring h' (length h) []
    ∧ IsEmpty (mkList (Some (length h))) h' = Ok (true, h')
    ∧ First (mkList (Some (length h))) h' = Ok (Some (length h), h')
    ∧ Last (mkList (Some (length h))) h' = Ok (Some (length h), h').
Proof.
  eexists. split; [|split; [reflexivity|]].
  - unfold NewList, zeroNode. lexec.
    rewrite <- (app_nil_r [_]) at 1. rewrite insert_app_r_alt by done.
    rewrite Nat.sub_diag. cbn [insert list_insert app].
    rewrite insert_app_r_alt by done. rewrite Nat.sub_diag. reflexivity.
  - assert (Hs : (h ++ [mkNode zeroKey zeroValue (Some (length h)) (Some (length h))])
                   !! length h
                 = Some (mkNode zeroKey zeroValue (Some (length h)) (Some (length h))))
      by apply lookup_snoc_new.
    split_and!.
    + split; [|apply NoDup_singleton]. cbn. eauto.
    + unfold IsEmpty. lexec. by rewrite ptr_eqb_refl.
    + unfold First. by lexec.
    + unfold Last. by lexec.
Qed.

Lemma ring_reads h s xs :
  ring h s xs →
  IsEmpty (mkList (Some s)) h = Ok (bool_decide (xs = []), h)
  ∧ First (mkList (Some s)) h = Ok (Some (default s (head xs)), h)
  ∧ Last (mkList (Some s)) h = Ok (Some (default s (last xs)), h)
  ∧ IsEmpty (mkList None) h = Ok (true, h).
Proof.
  intros [Hseg Hnd]. cbn [dseg] in Hseg. destruct Hseg as ((k & v & Hs) & _).
  split_and!.
  - unfold IsEmpty. lexec. destruct xs as [|y xs]; cbn.
    + by rewrite ptr_eqb_refl.
    + rewrite ptr_eqb_ne; [done|]. apply NoDup_cons in Hnd as [Hn _].
      intros ->. apply Hn, list_elem_of_here.
  - unfold First. by lexec.
  - unfold Last. by lexec.
  - done.
Qed.

Lemma Untie_nil_next h n nd :
  h !! n = Some nd → next nd = None →
  Untie (Some n) h = Panic NilDereference.
Proof.
  destruct nd as [k v nx pv]. cbn. intros Hn ->.
  unfold Untie. lexec. reflexivity.
Qed.

(** X20. A node from [NewNode] has two fresh empty nodes as neighbours, so
    [Untie] on it returns although it is in no list, and leaves it without
    neighbours. *)
Theorem NewNode_Untie_returns h (key : K) (value : V) :
  ∃ h',
    (n ← NewNode zeroKey zeroValue key value; Untie n) h = Ok (tt, h')
    ∧ length h' = (length h + 3)%nat
    ∧ h' !! (length h + 2)%nat = Some (mkNode key value None None)
    ∧ (n ← NewNode zeroKey zeroValue key value; Untie n;; Untie n) h
      = Panic NilDereference.
Proof.
  assert (Hrun : ∀ B (k : option ptr → unit → LM K V B),
    (n ← NewNode zeroKey zeroValue key value; Untie n ≫= k n) h
    = k (Some (length h + 2)%nat) tt (<[(length h + 2)%nat := mkNode key value None None]>
             (<[(length h + 2)%nat := mkNode key value (Some (length h)) None]>
             (<[(length h + 1)%nat := mkNode zeroKey zeroValue (Some (length h)) None]>
             (<[length h := mkNode zeroKey zeroValue None (Some (length h + 1)%nat)]>
               (h ++ [zeroNode zeroKey zeroValue; zeroNode zeroKey zeroValue;
                      mkNode key value (Some (length h)) (Some (length h + 1)%nat)])))))).
  { intros B k. unfold NewNode, Untie, zeroNode. lexec.
    rewrite !length_app. cbn [length].
    replace (length h + 1 + 1)%nat with (length h + 2)%nat by lia.
    rewrite <- !app_assoc. cbn [app].
    assert (H0 : (h ++ [mkNode zeroKey zeroValue None None; mkNode zeroKey zeroValue None None;
                        mkNode key value (Some (length h)) (Some (length h + 1)%nat)])
                 !! length h = Some (mkNode zeroKey zeroValue None None)).
    { by rewrite lookup_app_r, Nat.sub_diag by lia. }
    assert (H1 : (h ++ [mkNode zeroKey zeroValue None None; mkNode zeroKey zeroValue None None;
                        mkNode key value (Some (length h)) (Some (length h + 1)%nat)])
                 !! (length h + 1)%nat = Some (mkNode zeroKey zeroValue None None)).
    { rewrite lookup_app_r by lia.
      by replace (length h + 1 - length h)%nat with 1%nat by lia. }
    assert (H2 : (h ++ [mkNode zeroKey zeroValue None None; mkNode zeroKey zeroValue None None;
                        mkNode key value (Some (length h)) (Some (length h + 1)%nat)])
                 !! (length h + 2)%nat
                 = Some (mkNode key value (Some (length h)) (Some (length h + 1)%nat))).
    { rewrite lookup_app_r by lia.
      by replace (length h + 2 - length h)%nat with 2%nat by lia. }
    lexec. reflexivity. }
  eexists. split_and!.
  - specialize (Hrun unit (λ _ _, mret tt)).
    unfold mbind, LM_bind in Hrun |- *.
    destruct (NewNode zeroKey zeroValue key value h) as [[n h1]| |]; [|done..].
    destruct (Untie n h1) as [[[] h2]| |]; [|done..]. exact Hrun.
  - rewrite !length_insert, length_app. cbn. lia.
  - apply list_lookup_insert_eq. rewrite !length_insert, length_app. cbn. lia.
  - rewrite (Hrun unit (λ n _, Untie n)).
    apply (Untie_nil_next _ _ (mkNode key value None None)); [|done].
    apply list_lookup_insert_eq. rewrite !length_insert, length_app. cbn. lia.
Qed.

Lemma last_app_cons (ps1 : list ptr) b ps2 :
  last (ps1 ++ b :: ps2) = Some (default b (last ps2)).
Proof.
  rewrite last_app, last_cons. by destruct (last ps2).
Qed.

Lemma default_last_cons (d a : ptr) l : default d (last (a :: l)) = default a (last l).
Proof. rewrite last_cons. by destruct (last l). Qed.

Lemma head_app_cons (ps1 : list ptr) b ps2 d :
  default d (head (ps1 ++ b :: ps2)) = default b (head ps1).
Proof. by destruct ps1. Qed.

(** [AddFrontOrAfter] on a cycle that starts with the sentinel, after its
    node [b]. *)
Lemma insert_after_spec h s ps1 b ps2 n nd before :
  dseg h (default b (last ps2)) (ps1 ++ b :: ps2) s →
  NoDup (ps1 ++ b :: ps2) →
  head (ps1 ++ [b]) = Some s →
  h !! n = Some nd → n ∉ ps1 ++ b :: ps2 →
  match before with [] => b = s | bf :: _ => bf = Some b end →
  ∃ h',
    AddFrontOrAfter (mkList (Some s)) (Some n) before h = Ok (tt, h')
    ∧ dseg h' (default n (last ps2)) (ps1 ++ b :: n :: ps2) s
    ∧ length h' = length h
    ∧ Key <$> h' = Key <$> h ∧ Value <$> h' = Value <$> h.
Proof.
  intros Hseg Hnd Hhead Hn Hfresh Hbefore. destruct nd as [kn vn nn pn].
  assert (Hbfr : match before with [] => Some s | bf :: _ => bf end = Some b).
  { destruct before; congruence. }
  apply dseg_app in Hseg as (H1 & Hb). cbn [dseg head default from_option id] in Hb.
  destruct Hb as ((kb & vb & Hb) & H2). split_nodup.
  destruct ps2 as [|y ps2].
  - cbn [head last default from_option id] in *. clear H2.
    destruct ps1 as [|s' ps1]; cbn in Hhead; injection Hhead as ->.
    + eexists. split; [|split_and!].
      * unfold AddFrontOrAfter. cbn [sentinel]. rewrite Hbfr. lexec. reflexivity.
      * cbn [app dseg head default from_option id last]. split_and!; [eexists _, _; heap_lookup..|done].
      * by rewrite !length_insert.
      * same_fields.
      * same_fields.
    + cbn [app dseg] in H1. destruct H1 as ((ks & vs & Hs) & H1). split_nodup.
      rewrite default_last_cons in Hb.
      eexists. split; [|split_and!].
      * unfold AddFrontOrAfter. cbn [sentinel]. rewrite Hbfr. lexec. reflexivity.
      * rewrite <- app_comm_cons. cbn [dseg]. rewrite head_app_cons.
        split; [eexists _, _; heap_lookup|].
        apply dseg_app. cbn [dseg head default from_option id last]. split_and!.
        -- eapply dseg_ext; [|exact H1]. solve_frame.
        -- eexists _, _; heap_lookup.
        -- eexists _, _; heap_lookup.
        -- done.
      * by rewrite !length_insert.
      * same_fields.
      * same_fields.
  - cbn [head default from_option id dseg] in H2. destruct H2 as ((ky & vy & Hy) & H2).
    split_nodup. rewrite !default_last_cons in *.
    eexists. split; [|split_and!].
    + unfold AddFrontOrAfter. cbn [sentinel]. rewrite Hbfr. lexec. reflexivity.
    + apply dseg_app. cbn [dseg head default from_option id last]. split_and!.
      * eapply dseg_ext; [|exact H1]. solve_frame.
      * eexists _, _; heap_lookup.
      * eexists _, _; heap_lookup.
      * eexists _, _; heap_lookup.
      * eapply dseg_ext; [|exact H2]. solve_frame.
    + by rewrite !length_insert.
    + same_fields.
    + same_fields.
Qed.

Lemma default_last_snoc (d x : ptr) l : default d (last (l ++ [x])) = x.
Proof. by rewrite last_snoc. Qed.

(** [Untie] of a node of a cycle that starts with the sentinel. *)
Lemma untie_ring_spec h s ps1 n ps2 :
  dseg h (default n (last ps2)) (s :: ps1 ++ n :: ps2) s →
  NoDup (s :: ps1 ++ n :: ps2) →
  ∃ h' k v,
    Untie (Some n) h = Ok (tt, h')
    ∧ dseg h' (default (default s (last ps1)) (last ps2)) (s :: ps1 ++ ps2) s
    ∧ h' !! n = Some (mkNode k v None None)
    ∧ Key <$> h !! n = Some k ∧ Value <$> h !! n = Some v
    ∧ length h' = length h
    ∧ Key <$> h' = Key <$> h ∧ Value <$> h' = Value <$> h.
Proof.
  intros Hseg Hnd. cbn [dseg] in Hseg. destruct Hseg as ((ks & vs & Hs) & Hseg).
  rewrite head_app_cons in Hs.
  apply dseg_app in Hseg as (H1 & Hn). cbn [dseg head default from_option id] in Hn.
  destruct Hn as ((kn & vn & Hn) & H2). split_nodup.
  destruct ps1 as [|x ps1 _] using rev_ind; destruct ps2 as [|y ps2].
  - cbn [head last default from_option id app] in *.
    eexists _, kn, vn. split; [|split_and!].
    + unfold Untie. lexec. reflexivity.
    + cbn [dseg head default from_option id]. split; [eexists _, _; heap_lookup|done].
    + heap_lookup.
    + by rewrite Hn.
    + by rewrite Hn.
    + by rewrite !length_insert.
    + same_fields.
    + same_fields.
  - cbn [head last default from_option id app dseg] in H2, Hn, Hs.
    cbn [app last default from_option id].
    destruct H2 as ((ky & vy & Hy) & H2). split_nodup.
    rewrite ?default_last_cons in *.
    eexists _, kn, vn. split; [|split_and!].
    + unfold Untie. lexec. reflexivity.
    + cbn [dseg head default from_option id]. split_and!.
      * eexists _, _; heap_lookup.
      * eexists _, _; heap_lookup.
      * eapply dseg_ext; [|exact H2]. solve_frame.
    + heap_lookup.
    + by rewrite Hn.
    + by rewrite Hn.
    + by rewrite !length_insert.
    + same_fields.
    + same_fields.
  - apply dseg_app in H1 as (H1 & Hx). cbn [dseg head default from_option id] in Hx.
    destruct Hx as ((kx & vx & Hx) & _). split_nodup.
    rewrite ?default_last_snoc, ?app_nil_r, ?head_app_cons in *.
    cbn [head last default from_option id] in *.
    eexists _, kn, vn. split; [|split_and!].
    + unfold Untie. lexec. reflexivity.
    + cbn [dseg]. rewrite ?head_app_cons.
      split; [eexists _, _; heap_lookup|].
      apply dseg_app. cbn [dseg head default from_option id]. split_and!.
      * eapply dseg_ext; [|exact H1]. solve_frame.
      * eexists _, _; heap_lookup.
      * done.
    + heap_lookup.
    + by rewrite Hn.
    + by rewrite Hn.
    + by rewrite !length_insert.
    + same_fields.
    + same_fields.
  - apply dseg_app in H1 as (H1 & Hx). cbn [dseg head default from_option id] in Hx.
    destruct Hx as ((kx & vx & Hx) & _).
    cbn [head default from_option id dseg] in H2. destruct H2 as ((ky & vy & Hy) & H2).
    split_nodup.
    rewrite ?default_last_snoc, ?default_last_cons, ?head_app_cons in *.
    cbn [head default from_option id] in *.
    eexists _, kn, vn. split; [|split_and!].
    + unfold Untie. lexec. reflexivity.
    + cbn [dseg]. rewrite <- app_assoc. cbn [app]. rewrite head_app_cons.
      split; [eexists _, _; heap_lookup|].
      apply dseg_app. cbn [dseg head default from_option id]. split_and!.
      * eapply dseg_ext; [|exact H1]. solve_frame.
      * eexists _, _; heap_lookup.
      * eexists _, _; heap_lookup.
      * eapply dseg_ext; [|exact H2]. solve_frame.
    + heap_lookup.
    + by rewrite Hn.
    + by rewrite Hn.
    + by rewrite !length_insert.
    + same_fields.
    + same_fields.
Qed.

Lemma ring_front h s xs n nd :
  ring h s xs → h !! n = Some nd → n ∉ s :: xs →
  ∃ h',
    AddFrontOrAfter (mkList (Some s)) (Some n) [] h = Ok (tt, h')
    ∧ ring h' s (n :: xs)
    ∧ length h' = length h
    ∧ Key <$> h' = Key <$> h ∧ Value <$> h' = Value <$> h.
Proof.
  intros [Hseg Hnd] Hn Hfresh.
  destruct (insert_after_spec h s [] s xs n nd [] Hseg Hnd eq_refl Hn Hfresh eq_refl)
    as (h' & Hrun & Hseg' & Hlen & Hk & Hv).
  exists h'. split_and!; try done. split.
  - by rewrite default_last_cons.
  - cbn [app] in Hfresh. apply not_elem_of_cons in Hfresh as [Hns Hnx].
    apply NoDup_cons in Hnd as [Hs Hxs].
    apply NoDup_cons. split.
    + apply not_elem_of_cons. split; [congruence|done].
    + apply NoDup_cons. done.
Qed.

Lemma ring_after h s xs1 b xs2 n nd rest :
  ring h s (xs1 ++ b :: xs2) → h !! n = Some nd → n ∉ s :: xs1 ++ b :: xs2 →
  ∃ h',
    AddFrontOrAfter (mkList (Some s)) (Some n) (Some b :: rest) h = Ok (tt, h')
    ∧ ring h' s (xs1 ++ b :: n :: xs2)
    ∧ length h' = length h
    ∧ Key <$> h' = Key <$> h ∧ Value <$> h' = Value <$> h.
Proof.
  intros [Hseg Hnd] Hn Hfresh.
  rewrite last_app_cons in Hseg. cbn [default from_option id] in Hseg.
  destruct (insert_after_spec h s (s :: xs1) b xs2 n nd (Some b :: rest)
              Hseg Hnd eq_refl Hn Hfresh eq_refl)
    as (h' & Hrun & Hseg' & Hlen & Hk & Hv).
  exists h'. split_and!; try done. split.
  - rewrite last_app_cons, default_last_cons. exact Hseg'.
  - rewrite app_comm_cons in Hnd, Hfresh |- *.
    apply NoDup_app in Hnd as (Hn1 & Hd & Hn2).
    apply not_elem_of_app in Hfresh as [Hf1 Hf2].
    apply NoDup_cons in Hn2 as [Hb Hn2].
    apply not_elem_of_cons in Hf2 as [Hnb Hf2].
    apply NoDup_app. split_and!; [done| |].
    + intros p Hp1 Hp2. apply elem_of_cons in Hp2 as [->|Hp2]; [|apply elem_of_cons in Hp2 as [->|Hp2]].
      * apply (Hd b Hp1), list_elem_of_here.
      * by apply Hf1.
      * apply (Hd p Hp1). by apply list_elem_of_further.
    + apply NoDup_cons. split.
      * apply not_elem_of_cons. split; [congruence|done].
      * apply NoDup_cons. done.
Qed.

Lemma ring_untie h s xs1 n xs2 :
  ring h s (xs1 ++ n :: xs2) →
  ∃ h' k v,
    Untie (Some n) h = Ok (tt, h')
    ∧ ring h' s (xs1 ++ xs2)
    ∧ h' !! n = Some (mkNode k v None None)
    ∧ Key <$> h !! n = Some k ∧ Value <$> h !! n = Some v
    ∧ length h' = length h
    ∧ Key <$> h' = Key <$> h ∧ Value <$> h' = Value <$> h.
Proof.
  intros [Hseg Hnd].
  rewrite last_app_cons in Hseg. cbn [default from_option id] in Hseg.
  destruct (untie_ring_spec h s xs1 n xs2 Hseg Hnd)
    as (h' & k & v & Hrun & Hseg' & Hn & Hk & Hv & Hlen & Hks & Hvs).
  exists h', k, v. split_and!; try done. split.
  - rewrite last_app. destruct (last xs2); exact Hseg'.
  - rewrite app_comm_cons in Hnd |- *.
    apply NoDup_app in Hnd as (Hn1 & Hd & Hn2).
    apply NoDup_cons in Hn2 as [_ Hn2].
    apply NoDup_app. split_and!; [done| |done].
    intros p Hp1 Hp2. apply (Hd p Hp1). by apply list_elem_of_further.
Qed.

(** Two heaps that hold the same segment and the same keys and values
    hold the same nodes along it. *)
Lemma dseg_agree h h' prv ps nxt :
  dseg h prv ps nxt → dseg h' prv ps nxt →
  Key <$> h' = Key <$> h → Value <$> h' = Value <$> h →
  ∀ p, p ∈ ps → h' !! p = h !! p.
Proof.
  intros H1 H2 Hk Hv. revert prv H1 H2.
  induction ps as [|q ps IH]; intros prv H1 H2 p Hp; [by apply elem_of_nil in Hp|].
  cbn in H1, H2. destruct H1 as ((k & v & Hq) & H1), H2 as ((k' & v' & Hq') & H2).
  apply elem_of_cons in Hp as [->|Hp]; [|by eapply IH].
  assert (Key <$> h' !! q = Key <$> h !! q) as Hkq by (by rewrite <- !list_lookup_fmap, Hk).
  assert (Value <$> h' !! q = Value <$> h !! q) as Hvq
    by (by rewrite <- !list_lookup_fmap, Hv).
  rewrite Hq, Hq' in Hkq, Hvq |- *. cbn in Hkq, Hvq. congruence.
Qed.

(** X18. On a ring, [IsEmpty] is true exactly when there is no node but
    the sentinel, [First] is the first node and [Last] the last one, or the
    sentinel when there is none; none of them writes.  A list without a
    sentinel is empty. *)
Theorem ring_IsEmpty_First_Last h s xs :
  ring h s xs →
  IsEmpty (mkList (Some s)) h = Ok (bool_decide (xs = []), h)
  ∧ First (mkList (Some s)) h = Ok (Some (default s (head xs)), h)
  ∧ Last (mkList (Some s)) h = Ok (Some (default s (last xs)), h)
  ∧ IsEmpty (mkList None) h = Ok (true, h).
Proof. apply ring_reads. Qed.

(** X19. [Untie] on a node whose [next] is nil panics with a nil
    dereference. *)
Theorem Untie_unlinked_panics h n nd :
  h !! n = Some nd → next nd = None →
  Untie (Some n) h = Panic NilDereference.
Proof. apply Untie_nil_next. Qed.

(** X21. On a ring, [AddFrontOrAfter] of a node that is not in it, without
    a [before], makes it the first node; the list is not empty afterwards;
    no node is allocated and no key or value changes. *)
Theorem AddFrontOrAfter_front h s xs n nd :
  ring h s xs → h !! n = Some nd → n ∉ s :: xs →
  ∃ h',
    AddFrontOrAfter (mkList (Some s)) (Some n) [] h = Ok (tt, h')
    ∧ ring h' s (n :: xs)
    ∧ First (mkList (Some s)) h' = Ok (Some n, h')
    ∧ IsEmpty (mkList (Some s)) h' = Ok (false, h')
    ∧ length h' = length h
    ∧ Key <$> h' = Key <$> h ∧ Value <$> h' = Value <$> h.
Proof.
  intros Hring Hn Hfresh.
  destruct (ring_front _ _ _ _ _ Hring Hn Hfresh)
    as (h' & Hrun & Hring' & Hlen & Hk & Hv).
  destruct (ring_reads _ _ _ Hring') as (He & Hf & _).
  rewrite bool_decide_eq_false_2 in He by done. cbn in Hf.
  exists h'. split_and!; try done.
Qed.

(** X22. On a ring, [AddFrontOrAfter] of a node that is not in it, with a
    node [b] of the ring as the first [before], links it right after [b];
    further [before] arguments are not read. *)
Theorem AddFrontOrAfter_after h s xs1 b xs2 n nd rest :
  ring h s (xs1 ++ b :: xs2) → h !! n = Some nd → n ∉ s :: xs1 ++ b :: xs2 →
  ∃ h',
    AddFrontOrAfter (mkList (Some s)) (Some n) (Some b :: rest) h = Ok (tt, h')
    ∧ ring h' s (xs1 ++ b :: n :: xs2)
    ∧ length h' = length h
    ∧ Key <$> h' = Key <$> h ∧ Value <$> h' = Value <$> h.
Proof. apply ring_after. Qed.

(** X23. On a ring, [AddFrontOrAfter] after [Last()] appends: the node
    becomes the last one, also when the ring was empty. *)
Theorem AddFrontOrAfter_Last_appends h s xs n nd :
  ring h s xs → h !! n = Some nd → n ∉ s :: xs →
  ∃ h',
    (lst ← Last (mkList (Some s)); AddFrontOrAfter (mkList (Some s)) (Some n) [lst]) h
    = Ok (tt, h')
    ∧ ring h' s (xs ++ [n])
    ∧ Last (mkList (Some s)) h' = Ok (Some n, h').
Proof.
  intros Hring Hn Hfresh.
  destruct (ring_reads _ _ _ Hring) as (_ & _ & Hlast & _).
  assert (Hrun : ∀ r, AddFrontOrAfter (mkList (Some s)) (Some n)
                        [Some (default s (last xs))] h = r →
            (lst ← Last (mkList (Some s));
             AddFrontOrAfter (mkList (Some s)) (Some n) [lst]) h = r).
  { intros r <-. unfold mbind, LM_bind. by rewrite Hlast. }
  destruct xs as [|b xs _] using rev_ind.
  - destruct Hring as [Hseg Hnd].
    destruct (insert_after_spec h s [] s [] n nd [Some s] Hseg Hnd eq_refl Hn Hfresh
                eq_refl) as (h' & Hadd & Hseg' & _).
    assert (Hring' : ring h' s [n]).
    { split; [exact Hseg'|]. apply not_elem_of_cons in Hfresh as [Hns _].
      apply NoDup_cons. split; [|apply NoDup_singleton].
      apply not_elem_of_cons. split; [congruence|apply not_elem_of_nil]. }
    exists h'. split_and!; [by apply Hrun|done|].
    by destruct (ring_reads _ _ _ Hring') as (_ & _ & ? & _).
  - rewrite last_snoc in Hrun. cbn [default from_option id] in Hrun.
    destruct (ring_after h s xs b [] n nd [] Hring Hn Hfresh)
      as (h' & Hadd & Hring' & _).
    rewrite <- app_assoc. cbn [app].
    exists h'. split_and!; [by apply Hrun|done|].
    destruct (ring_reads _ _ _ Hring') as (_ & _ & Hl & _).
    rewrite Hl. by rewrite last_app_cons.
Qed.

(** X24. On a ring, [Untie] of one of its nodes returns and takes the node
    out: the other nodes keep their order, the node has no neighbours any
    more, no key or value changes; a second [Untie] of the node panics. *)
Theorem Untie_removes h s xs1 n xs2 :
  ring h s (xs1 ++ n :: xs2) →
  ∃ h' k v,
    Untie (Some n) h = Ok (tt, h')
    ∧ ring h' s (xs1 ++ xs2)
    ∧ h' !! n = Some (mkNode k v None None)
    ∧ Key <$> h !! n = Some k ∧ Value <$> h !! n = Some v
    ∧ length h' = length h
    ∧ Key <$> h' = Key <$> h ∧ Value <$> h' = Value <$> h
    ∧ Untie (Some n) h' = Panic NilDereference.
Proof.
  intros Hring.
  destruct (ring_untie _ _ _ _ _ Hring)
    as (h' & k & v & Hrun & Hring' & Hn & Hk & Hv & Hlen & Hks & Hvs).
  exists h', k, v. split_and!; try done.
  by apply (Untie_nil_next _ _ (mkNode k v None None)).
Qed.

(** X25. On a ring, [AddFrontOrAfter] of a node followed by [Untie] of it
    gives the ring back: every node of the ring is as it was. *)
Theorem AddFrontOrAfter_then_Untie h s xs n nd :
  ring h s xs → h !! n = Some nd → n ∉ s :: xs →
  ∃ h',
    (AddFrontOrAfter (mkList (Some s)) (Some n) [];; Untie (Some n)) h = Ok (tt, h')
    ∧ ring h' s xs
    ∧ ∀ p, p ∈ s :: xs → h' !! p = h !! p.
Proof.
  intros Hring Hn Hfresh.
  destruct (ring_front _ _ _ _ _ Hring Hn Hfresh)
    as (h1 & Hadd & Hring1 & _ & Hk1 & Hv1).
  destruct (ring_untie h1 s [] n xs Hring1)
    as (h' & k & v & Hun & Hring' & _ & _ & _ & _ & Hk2 & Hv2).
  exists h'. split_and!.
  - unfold mbind, LM_bind. by rewrite Hadd.
  - exact Hring'.
  - destruct Hring as [Hseg _], Hring' as [Hseg' _].
    eapply dseg_agree; [exact Hseg|exact Hseg'|congruence..].
Qed.

(** X26. On a ring, [Next] of a node is the node after it and [Prev] the
    node before it, with the sentinel at both ends; neither writes. *)
Theorem Next_Prev_walk h s xs i p :
  ring h s xs → xs !! i = Some p →
  Next (Some p) h = Ok (Some (default s (xs !! S i)), h)
  ∧ Prev (Some p) h
    = Ok (Some (match i with O => s | S j => default s (xs !! j) end), h).
Proof.
  intros [Hseg _] Hi.
  destruct (dseg_lookup _ _ _ _ (S i) p Hseg) as (k & v & Hp); [done|].
  unfold Next, Prev. rewrite !(rd_ok _ _ _ _ Hp). cbn.
  split; [done|]. destruct i as [|j]; [done|]. cbn.
  apply lookup_lt_Some in Hi.
  destruct (xs !! j) eqn:Hj; [done|]. apply lookup_ge_None in Hj. lia.
Qed.

(** X27. On a ring, a node from [NewNode] put in front becomes the first
    node, with the key and value given; its two empty neighbours stay
    behind in the heap, outside the ring. *)
Theorem NewNode_AddFrontOrAfter h s xs (key : K) (value : V) :
  ring h s xs →
  ∃ h',
    (n ← NewNode zeroKey zeroValue key value;
     AddFrontOrAfter (mkList (Some s)) n [];; mret n) h
    = Ok (Some (length h + 2)%nat, h')
    ∧ ring h' s ((length h + 2)%nat :: xs)
    ∧ Key <$> h' !! (length h + 2)%nat = Some key
    ∧ Value <$> h' !! (length h + 2)%nat = Some value
    ∧ length h' = (length h + 3)%nat.
Proof.
  intros Hring.
  set (n := (length h + 2)%nat).
  set (h1 := h ++ [zeroNode zeroKey zeroValue; zeroNode zeroKey zeroValue;
                   mkNode key value (Some (length h)) (Some (length h + 1)%nat)]).
  assert (HN : NewNode zeroKey zeroValue key value h = Ok (Some n, h1)).
  { unfold NewNode, n, h1. lexec. unfold alloc. rewrite !length_app. cbn [length].
    rewrite <- !app_assoc. cbn [app]. do 3 f_equal. lia. }
  assert (Hn : h1 !! n = Some (mkNode key value (Some (length h)) (Some (length h + 1)%nat))).
  { unfold h1, n. rewrite lookup_app_r by lia.
    by replace (length h + 2 - length h)%nat with 2%nat by lia. }
  assert (Hring1 : ring h1 s xs).
  { destruct Hring as [Hseg Hnd]. split; [|done].
    eapply dseg_ext; [|exact Hseg]. intros p Hp.
    apply lookup_app_l. by eapply dseg_bound. }
  assert (Hfresh : n ∉ s :: xs).
  { intros Hin. pose proof (ring_bound _ _ _ _ Hring Hin). unfold n in *. lia. }
  destruct (ring_front _ _ _ _ _ Hring1 Hn Hfresh)
    as (h' & Hadd & Hring' & Hlen & Hk & Hv).
  exists h'. split_and!.
  - unfold mbind, LM_bind. rewrite HN. cbv beta.
    change (@Some nat n) with (@Some ptr n). by rewrite Hadd.
  - exact Hring'.
  - by rewrite <- list_lookup_fmap, Hk, list_lookup_fmap, Hn.
  - by rewrite <- list_lookup_fmap, Hv, list_lookup_fmap, Hn.
  - rewrite Hlen. unfold h1. rewrite length_app. cbn. lia.
Qed.

End ListOps.

(** ** The theorems at small inputs *)

Lemma lone_sentinel_ring : linkedlist.ring lone_sentinel 0%nat [].
Proof. split; [cbn; eauto|apply NoDup_singleton]. Qed.

Lemma one_node_ring : linkedlist.ring one_node 0%nat [1%nat].
Proof.
  split; [cbn; eauto 10|].
  apply NoDup_cons. split; [|apply NoDup_singleton].
  by intros ?%list_elem_of_singleton.
Qed.

(** Capacity 2 and three keys put. *)
Lemma size_bounded_by_capacity_witness :
  ∃ c, session 0 [2] [OpPut 1 10; OpPut 2 20; OpPut 3 30] = Ok c
    ∧ Size c ≤ Capacity c.
Proof.
  assert (∃ c, session 0 [2] [OpPut 1 10; OpPut 2 20; OpPut 3 30] = Ok c
            ∧ 1 ≤ Capacity c) as (c & Hs & Hcap).
  { eexists. split; [vm_compute; reflexivity|]. by vm_compute. }
  destruct (size_bounded_by_capacity 0 [2] _ c Hs) as (_ & Hle & _).
  exists c. split; [done|]. by apply Hle.
Defined.

(** [New(3)] and a few calls. *)
Lemma calls_never_panic_witness :
  ∃ c0 c : cacheImpl Z Z,
    New [3] = Ok c0
    ∧ session 0 [3] [OpGet 1; OpPut 1 10; OpAll (λ _ _, false); OpSize] = Ok c
    ∧ Capacity c = Capacity c0.
Proof.
  assert (∃ c0 : cacheImpl Z Z, New [3] = Ok c0) as (c0 & HN).
  { eexists. vm_compute. reflexivity. }
  destruct (calls_never_panic 0 [3] [OpGet 1; OpPut 1 10; OpAll (λ _ _, false); OpSize]
              c0 HN) as (c & Hs & Hcap).
  by exists c0, c.
Defined.

(** Key 1 put and read twice. *)
Lemma frequency_between_one_and_calls_witness :
  ∃ c, session 0 [2] [OpPut 1 10; OpGet 1; OpGet 1] = Ok c
    ∧ GetKeyFrequency 1 c = Ok (3, None)
    ∧ 1 ≤ 3 ≤ Z.of_nat 3.
Proof.
  assert (∃ c, session 0 [2] [OpPut 1 10; OpGet 1; OpGet 1] = Ok c
            ∧ GetKeyFrequency 1 c = Ok (3, None)) as (c & Hs & HG).
  { eexists. split; vm_compute; reflexivity. }
  pose proof (frequency_between_one_and_calls 0 [2] _ c 1 3 Hs) as Hb.
  exists c. split; [done|]. split; [done|]. apply Hb; [by vm_compute|done].
Defined.

(** The cache of [New()]. *)
Lemma delLast_on_empty_is_identity_witness :
  ∃ c : cacheImpl Z Z, session 0 [] [] = Ok c ∧ Size c = 0 ∧ delLast c = Ok (tt, c).
Proof.
  assert (∃ c : cacheImpl Z Z, session 0 [] [] = Ok c ∧ Size c = 0) as (c & Hs & Hz).
  { eexists. split; vm_compute; reflexivity. }
  exists c. split; [done|]. split; [done|].
  exact (delLast_on_empty_is_identity 0 [] [] c Hs Hz).
Defined.

(** Keys 1 and 2 put: key 1 is at the tail. *)
Lemma delLast_removes_tail_key_witness :
  ∃ c c', session 0 [2] [OpPut 1 10; OpPut 2 20] = Ok c
    ∧ 0 < Size c
    ∧ delLast c = Ok (tt, c') ∧ delLast_key c = Some 1 ∧ Size c' = Size c - 1.
Proof.
  assert (∃ c, session 0 [2] [OpPut 1 10; OpPut 2 20] = Ok c
            ∧ 0 < Size c ∧ delLast_key c = Some 1) as (c & Hs & Hpos & Hd).
  { eexists. split; [vm_compute; reflexivity|]. by vm_compute. }
  destruct (delLast_removes_tail_key 0 [2] _ c Hs Hpos)
    as (c' & kv & Hrun & Hd' & _ & _ & Hsz & _).
  exists c, c'. by rewrite Hd.
Defined.

(** Keys 1 and 2 put, key 1 read: key 2 is as before. *)
Lemma get_leaves_other_keys_witness :
  ∃ c r c', session 0 [2] [OpPut 1 10; OpPut 2 20] = Ok c
    ∧ Get 0 1 c = Ok (r, c')
    ∧ GetKeyFrequency 2 c' = GetKeyFrequency 2 c ∧ stored 2 c' = stored 2 c.
Proof.
  assert (∃ c, session 0 [2] [OpPut 1 10; OpPut 2 20] = Ok c) as (c & Hs).
  { eexists. vm_compute. reflexivity. }
  destruct (get_leaves_other_keys 0 [2] _ c 1 Hs) as (r & c' & HG & Hother).
  destruct (Hother 2) as (Hf & Hv & _); [done|].
  by exists c, r, c'.
Defined.

(** Keys 1 and 2 put, key 1 put again: key 2 is as before. *)
Lemma put_present_leaves_other_keys_witness :
  ∃ c c', session 0 [2] [OpPut 1 10; OpPut 2 20] = Ok c
    ∧ is_Some (mp c !! 1)
    ∧ Put 0 1 11 c = Ok (tt, c')
    ∧ GetKeyFrequency 2 c' = GetKeyFrequency 2 c ∧ stored 2 c' = stored 2 c.
Proof.
  assert (∃ c, session 0 [2] [OpPut 1 10; OpPut 2 20] = Ok c ∧ is_Some (mp c !! 1))
    as (c & Hs & Hk).
  { eexists. split; [vm_compute; reflexivity|]. vm_compute. eauto. }
  destruct (put_present_leaves_other_keys 0 [2] _ c 1 11 Hs Hk) as (c' & HP & Hother).
  destruct (Hother 2) as (Hf & Hv & _); [done|].
  by exists c, c'.
Defined.

(** Capacity 2 and one key put: a second key fits. *)
Lemma put_below_capacity_evicts_nothing_witness :
  ∃ c c', session 0 [2] [OpPut 1 10] = Ok c
    ∧ mp c !! 2 = None ∧ Size c < Capacity c
    ∧ Put 0 2 20 c = Ok (tt, c') ∧ Size c' = Size c + 1.
Proof.
  assert (∃ c, session 0 [2] [OpPut 1 10] = Ok c
            ∧ mp c !! 2 = None ∧ Size c < Capacity c) as (c & Hs & Hk & Hroom).
  { eexists. split; [vm_compute; reflexivity|]. by vm_compute. }
  destruct (put_below_capacity_evicts_nothing 0 [2] _ c 2 20 Hs Hk Hroom)
    as (c' & HP & Hsz & _).
  by exists c, c'.
Defined.

(** Keys 1 and 2 put. *)
Lemma all_enumerates_index_witness :
  ∃ c ps, session 0 [2] [OpPut 1 10; OpPut 2 20] = Ok c
    ∧ All collect_yield (length (lists c) + length (values c)) c [] = Ok ps
    ∧ NoDup ps.*1.
Proof.
  assert (∃ c, session 0 [2] [OpPut 1 10; OpPut 2 20] = Ok c) as (c & Hs).
  { eexists. vm_compute. reflexivity. }
  destruct (all_enumerates_index 0 [2] _ c Hs) as (ps & HA & Hnd & _).
  by exists c, ps.
Defined.

(** A frequency list without nodes and a node outside it. *)
Lemma addFrontByFreq_empty_panics_witness :
  addFrontByFreq (Some 0%nat) (Some 0%nat)
    (mkCache 5 0%nat (∅ : gmap Z ptr) [mkNodeList 0 None None None None]
       [mkNodeValue 1 10 None None None])
  = Panic NilDereference.
Proof.
  apply (addFrontByFreq_empty_panics _ 0%nat (mkNodeList 0 None None None None) 0%nat
           (mkNodeValue 1 10 None None None)); reflexivity.
Defined.

(** Key 1 put: its node is node 0. *)
Lemma untie_clears_links_witness :
  ∃ c c', session 0 [2] [OpPut 1 10] = Ok c
    ∧ mp c !! 1 = Some 0%nat
    ∧ untie (Some 0%nat) c = Ok (tt, c') ∧ mp c' = mp c.
Proof.
  assert (∃ c, session 0 [2] [OpPut 1 10] = Ok c ∧ mp c !! 1 = Some 0%nat)
    as (c & Hs & Hk).
  { eexists. split; vm_compute; reflexivity. }
  destruct (untie_clears_links 0 [2] _ c 1 0%nat Hs Hk)
    as (c' & n & Hu & _ & _ & _ & Hmp & _).
  by exists c, c'.
Defined.

(** The cache of [New()]. *)
Lemma addListFrontOrAfter_nil_first_panics_witness :
  ∃ c : cacheImpl Z Z, session 0 [] [] = Ok c
    ∧ addListFrontOrAfter 1 None [] c = Panic NilDereference.
Proof.
  assert (∃ c : cacheImpl Z Z, session 0 [] [] = Ok c) as (c & Hs).
  { eexists. vm_compute. reflexivity. }
  exists c. split; [done|].
  exact (addListFrontOrAfter_nil_first_panics 0 [] [] c 1 Hs).
Defined.

(** Capacity 2 and keys 1 and 2 put: both revisions evict key 1 for key 3. *)
Lemma earlier_Put_agrees_witness :
  ∃ c c', session 0 [2] [OpPut 1 10; OpPut 2 20] = Ok c
    ∧ 1 ≤ Capacity c ∧ Capacity c < max_int
    ∧ Put 0 3 30 c = Ok (tt, c')
    ∧ part_000.Put 0 3 30 (part_000.mkCache0 c (Size c))
      = Ok (tt, part_000.mkCache0 c' (Size c')).
Proof.
  assert (∃ c, session 0 [2] [OpPut 1 10; OpPut 2 20] = Ok c
            ∧ 1 ≤ Capacity c ∧ Capacity c < max_int) as (c & Hs & H1 & H2).
  { eexists. split; [vm_compute; reflexivity|]. by vm_compute. }
  destruct (earlier_Put_agrees 0 [2] _ c 3 30 Hs H1 H2) as (c' & HP & HP0).
  by exists c, c'.
Defined.

(** The sentinel alone. *)
Lemma ring_IsEmpty_First_Last_witness :
  linkedlist.ring lone_sentinel 0%nat []
  ∧ linkedlist.IsEmpty (linkedlist.mkList (Some 0%nat)) lone_sentinel
    = Ok (true, lone_sentinel).
Proof.
  split; [exact lone_sentinel_ring|].
  by destruct (ring_IsEmpty_First_Last lone_sentinel 0%nat [] lone_sentinel_ring) as (He & _).
Defined.

(** The node outside the list. *)
Lemma Untie_unlinked_panics_witness :
  linkedlist.Untie (Some 1%nat) lone_sentinel = Panic NilDereference.
Proof.
  apply (Untie_unlinked_panics lone_sentinel 1%nat (linkedlist.mkNode 7 70 None None));
    reflexivity.
Defined.

(** The free node goes to the front of the empty list. *)
Lemma AddFrontOrAfter_front_witness :
  ∃ h', linkedlist.AddFrontOrAfter (linkedlist.mkList (Some 0%nat)) (Some 1%nat) []
          lone_sentinel = Ok (tt, h')
    ∧ linkedlist.ring h' 0%nat [1%nat].
Proof.
  destruct (AddFrontOrAfter_front lone_sentinel 0%nat [] 1%nat (linkedlist.mkNode 7 70 None None)
              lone_sentinel_ring eq_refl) as (h' & Hrun & Hring & _).
  { by intros ?%list_elem_of_singleton. }
  by exists h'.
Defined.

(** The free node goes after the node of the list. *)
Lemma AddFrontOrAfter_after_witness :
  ∃ h', linkedlist.AddFrontOrAfter (linkedlist.mkList (Some 0%nat)) (Some 2%nat)
          [Some 1%nat] one_node = Ok (tt, h')
    ∧ linkedlist.ring h' 0%nat [1%nat; 2%nat].
Proof.
  destruct (AddFrontOrAfter_after one_node 0%nat [] 1%nat [] 2%nat (linkedlist.mkNode 8 80 None None) []
              one_node_ring eq_refl) as (h' & Hrun & Hring & _).
  { intros [?|[?|?%elem_of_nil]%elem_of_cons]%elem_of_cons; done. }
  by exists h'.
Defined.

(** The free node goes to the back. *)
Lemma AddFrontOrAfter_Last_appends_witness :
  ∃ h' : list (linkedlist.Node Z Z), linkedlist.ring h' 0%nat [1%nat; 2%nat]
    ∧ linkedlist.Last (linkedlist.mkList (Some 0%nat)) h' = Ok (Some 2%nat, h').
Proof.
  destruct (AddFrontOrAfter_Last_appends one_node 0%nat [1%nat] 2%nat
              (linkedlist.mkNode 8 80 None None) one_node_ring eq_refl)
    as (h' & Hrun & Hring & Hlast).
  { intros [?|[?|?%elem_of_nil]%elem_of_cons]%elem_of_cons; done. }
  by exists h'.
Defined.

(** The node of the list is taken out. *)
Lemma Untie_removes_witness :
  ∃ h', linkedlist.Untie (Some 1%nat) one_node = Ok (tt, h')
    ∧ linkedlist.ring h' 0%nat [].
Proof.
  destruct (Untie_removes one_node 0%nat [] 1%nat [] one_node_ring)
    as (h' & k & v & Hrun & Hring & _).
  by exists h'.
Defined.

(** The free node is put in front and taken out again. *)
Lemma AddFrontOrAfter_then_Untie_witness :
  ∃ h', linkedlist.ring h' 0%nat [1%nat] ∧ h' !! 1%nat = one_node !! 1%nat.
Proof.
  destruct (AddFrontOrAfter_then_Untie one_node 0%nat [1%nat] 2%nat
              (linkedlist.mkNode 8 80 None None) one_node_ring eq_refl)
    as (h' & Hrun & Hring & Hsame).
  { intros [?|[?|?%elem_of_nil]%elem_of_cons]%elem_of_cons; done. }
  exists h'. split; [done|]. apply Hsame. apply list_elem_of_further, list_elem_of_here.
Defined.

(** From the only node, both ways lead to the sentinel. *)
Lemma Next_Prev_walk_witness :
  linkedlist.Next (Some 1%nat) one_node = Ok (Some 0%nat, one_node)
  ∧ linkedlist.Prev (Some 1%nat) one_node = Ok (Some 0%nat, one_node).
Proof. exact (Next_Prev_walk one_node 0%nat [1%nat] 0%nat 1%nat one_node_ring eq_refl). Defined.

(** A new node in front of the empty list. *)
Lemma NewNode_AddFrontOrAfter_witness :
  ∃ h' : list (linkedlist.Node Z Z),
    linkedlist.ring h' 0%nat [4%nat] ∧ linkedlist.Key <$> h' !! 4%nat = Some 9.
Proof.
  destruct (NewNode_AddFrontOrAfter 0 0 lone_sentinel 0%nat [] 9 90 lone_sentinel_ring)
    as (h' & _ & Hring & Hk & _).
  by exists h'.
Defined.
